(** * Alignment comparison engine: position classifier and pairwise distances

    A shallow embedding of [find_differences] and
    [calculate_pairwise_distances] from [alignment_viewer_script.py]
    ([find_differences] is repeated verbatim in
    [alignment_viewer_with_aligner.py]).

    Modelling choices.
    - A Python [str] holding a sequence is a [list ascii]; FASTA text is
      ASCII, and on that range [str.upper] maps [a..z] to [A..Z] and leaves
      every other character alone.
    - The [sequences] dict is an association list in insertion order; a
      dict has no repeated key, which theorems that need it assume as
      [NoDup (keys sequences)].
    - Indexing ([seq[pos]], [seq_names[i]]), dict lookup and division can
      raise; the functions therefore live in an error monad.
    - Python integers are [Z]; loop positions, which come from [range] and
      are used as list indices, are [nat].
    - Sets ([set(bases)], [ambiguity_codes]) are [gset ascii]; the nested
      dict [distance_matrix] is a [gmap string (gmap string Z)].
    - A Python [float] is an IEEE-754 binary64 number, modelled by the
      standard library's [spec_float] at precision 53 and [emax] 1024; the
      [identity] field holds either such a float or the [int] 0.

    - The text of an upload is a [list ascii] too; the reader
      [read_aligned_fasta_from_string] and [check_if_aligned] raise
      nothing and are plain functions.
    - The HTML of [generate_html_visualization] is modelled by what it
      computes and shows (summary numbers, heatmap ratios, the classed
      spans of the alignment view), not by its markup.

    The file has the program first, then the specification's notions
    written from its own words, then the proofs and the numbered
    statements [C1] to [C10]; the statements [X1] to [X21] that follow
    them cover the reader, the checks, the error behaviour of the two
    functions, the summary, the heatmap and the alignment view. *)

From Stdlib Require Import ZArith QArith Qpower Ascii String List Lia SpecFloat.
From stdpp Require Import base option list gmap strings fin_maps fin_sets sorting.

#[local] Set Warnings "-clear-no-such-hyp".

Local Open Scope Z_scope.

(** * The program *)

(** ** Python exceptions and the error monad *)

Inductive pyerr : Type :=
| IndexError
| KeyError
| ZeroDivisionError.

Inductive result (A : Type) : Type :=
| Ok (a : A)
| Err (e : pyerr).
Arguments Ok {A} a.
Arguments Err {A} e.

#[global] Instance result_ret : MRet result := λ A a, Ok a.

#[global] Instance result_bind : MBind result := λ A B k r,
  match r with
  | Ok a => k a
  | Err e => Err e
  end.

(** [for x in xs: body], threading the loop state and stopping at the
    first exception. *)
Fixpoint for_each {S A : Type} (xs : list A) (body : S → A → result S) (s : S)
  : result S :=
  match xs with
  | [] => Ok s
  | x :: xs' =>
      match body s x with
      | Ok s' => for_each xs' body s'
      | Err e => Err e
      end
  end.

(** [range(a, b)] *)
Definition range (a b : nat) : list nat := seq a (b - a).

(** [l[i]] for a non-negative [i]. *)
Definition index {A : Type} (l : list A) (i : nat) : result A :=
  match l !! i with
  | Some x => Ok x
  | None => Err IndexError
  end.

(** ** Characters *)

Abbreviation sequence := (list ascii) (only parsing).

(** [c.upper()] on an ASCII character. *)
Definition upper (c : ascii) : ascii :=
  let n := nat_of_ascii c in
  if ((97 <=? n)%nat && (n <=? 122)%nat)%bool then ascii_of_nat (n - 32) else c.

Definition gap_char : ascii := "-"%char.

(** [set('RYSWKMBDHVN')] *)
Definition ambiguity_codes : gset ascii :=
  list_to_set (list_ascii_of_string "RYSWKMBDHVN").

(** ** The alignment: an insertion-ordered dict *)

Abbreviation alignment := (list (string * list ascii)) (only parsing).

Definition keys (sequences : alignment) : list string := sequences.*1.
Definition values (sequences : alignment) : list sequence := sequences.*2.

(** [sequences[name]] *)
Fixpoint getitem (sequences : alignment) (name : string) : result sequence :=
  match sequences with
  | [] => Err KeyError
  | (k, v) :: rest => if decide (k = name) then Ok v else getitem rest name
  end.

(** ** Position classifier: [find_differences] *)

(** The three lists the function builds, in the order it returns them. *)
Record classification : Type := mk_classification {
  differences : list nat;
  gap_positions : list nat;
  ambiguous_positions : list nat
}.

(** [[seq[pos].upper() for seq in seq_list]] *)
Fixpoint bases_at (seq_list : list sequence) (pos : nat) : result (list ascii) :=
  match seq_list with
  | [] => Ok []
  | s :: rest =>
      c ← index s pos;
      bs ← bases_at rest pos;
      Ok (upper c :: bs)
  end.

Definition classify_step (seq_list : list sequence) (st : classification)
    (pos : nat) : result classification :=
  bases ← bases_at seq_list pos;
  let bases_set : gset ascii := list_to_set bases in
  let has_gap := bool_decide (gap_char ∈ bases_set) in
  let has_ambiguity := negb (bool_decide (bases_set ∩ ambiguity_codes = ∅)) in
  if has_gap then
    Ok (mk_classification (differences st) (gap_positions st ++ [pos])
          (ambiguous_positions st))
  else if has_ambiguity then
    Ok (mk_classification (differences st) (gap_positions st)
          (ambiguous_positions st ++ [pos]))
  else if bool_decide (1 < size bases_set)%nat then
    Ok (mk_classification (differences st ++ [pos]) (gap_positions st)
          (ambiguous_positions st))
  else Ok st.

Definition find_differences (sequences : alignment) : result classification :=
  if bool_decide (sequences = []) then Ok (mk_classification [] [] [])
  else
    let seq_list := values sequences in
    first ← index seq_list 0;
    let align_len := length first in
    for_each (range 0 align_len) (classify_step seq_list)
      (mk_classification [] [] []).

(** ** Python numbers *)

Definition prec : Z := 53.
Definition emax : Z := 1024.

(** [float(z)]: the nearest binary64 number. *)
Definition float_of_int (z : Z) : spec_float := binary_normalize prec emax z 0 false.

(** An [int] as an exact dyadic number, before any rounding. *)
Definition exact_int (z : Z) : spec_float :=
  match z with
  | Z0 => S754_zero false
  | Zpos p => S754_finite false p 0
  | Zneg p => S754_finite true p 0
  end.

(** The quotient of two [int]s as CPython computes it for a non-zero
    divisor: the exact quotient rounded once, to nearest-even.  [SFdiv]
    divides the two mantissas with enough extra bits and rounds that
    quotient once, whatever the number of digits of its arguments; below
    [2 ^ 53] this is the hardware quotient of the two converted operands
    ([rounded_quotient_small]). *)
Definition rounded_quotient (a b : Z) : spec_float :=
  SFdiv prec emax (exact_int a) (exact_int b).

(** [a / b] on two [int]s. *)
Definition int_truediv (a b : Z) : result spec_float :=
  if b =? 0 then Err ZeroDivisionError else Ok (rounded_quotient a b).

Inductive pynum : Type :=
| PyInt (z : Z)
| PyFloat (f : spec_float).

(** [100 * (1 - snps / usable_positions) if usable_positions > 0 else 0] *)
Definition identity_of (snps usable_positions : Z) : result pynum :=
  if 0 <? usable_positions then
    q ← int_truediv snps usable_positions;
    Ok (PyFloat (SFmul prec emax (float_of_int 100)
                   (SFsub prec emax (float_of_int 1) q)))
  else Ok (PyInt 0).

(** ** Pairwise distance engine: [calculate_pairwise_distances] *)

Record pair_record : Type := mk_pair_record {
  seq1 : string;
  seq2 : string;
  snps : Z;
  usable_positions : Z;
  identity : pynum
}.

(** Body of the innermost loop; the state is [(snps, usable_positions)]. *)
Definition count_step (s1 s2 : sequence) (st : Z * Z) (pos : nat) : result (Z * Z) :=
  let '(snps, usable_positions) := st in
  c1 ← index s1 pos;
  let base1 := upper c1 in
  c2 ← index s2 pos;
  let base2 := upper c2 in
  if bool_decide (base1 = gap_char) || bool_decide (base2 = gap_char) then
    Ok (snps, usable_positions)
  else if bool_decide (base1 ∈ ambiguity_codes) || bool_decide (base2 ∈ ambiguity_codes) then
    Ok (snps, usable_positions)
  else
    let usable_positions := usable_positions + 1 in
    if bool_decide (base1 ≠ base2) then Ok (snps + 1, usable_positions)
    else Ok (snps, usable_positions).

Definition count_pair (s1 s2 : sequence) : result (Z * Z) :=
  for_each (range 0 (length s1)) (count_step s1 s2) (0, 0).

(** [distance_matrix[name1][name2] = snps] *)
Definition matrix_set (dm : gmap string (gmap string Z)) (name1 name2 : string)
    (v : Z) : result (gmap string (gmap string Z)) :=
  match dm !! name1 with
  | Some row => Ok (<[name1 := <[name2 := v]> row]> dm)
  | None => Err KeyError
  end.

(** Body of the [j] loop; the state is [(pairwise_distances, distance_matrix)]. *)
Definition pair_step (sequences : alignment) (seq_names : list string) (i : nat)
    (st : list pair_record * gmap string (gmap string Z)) (j : nat)
  : result (list pair_record * gmap string (gmap string Z)) :=
  let '(pairwise_distances, distance_matrix) := st in
  name1 ← index seq_names i;
  name2 ← index seq_names j;
  s1 ← getitem sequences name1;
  s2 ← getitem sequences name2;
  '(snps, usable_positions) ← count_pair s1 s2;
  identity ← identity_of snps usable_positions;
  let pairwise_distances :=
    pairwise_distances ++ [mk_pair_record name1 name2 snps usable_positions identity] in
  distance_matrix ← matrix_set distance_matrix name1 name2 snps;
  distance_matrix ← matrix_set distance_matrix name2 name1 snps;
  Ok (pairwise_distances, distance_matrix).

Definition init_matrix (seq_names : list string) : gmap string (gmap string Z) :=
  fold_left (λ dm name, <[name := ∅]> dm) seq_names ∅.

Definition calculate_pairwise_distances (sequences : alignment)
  : result (list pair_record * gmap string (gmap string Z) * list string) :=
  let seq_names := keys sequences in
  let n := length seq_names in
  '(pairwise_distances, distance_matrix) ←
    for_each (range 0 n)
      (λ st i, for_each (range (i + 1) n) (pair_step sequences seq_names i) st)
      ([], init_matrix seq_names);
  Ok (pairwise_distances, distance_matrix, seq_names).

(** ** The caller's check on the number of sequences

    The script rejects an upload before any comparison:
    [if not sequences: st.error("No sequences found in file")],
    [elif len(sequences) < 2: st.error("Need at least 2 sequences to compare")],
    [else:] the comparison runs. *)

Inductive count_check : Type :=
| NoSequencesFound
| NeedAtLeastTwo
| Compare.

Definition check_sequence_count (sequences : alignment) : count_check :=
  if bool_decide (sequences = []) then NoSequencesFound
  else if bool_decide (length sequences < 2)%nat then NeedAtLeastTwo
  else Compare.

(** ** The FASTA reader: [read_aligned_fasta_from_string]

    The text is a [list ascii], a code point below 256 per character. *)

(** [c.isspace()] on a code point below 256. *)
Definition isspace (c : ascii) : bool :=
  let n := nat_of_ascii c in
  ((9 <=? n)%nat && (n <=? 13)%nat) || ((28 <=? n)%nat && (n <=? 32)%nat)
  || (n =? 133)%nat || (n =? 160)%nat.

Definition newline : ascii := "010"%char.
Definition header_mark : ascii := ">"%char.

Fixpoint lstrip (s : list ascii) : list ascii :=
  match s with
  | [] => []
  | c :: rest => if isspace c then lstrip rest else s
  end.

Fixpoint rstrip (s : list ascii) : list ascii :=
  match s with
  | [] => []
  | c :: rest =>
      match rstrip rest with
      | [] => if isspace c then [] else [c]
      | kept => c :: kept
      end
  end.

(** [s.strip()] *)
Definition strip (s : list ascii) : list ascii := rstrip (lstrip s).

(** [s.split(sep)] for a one-character separator. *)
Fixpoint str_split (sep : ascii) (s : list ascii) : list (list ascii) :=
  match s with
  | [] => [[]]
  | c :: rest =>
      if decide (c = sep) then [] :: str_split sep rest
      else match str_split sep rest with
           | line :: lines => (c :: line) :: lines
           | [] => [[c]]
           end
  end.

(** [line.startswith('>')] *)
Definition startswith_mark (line : list ascii) : bool :=
  match line with
  | c :: _ => bool_decide (c = header_mark)
  | [] => false
  end.

(** [sequences[name] = v]: a key already present keeps its place. *)
Fixpoint setitem (sequences : alignment) (name : string) (v : list ascii)
  : alignment :=
  match sequences with
  | [] => [(name, v)]
  | (k, old) :: rest =>
      if decide (k = name) then (k, v) :: rest
      else (k, old) :: setitem rest name v
  end.

(** [if current_name: sequences[current_name] = ''.join(current_seq)];
    [None] and the empty string are both false. *)
Definition store_current (sequences : alignment) (current_name : option string)
    (current_seq : list (list ascii)) : alignment :=
  match current_name with
  | Some name =>
      if bool_decide (name = ""%string) then sequences
      else setitem sequences name (concat current_seq)
  | None => sequences
  end.

(** Body of the loop over the lines; the state is
    [(sequences, current_name, current_seq)]. *)
Definition read_line (st : list (string * list ascii) * option string * list (list ascii))
    (line : list ascii)
  : list (string * list ascii) * option string * list (list ascii) :=
  let '(sequences, current_name, current_seq) := st in
  let line := strip line in
  if startswith_mark line then
    (store_current sequences current_name current_seq,
     Some (string_of_list_ascii (drop 1 line)), [])
  else (sequences, current_name, current_seq ++ [line]).

(** The loop over the lines and the store after it. *)
Definition read_lines (lines : list (list ascii)) : alignment :=
  let '(sequences, current_name, current_seq) :=
    fold_left read_line lines ([], None, []) in
  store_current sequences current_name current_seq.

(** [for line in fasta_content.strip().split('\n'): ...] *)
Definition read_aligned_fasta_from_string (fasta_content : list ascii) : alignment :=
  read_lines (str_split newline (strip fasta_content)).

(** ** [check_if_aligned] *)

Definition check_if_aligned (sequences : alignment) : bool :=
  if bool_decide (sequences = []) then false
  else
    let lengths := length <$> values sequences in
    bool_decide (size (list_to_set lengths : gset nat) = 1%nat).

(** ** Summary statistics

    The script's sidebar and both versions of
    [generate_html_visualization] compute these from the three lists of
    [find_differences]. *)

(** [align_len = len(list(sequences.values())[0])] *)
Definition alignment_length (sequences : alignment) : result nat :=
  first ← index (values sequences) 0;
  Ok (length first).

(** [usable_positions = align_len - len(gap_positions) - len(ambiguous_positions)] *)
Definition summary_usable_positions (align_len : nat)
    (gap_positions ambiguous_positions : list nat) : Z :=
  Z.of_nat align_len - Z.of_nat (length gap_positions)
  - Z.of_nat (length ambiguous_positions).

(** [100 * (1 - len(differences)/usable_positions)], computed only
    [if usable_positions > 0] ([alignment_viewer_with_aligner.py]). *)
Definition overall_identity (differences : list nat) (usable_positions : Z)
  : result (option spec_float) :=
  if 0 <? usable_positions then
    q ← int_truediv (Z.of_nat (length differences)) usable_positions;
    Ok (Some (SFmul prec emax (float_of_int 100)
                (SFsub prec emax (float_of_int 1) q)))
  else Ok None.

(** ** The heatmap of [generate_html_visualization] *)

(** [[pair['snps'] for pair in pairwise_distances] if pairwise_distances else [0]] *)
Definition all_snps (pairwise_distances : list pair_record) : list Z :=
  match pairwise_distances with
  | [] => [0]
  | _ => snps <$> pairwise_distances
  end.

(** [min(l) if l else 0] and [max(l) if l else 0] *)
Definition min_or_0 (l : list Z) : Z :=
  match l with
  | [] => 0
  | x :: rest => fold_left Z.min rest x
  end.

Definition max_or_0 (l : list Z) : Z :=
  match l with
  | [] => 0
  | x :: rest => fold_left Z.max rest x
  end.

(** [d[k]] on a dict held as a finite map. *)
Definition map_getitem {V : Type} (d : gmap string V) (k : string) : result V :=
  match d !! k with
  | Some v => Ok v
  | None => Err KeyError
  end.

(** The colour ratio of the cell of [name1] and [name2], off the diagonal:
    [snp_count = distance_matrix[name1][name2]], then
    [(snp_count - min_snps) / (max_snps - min_snps) if max_snps > min_snps
    else 0]. *)
Definition heatmap_ratio (pairwise_distances : list pair_record)
    (distance_matrix : gmap string (gmap string Z)) (name1 name2 : string)
  : result pynum :=
  let min_snps := min_or_0 (all_snps pairwise_distances) in
  let max_snps := max_or_0 (all_snps pairwise_distances) in
  row ← map_getitem distance_matrix name1;
  snp_count ← map_getitem row name2;
  if min_snps <? max_snps then
    ratio ← int_truediv (snp_count - min_snps) (max_snps - min_snps);
    Ok (PyFloat ratio)
  else Ok (PyInt 0).

(** ** The alignment view of [generate_html_visualization]

    The view is modelled by what it shows, without the markup: for every
    chunk of columns the two numbers of its position marker and, for every
    sequence, its name and the [span] elements of its bases, each with its
    class. *)

Inductive span_class : Type :=
| class_ambig
| class_diff
| class_gap
| class_match.

(** The class of the base [base] shown at column [pos]; [gap_set] is built
    by the function and never read. *)
Definition span_class_of (diff_set ambig_set : gset nat) (pos : nat) (base : ascii)
  : span_class :=
  if bool_decide (pos ∈ ambig_set) then class_ambig
  else if bool_decide (pos ∈ diff_set) then class_diff
  else if bool_decide (base = gap_char) then class_gap
  else class_match.

Definition chunk_size : nat := 100.

(** [range(0, stop, step)] for a positive [step]. *)
Definition range_step (stop step : nat) : list nat :=
  (λ k, k * step)%nat <$> seq 0 ((stop + step - 1) / step).

(** [s[a:b]] for non-negative [a] and [b]. *)
Definition slice {A : Type} (s : list A) (a b : nat) : list A :=
  take (b - a) (drop a s).

(** [for i, base in enumerate(chunk)] with [pos = chunk_start + i]. *)
Definition chunk_spans (diff_set ambig_set : gset nat) (chunk_start : nat)
    (chunk : list ascii) : list (span_class * ascii) :=
  imap (λ i base, (span_class_of diff_set ambig_set (chunk_start + i)%nat base, base)) chunk.

(** One chunk: [Position {chunk_start + 1}-{chunk_end}] and a line per
    sequence. *)
Record chunk_block : Type := mk_chunk_block {
  marker_first : nat;
  marker_last : nat;
  seq_lines : list (string * list (span_class * ascii))
}.

(** Body of the loop over [range(0, align_len, chunk_size)]; the state is
    what [html] has gained so far. *)
Definition chunk_step (sequences : alignment) (seq_names : list string)
    (diff_set ambig_set : gset nat) (align_len : nat)
    (html : list chunk_block) (chunk_start : nat) : result (list chunk_block) :=
  let chunk_end := ((chunk_start + chunk_size) `min` align_len)%nat in
  lines ← for_each seq_names
             (λ lines name,
                seq ← getitem sequences name;
                let chunk := slice seq chunk_start chunk_end in
                Ok (lines ++ [(name, chunk_spans diff_set ambig_set chunk_start chunk)]))
             [];
  Ok (html ++ [mk_chunk_block (chunk_start + 1)%nat chunk_end lines]).

Definition alignment_view (sequences : alignment) (cls : classification)
    (seq_names : list string) : result (list chunk_block) :=
  align_len ← alignment_length sequences;
  let diff_set : gset nat := list_to_set (differences cls) in
  let ambig_set : gset nat := list_to_set (ambiguous_positions cls) in
  for_each (range_step align_len chunk_size)
    (chunk_step sequences seq_names diff_set ambig_set align_len) [].

(** * The specification

    These definitions follow sections 3, 4 and 8 of the specification, not
    the code, and are what the functions above are compared with. *)

(** ** The alignment and its columns *)

(** Rectangularity: every sequence of the alignment has length [L]. *)
Definition rectangular (sequences : alignment) (L : nat) : Prop :=
  Forall (λ s : sequence, length s = L) (values sequences).

(** "some sequence has [-] at [p]" *)
Definition column_has_gap (seq_list : list sequence) (p : nat) : Prop :=
  ∃ s, s ∈ seq_list ∧ s !! p = Some gap_char.

(** "some sequence's uppercased base at [p] is in the ambiguity alphabet" *)
Definition column_has_ambiguity (seq_list : list sequence) (p : nat) : Prop :=
  ∃ s c, s ∈ seq_list ∧ s !! p = Some c ∧ upper c ∈ ambiguity_codes.

(** "the set of distinct uppercased bases at [p] has more than one member" *)
Definition column_varies (seq_list : list sequence) (p : nat) : Prop :=
  ∃ s s' c c', s ∈ seq_list ∧ s' ∈ seq_list
    ∧ s !! p = Some c ∧ s' !! p = Some c' ∧ upper c ≠ upper c'.

(** ** Pairs and their counts *)

(** All unordered pairs of a list, each once, the earlier element first. *)
Fixpoint all_pairs {A : Type} (l : list A) : list (A * A) :=
  match l with
  | [] => []
  | x :: rest => (pair x <$> rest) ++ all_pairs rest
  end.

(** The number of columns [p] in [[0, L)] at which [P p] holds. *)
Fixpoint count_columns (P : nat → bool) (L : nat) : Z :=
  match L with
  | O => 0
  | S k => count_columns P k + (if P k then 1 else 0)
  end.

(** "neither base is [-] and neither base is in the ambiguity alphabet",
    on two bases that are already uppercased. *)
Definition spec_usable (b1 b2 : ascii) : bool :=
  negb (bool_decide (b1 = gap_char)) && negb (bool_decide (b2 = gap_char))
  && negb (bool_decide (b1 ∈ ambiguity_codes))
  && negb (bool_decide (b2 ∈ ambiguity_codes)).

Definition spec_usable_column (s1 s2 : sequence) (p : nat) : bool :=
  match s1 !! p, s2 !! p with
  | Some c1, Some c2 => spec_usable (upper c1) (upper c2)
  | _, _ => false
  end.

Definition spec_snp_column (s1 s2 : sequence) (p : nat) : bool :=
  match s1 !! p, s2 !! p with
  | Some c1, Some c2 =>
      spec_usable (upper c1) (upper c2) && negb (bool_decide (upper c1 = upper c2))
  | _, _ => false
  end.

Definition spec_usable_positions (s1 s2 : sequence) : Z :=
  count_columns (spec_usable_column s1 s2) (length s1).

Definition spec_snp_count (s1 s2 : sequence) : Z :=
  count_columns (spec_snp_column s1 s2) (length s1).

(** ** Identity, records and matrix entries *)

(** The rational number a float stands for; [None] for infinities and NaN. *)
Definition SF2Q (f : spec_float) : option Q :=
  match f with
  | S754_zero _ => Some 0%Q
  | S754_finite s m e =>
      Some ((if s then -1 else 1) * inject_Z (Z.pos m) * 2 ^ e)%Q
  | S754_infinity _ | S754_nan => None
  end.

(** The number a Python value stands for. *)
Definition pynum_value (x : pynum) : option Q :=
  match x with
  | PyInt z => Some (inject_Z z)
  | PyFloat f => SF2Q f
  end.

(** "[100 × (1 − snp_count/usable_positions)] when [usable_positions > 0],
    else defined as 0", the arithmetic being that of binary64 floats. *)
Definition spec_identity (snp_count usable : Z) : pynum :=
  if 0 <? usable then
    PyFloat (SFmul prec emax (float_of_int 100)
               (SFsub prec emax (float_of_int 1) (rounded_quotient snp_count usable)))
  else PyInt 0.

(** The record the specification asks for the pair of entries [a], [b]. *)
Definition spec_record (a b : string * sequence) : pair_record :=
  let snp_count := spec_snp_count a.2 b.2 in
  let usable := spec_usable_positions a.2 b.2 in
  mk_pair_record a.1 b.1 snp_count usable (spec_identity snp_count usable).

(** [distance_matrix[a][b]], when both keys are present. *)
Definition entry (dm : gmap string (gmap string Z)) (a b : string) : option Z :=
  dm !! a ≫= λ row, row !! b.

(** ** Example alignments *)

(** The alignment of the specification's worked example. *)
Definition example_alignment : list (string * list ascii) :=
  [("s1"%string, list_ascii_of_string "ACGT-N");
   ("s2"%string, list_ascii_of_string "ACTTAN")].

(** A one-sequence alignment, and the two-sequence alignment with a short
    second sequence. *)
Definition single_alignment : list (string * list ascii) :=
  [("s1"%string, list_ascii_of_string "ACGT")].

Definition ragged_alignment : list (string * list ascii) :=
  [("s1"%string, list_ascii_of_string "ACGT");
   ("s2"%string, list_ascii_of_string "AC")].

(** * Notions used in the proofs *)

(** [(i, j)] for [i] in [range(n)] and [j] in [range(i + 1, n)]. *)
Definition index_pairs (n : nat) : list (nat * nat) :=
  range 0 n ≫= λ i, pair i <$> range (i + 1) n.

(** What the matrix holds once the index pairs [visited] are done: a row
    per identifier, and entries in both directions for the visited pairs
    and for nothing else. *)
Definition matrix_inv (sequences : alignment) (visited : nat → nat → Prop)
    (dm : gmap string (gmap string Z)) : Prop :=
  (∀ a, is_Some (dm !! a) ↔ a ∈ keys sequences)
  ∧ ∀ a b v, entry dm a b = Some v ↔
      ∃ i j nA sA nB sB, visited i j
        ∧ sequences !! i = Some (nA, sA) ∧ sequences !! j = Some (nB, sB)
        ∧ v = spec_snp_count sA sB
        ∧ ((a = nA ∧ b = nB) ∨ (a = nB ∧ b = nA)).

(** What the three lists hold once the columns [visited] are done. *)
Definition classified (seq_list : list sequence) (visited : list nat)
    (st : classification) : Prop :=
  (∀ p, p ∈ gap_positions st ↔ p ∈ visited ∧ column_has_gap seq_list p)
  ∧ (∀ p, p ∈ ambiguous_positions st ↔
       p ∈ visited ∧ ¬ column_has_gap seq_list p ∧ column_has_ambiguity seq_list p)
  ∧ (∀ p, p ∈ differences st ↔
       p ∈ visited ∧ ¬ column_has_gap seq_list p
       ∧ ¬ column_has_ambiguity seq_list p ∧ column_varies seq_list p)
  ∧ gap_positions st `sublist_of` visited
  ∧ ambiguous_positions st `sublist_of` visited
  ∧ differences st `sublist_of` visited.

Definition inexact (mrs : shr_record) : bool := shr_r mrs || shr_s mrs.

Definition loc_inexact (l : location) : Z :=
  match l with loc_Exact => 0 | loc_Inexact _ => 1 end.

(** A float that is [+0] or a positive number at most the integer [b]. *)
Definition bounded_by (b : Z) (f : spec_float) : Prop :=
  f = S754_zero false
  ∨ ∃ m e, f = S754_finite false m e ∧ e ≤ 0 ∧ Zpos m ≤ b * 2 ^ (- e).

(** * Notions used in the further properties *)

(** The alignment with every sequence cut to its first [n] characters. *)
Definition truncate_alignment (n : nat) (sequences : alignment) : alignment :=
  (λ entry : string * list ascii, (entry.1, take n entry.2)) <$> sequences.


(** The columns of a pair of sequences that the classifier lists as gap
    and as ambiguous positions. *)
Definition pair_gap_column (s1 s2 : list ascii) (p : nat) : bool :=
  match s1 !! p, s2 !! p with
  | Some c1, Some c2 =>
      bool_decide (upper c1 = gap_char) || bool_decide (upper c2 = gap_char)
  | _, _ => false
  end.

Definition pair_ambiguous_column (s1 s2 : list ascii) (p : nat) : bool :=
  match s1 !! p, s2 !! p with
  | Some c1, Some c2 =>
      negb (bool_decide (upper c1 = gap_char) || bool_decide (upper c2 = gap_char))
      && (bool_decide (upper c1 ∈ ambiguity_codes)
          || bool_decide (upper c2 ∈ ambiguity_codes))
  | _, _ => false
  end.

(** A column in which every sequence has a base that is neither a gap nor
    an ambiguity code. *)
Definition clean_column (seq_list : list (list ascii)) (p : nat) : bool :=
  forallb (λ s : list ascii,
             match s !! p with
             | Some c => negb (bool_decide (upper c = gap_char))
                         && negb (bool_decide (upper c ∈ ambiguity_codes))
             | None => false
             end) seq_list.

(** What the reader's loop has stored and is holding once the lines
    [visited] are read. *)
Definition reader_inv (visited : list (list ascii))
    (st : list (string * list ascii) * option string * list (list ascii)) : Prop :=
  let '(sequences, current_name, current_seq) := st in
  NoDup (keys sequences)
  ∧ (∀ name, (name ∈ keys sequences ∨ (current_name = Some name ∧ name ≠ ""%string)) ↔
       name ≠ ""%string
       ∧ ∃ line, line ∈ visited ∧ strip line = header_mark :: list_ascii_of_string name)
  ∧ (∀ name s, (name, s) ∈ sequences →
       (newline ∉ list_ascii_of_string name) ∧ (newline ∉ s))
  ∧ (∀ name, current_name = Some name → newline ∉ list_ascii_of_string name)
  ∧ Forall (λ line, newline ∉ line) current_seq.

(** The reader's loop fed character by character: [pending] is the part of
    the current line already seen. *)
Fixpoint feed (st : list (string * list ascii) * option string * list (list ascii))
    (pending s : list ascii)
  : list (string * list ascii) * option string * list (list ascii) :=
  match s with
  | [] => read_line st pending
  | c :: rest =>
      if decide (c = newline) then feed (read_line st pending) [] rest
      else feed st (pending ++ [c]) rest
  end.

(** Two states of the reader's loop that store the same dict in the end. *)
Definition same_reading
    (st st' : list (string * list ascii) * option string * list (list ascii)) : Prop :=
  st.1.1 = st'.1.1 ∧ st.1.2 = st'.1.2 ∧ concat st.2 = concat st'.2.

(** A FASTA text written from its records: for every record a header line
    [>name] and then its sequence lines, every line ended by a line
    break. *)
Definition fasta_lines (records : list (string * list (list ascii)))
  : list (list ascii) :=
  records ≫= λ r, (header_mark :: list_ascii_of_string r.1) :: r.2.

Definition fasta_text (records : list (string * list (list ascii))) : list ascii :=
  concat ((λ line, line ++ [newline]) <$> fasta_lines records).

(** A record the reader gives back as it is: a name that is not empty, has
    no line break and does not end in white space; sequence lines without
    a line break that do not start with [>]. *)
Definition well_formed_record (r : string * list (list ascii)) : Prop :=
  r.1 ≠ ""%string
  ∧ (newline ∉ list_ascii_of_string r.1)
  ∧ rstrip (list_ascii_of_string r.1) = list_ascii_of_string r.1
  ∧ Forall (λ line, (newline ∉ line) ∧ startswith_mark (strip line) = false) r.2.

(** The worked example as FASTA records and as a text. *)
Definition example_records : list (string * list (list ascii)) :=
  [("s1"%string, [list_ascii_of_string "ACGT-N"]);
   ("s2"%string, [list_ascii_of_string "ACTTAN"])].

Definition example_fasta : list ascii := fasta_text example_records.

(** All the spans the alignment view shows for the [i]-th sequence, chunk
    after chunk. *)
Definition shown_line (i : nat) (html : list chunk_block) : list (span_class * ascii) :=
  html ≫= λ block, from_option snd [] (seq_lines block !! i).

(** * Loops *)

Lemma bind_Ok {A B : Type} (a : A) (k : A → result B) : Ok a ≫= k = k a.
Proof. reflexivity. Qed.

Section loops.
Context {S A : Type}.
Implicit Types (xs ys : list A) (body : S → A → result S) (s : S).

Lemma for_each_app xs ys body s :
  for_each (xs ++ ys) body s = for_each xs body s ≫= for_each ys body.
Proof.
  revert s. induction xs as [|x xs IH]; intros s; simpl; [done|].
  destruct (body s x) as [s'|e]; [apply IH | done].
Qed.

(** A loop whose body keeps an invariant, indexed by the part of the list
    already visited, runs to its end and establishes the invariant for the
    whole list. *)
Lemma for_each_inv (I : list A → S → Prop) xs body s :
  I [] s →
  (∀ visited x rest s0, xs = visited ++ x :: rest → I visited s0 →
     ∃ s1, body s0 x = Ok s1 ∧ I (visited ++ [x]) s1) →
  ∃ s', for_each xs body s = Ok s' ∧ I xs s'.
Proof.
  intros Hinit Hstep.
  assert (Hgen : ∀ rest visited s0, xs = visited ++ rest → I visited s0 →
            ∃ s', for_each rest body s0 = Ok s' ∧ I xs s').
  { induction rest as [|x rest IH]; intros visited s0 Hxs Hvis; simpl.
    - rewrite app_nil_r in Hxs. subst. eauto.
    - destruct (Hstep visited x rest s0 Hxs Hvis) as (s1 & -> & Hs1).
      apply (IH (visited ++ [x])); [|done].
      by rewrite <- app_assoc. }
  by apply (Hgen xs [] s).
Qed.

End loops.

(** Nested loops visit the pairs of their two index lists in row order. *)
Lemma for_each_nested {S A B : Type} (xs : list A) (inner : A → list B)
    (body : A → S → B → result S) (s : S) :
  for_each xs (λ st i, for_each (inner i) (body i) st) s
  = for_each (xs ≫= λ i, pair i <$> inner i) (λ st ij, body ij.1 st ij.2) s.
Proof.
  revert s. induction xs as [|i xs IH]; intros s; [done|].
  rewrite bind_cons, for_each_app. simpl.
  assert (Hrow : ∀ js st, for_each (pair i <$> js) (λ st ij, body ij.1 st ij.2) st
                          = for_each js (body i) st).
  { induction js as [|j js IHj]; intros st; simpl; [done|].
    destruct (body i st j); [apply IHj | done]. }
  rewrite Hrow. destruct (for_each (inner i) (body i) s); simpl; [apply IH | done].
Qed.

Lemma range_0 (n : nat) : range 0 n = seq 0 n.
Proof. unfold range. by rewrite Nat.sub_0_r. Qed.

Lemma elem_of_range (a b k : nat) : k ∈ range a b ↔ (a ≤ k < b)%nat.
Proof. unfold range. rewrite elem_of_seq. lia. Qed.

Lemma seq_0_split (n : nat) (visited : list nat) (x : nat) (rest : list nat) :
  seq 0 n = visited ++ x :: rest →
  visited = seq 0 x ∧ x = length visited ∧ (x < n)%nat.
Proof.
  intros H.
  assert (Hlen : length (seq 0 n) = length (visited ++ x :: rest)) by by rewrite H.
  rewrite length_seq, length_app in Hlen. simpl in Hlen.
  assert (Hx : seq 0 n !! length visited = Some x).
  { rewrite H. by rewrite list_lookup_middle. }
  apply lookup_seq in Hx as [Hx _]. simpl in Hx. subst x.
  assert (Hlt : (length visited < n)%nat) by lia.
  split_and!; [|done..].
  apply (f_equal (take (length visited))) in H.
  rewrite take_app_length, take_seq in H.
  rewrite <- H at 1. f_equal. lia.
Qed.

Lemma index_lt {A : Type} (l : list A) (i : nat) :
  (i < length l)%nat → ∃ x, l !! i = Some x ∧ index l i = Ok x.
Proof.
  intros Hi. destruct (lookup_lt_is_Some_2 l i Hi) as [x Hx].
  exists x. unfold index. by rewrite Hx.
Qed.

(** * Characters *)

Example upper_samples :
  upper "a" = "A"%char ∧ upper "n" = "N"%char ∧ upper "z" = "Z"%char
  ∧ upper "T" = "T"%char ∧ upper "-" = "-"%char ∧ upper "." = "."%char.
Proof. by vm_compute. Qed.

(** Only the gap character uppercases to the gap character. *)
Lemma upper_gap (c : ascii) : upper c = gap_char ↔ c = gap_char.
Proof.
  destruct c as [[] [] [] [] [] [] [] []]; vm_compute; split; congruence.
Qed.


(** * Counting columns *)

Lemma count_columns_bounds (P : nat → bool) (L : nat) :
  0 ≤ count_columns P L ≤ Z.of_nat L.
Proof. induction L as [|k IH]; simpl count_columns; [lia|]. destruct (P k); lia. Qed.

Lemma count_columns_mono (P Q : nat → bool) (L : nat) :
  (∀ p, (p < L)%nat → P p = true → Q p = true) →
  count_columns P L ≤ count_columns Q L.
Proof.
  induction L as [|k IH]; intros HPQ; simpl; [lia|].
  assert (IH' : count_columns P k ≤ count_columns Q k) by (apply IH; intros; apply HPQ; [lia|done]).
  destruct (P k) eqn:HP; [rewrite (HPQ k) by (lia || done); lia|].
  destruct (Q k); lia.
Qed.

Lemma count_columns_ext (P Q : nat → bool) (L : nat) :
  (∀ p, (p < L)%nat → P p = Q p) → count_columns P L = count_columns Q L.
Proof.
  induction L as [|k IH]; intros HPQ; simpl; [done|].
  rewrite IH by (intros; apply HPQ; lia). rewrite (HPQ k) by lia. done.
Qed.

Lemma spec_snp_column_usable (s1 s2 : sequence) (p : nat) :
  spec_snp_column s1 s2 p = true → spec_usable_column s1 s2 p = true.
Proof.
  unfold spec_snp_column, spec_usable_column.
  destruct (s1 !! p), (s2 !! p); try done.
  by intros [? _]%andb_true_iff.
Qed.

Lemma spec_usable_sym (b1 b2 : ascii) : spec_usable b1 b2 = spec_usable b2 b1.
Proof.
  unfold spec_usable.
  destruct (bool_decide (b1 = gap_char)), (bool_decide (b2 = gap_char)),
    (bool_decide (b1 ∈ ambiguity_codes)), (bool_decide (b2 ∈ ambiguity_codes)); done.
Qed.

Lemma spec_usable_column_sym (s1 s2 : sequence) (p : nat) :
  spec_usable_column s1 s2 p = spec_usable_column s2 s1 p.
Proof.
  unfold spec_usable_column.
  destruct (s1 !! p) as [c1|], (s2 !! p) as [c2|]; try done. apply spec_usable_sym.
Qed.

Lemma spec_snp_column_sym (s1 s2 : sequence) (p : nat) :
  spec_snp_column s1 s2 p = spec_snp_column s2 s1 p.
Proof.
  unfold spec_snp_column.
  destruct (s1 !! p) as [c1|], (s2 !! p) as [c2|]; try done.
  rewrite (spec_usable_sym (upper c1)). f_equal. f_equal.
  apply bool_decide_ext. split; congruence.
Qed.

Lemma spec_usable_positions_sym (s1 s2 : sequence) :
  length s1 = length s2 → spec_usable_positions s1 s2 = spec_usable_positions s2 s1.
Proof.
  intros Hlen. unfold spec_usable_positions. rewrite <- Hlen.
  apply count_columns_ext. intros p _. apply spec_usable_column_sym.
Qed.

(** On two sequences of one length the mismatch count does not depend on
    which of them comes first. *)
Lemma spec_snp_count_sym (s1 s2 : sequence) :
  length s1 = length s2 → spec_snp_count s1 s2 = spec_snp_count s2 s1.
Proof.
  intros Hlen. unfold spec_snp_count. rewrite <- Hlen.
  apply count_columns_ext. intros p _. apply spec_snp_column_sym.
Qed.

(** * The innermost loop *)

Lemma count_step_spec (s1 s2 : sequence) (sn us : Z) (pos : nat) :
  (pos < length s1)%nat → (pos < length s2)%nat →
  count_step s1 s2 (sn, us) pos
  = Ok (sn + (if spec_snp_column s1 s2 pos then 1 else 0),
        us + (if spec_usable_column s1 s2 pos then 1 else 0)).
Proof.
  intros H1 H2.
  destruct (index_lt s1 pos H1) as (c1 & Hc1 & Hi1).
  destruct (index_lt s2 pos H2) as (c2 & Hc2 & Hi2).
  unfold count_step, spec_snp_column, spec_usable_column, spec_usable.
  rewrite Hi1, bind_Ok, Hi2, bind_Ok, Hc1, Hc2. simpl.
  destruct (bool_decide (upper c1 = gap_char)); simpl;
    [by rewrite !Z.add_0_r|].
  destruct (bool_decide (upper c2 = gap_char)); simpl;
    [by rewrite !Z.add_0_r|].
  destruct (bool_decide (upper c1 ∈ ambiguity_codes)); simpl;
    [by rewrite !Z.add_0_r|].
  destruct (bool_decide (upper c2 ∈ ambiguity_codes)); simpl;
    [by rewrite !Z.add_0_r|].
  destruct (decide (upper c1 = upper c2)) as [Heq|Hne].
  - rewrite (bool_decide_eq_false_2 (upper c1 ≠ upper c2)) by tauto.
    rewrite (bool_decide_eq_true_2 (upper c1 = upper c2)) by done.
    simpl. by rewrite Z.add_0_r.
  - rewrite (bool_decide_eq_true_2 (upper c1 ≠ upper c2)) by done.
    rewrite (bool_decide_eq_false_2 (upper c1 = upper c2)) by done.
    done.
Qed.

(** The counting loop never indexes past the end of the second sequence
    when that one is at least as long as the first, and returns the two
    counts of the specification. *)
Lemma count_pair_spec (s1 s2 : sequence) :
  (length s1 ≤ length s2)%nat →
  count_pair s1 s2 = Ok (spec_snp_count s1 s2, spec_usable_positions s1 s2).
Proof.
  intros Hlen. unfold count_pair. rewrite range_0.
  destruct (for_each_inv
    (λ visited (st : Z * Z),
       st = (count_columns (spec_snp_column s1 s2) (length visited),
             count_columns (spec_usable_column s1 s2) (length visited)))
    (seq 0 (length s1)) (count_step s1 s2) (0, 0)) as (st & Hrun & Hst).
  - done.
  - intros visited x rest [sn us] Hsplit [= -> ->].
    apply seq_0_split in Hsplit as (_ & -> & Hx).
    eexists. split; [apply count_step_spec; lia|].
    by rewrite length_app, Nat.add_1_r.
  - rewrite Hrun, Hst, length_seq. done.
Qed.

(** * The pairs the double loop visits *)

Lemma elem_of_index_pairs (n i j : nat) :
  (i, j) ∈ index_pairs n ↔ (i < j < n)%nat.
Proof.
  unfold index_pairs. rewrite list_elem_of_bind. split.
  - intros (i' & Hin & Hi'). apply list_elem_of_fmap in Hin as (j' & [= -> ->] & Hj').
    apply elem_of_range in Hj'. lia.
  - intros Hij. exists i. split.
    + apply list_elem_of_fmap. exists j. split; [done|]. apply elem_of_range. lia.
    + apply elem_of_range. lia.
Qed.

Lemma NoDup_index_pairs (n : nat) : NoDup (index_pairs n).
Proof.
  unfold index_pairs. apply NoDup_bind.
  - intros i1 i2 [i j] _ _ H1 H2.
    apply list_elem_of_fmap in H1 as (? & [= -> ->] & _).
    apply list_elem_of_fmap in H2 as (? & [= -> ->] & _). done.
  - intros i _. apply NoDup_fmap; [|apply NoDup_seq]. by intros ?? [=].
  - apply NoDup_seq.
Qed.

(** Read through the list, the index pairs are the unordered pairs of its
    elements, in the order of [all_pairs]. *)
Lemma index_pairs_all_pairs {A : Type} (l : list A) (ijs : list (nat * nat)) :
  ijs = index_pairs (length l) →
  Forall2 (λ ij ab, l !! ij.1 = Some ab.1 ∧ l !! ij.2 = Some ab.2) ijs (all_pairs l).
Proof.
  intros ->. unfold index_pairs. rewrite range_0.
  assert (Hgen : ∀ rest k, drop k l = rest →
    Forall2 (λ ij ab, l !! ij.1 = Some ab.1 ∧ l !! ij.2 = Some ab.2)
      (seq k (length rest) ≫= λ i, pair i <$> range (i + 1) (length l))
      (all_pairs rest)).
  { induction rest as [|x rest IH]; intros k Hdrop; [constructor|].
    assert (Hlen : length l = (k + S (length rest))%nat).
    { apply (f_equal length) in Hdrop. rewrite length_drop in Hdrop. simpl in Hdrop.
      lia. }
    assert (Hx : l !! k = Some x).
    { rewrite <- (Nat.add_0_r k), <- lookup_drop, Hdrop. done. }
    assert (Hdrop' : drop (S k) l = rest).
    { replace (S k) with (k + 1)%nat by lia. rewrite <- drop_drop, Hdrop. done. }
    simpl length. simpl seq. rewrite bind_cons. simpl all_pairs.
    apply Forall2_app; [|by apply IH].
    unfold range. replace (length l - (k + 1))%nat with (length rest) by lia.
    replace (k + 1)%nat with (S k) by lia.
    apply Forall2_fmap, Forall2_lookup. intros p.
    destruct (decide (p < length rest)%nat) as [Hp|Hp].
    - destruct (lookup_lt_is_Some_2 rest p Hp) as [y Hy].
      rewrite Hy. rewrite (proj2 (lookup_seq (S k) (length rest) p (S k + p))) by lia.
      constructor. simpl. split; [done|].
      rewrite <- Hy, <- Hdrop', lookup_drop. done.
    - rewrite (lookup_ge_None_2 rest) by lia.
      rewrite (lookup_ge_None_2 (seq _ _)) by (rewrite length_seq; lia).
      constructor. }
  apply (Hgen l 0%nat). apply drop_0.
Qed.

Lemma elem_of_all_pairs {A : Type} (l : list A) (a b : A) :
  (a, b) ∈ all_pairs l ↔ ∃ i j, (i < j)%nat ∧ l !! i = Some a ∧ l !! j = Some b.
Proof.
  pose proof (index_pairs_all_pairs l _ eq_refl) as Hall. split.
  - intros Hin. apply list_elem_of_lookup in Hin as [k Hk].
    destruct (Forall2_lookup_r _ _ _ _ _ Hall Hk) as ([i j] & Hij & Hi & Hj).
    exists i, j. split; [|done].
    apply list_elem_of_lookup_2, elem_of_index_pairs in Hij. lia.
  - intros (i & j & Hlt & Hi & Hj).
    assert (Hin : (i, j) ∈ index_pairs (length l)).
    { apply elem_of_index_pairs. split; [done|]. by apply lookup_lt_Some in Hj. }
    apply list_elem_of_lookup in Hin as [k Hk].
    destruct (Forall2_lookup_l _ _ _ _ _ Hall Hk) as ([a' b'] & Hab & Hi' & Hj').
    simpl in Hi', Hj'. rewrite Hi in Hi'. rewrite Hj in Hj'.
    injection Hi' as <-. injection Hj' as <-. by apply list_elem_of_lookup_2 in Hab.
Qed.

(** On a list without repeats every unordered pair of distinct elements
    is listed once, in one orientation. *)
Lemma all_pairs_unordered {A : Type} (l : list A) :
  NoDup l →
  NoDup (all_pairs l)
  ∧ (∀ a b, a ∈ l → b ∈ l → a ≠ b → (a, b) ∈ all_pairs l ∨ (b, a) ∈ all_pairs l)
  ∧ (∀ a b, (a, b) ∈ all_pairs l → (b, a) ∉ all_pairs l).
Proof.
  intros Hnd. split_and!.
  - apply NoDup_alt. intros k k' [a b] Hk Hk'.
    pose proof (index_pairs_all_pairs l _ eq_refl) as Hall.
    destruct (Forall2_lookup_r _ _ _ _ _ Hall Hk) as ([i j] & Hij & Hi & Hj).
    destruct (Forall2_lookup_r _ _ _ _ _ Hall Hk') as ([i' j'] & Hij' & Hi' & Hj').
    simpl in *.
    assert (i = i') as <- by by apply (NoDup_lookup l i i' a).
    assert (j = j') as <- by by apply (NoDup_lookup l j j' b).
    by apply (NoDup_lookup (index_pairs (length l)) k k' (i, j) (NoDup_index_pairs _)).
  - intros a b [i Hi]%list_elem_of_lookup [j Hj]%list_elem_of_lookup Hne.
    assert (i ≠ j) by (intros ->; congruence).
    destruct (decide (i < j)%nat).
    + left. apply elem_of_all_pairs. eauto.
    + right. apply elem_of_all_pairs. exists j, i. split_and!; [lia|done..].
  - intros a b (i & j & Hlt & Hi & Hj)%elem_of_all_pairs
               (i' & j' & Hlt' & Hi' & Hj')%elem_of_all_pairs.
    assert (i = j') by by apply (NoDup_lookup l i j' a).
    assert (j = i') by by apply (NoDup_lookup l j i' b).
    lia.
Qed.

Lemma all_pairs_fmap {A B : Type} (f : A → B) (l : list A) :
  all_pairs (f <$> l) = prod_map f f <$> all_pairs l.
Proof.
  induction l as [|x l IH]; [done|].
  rewrite fmap_cons. cbn [all_pairs]. rewrite fmap_app, IH. f_equal.
  rewrite <- !list_fmap_compose. done.
Qed.

Lemma all_pairs_length {A : Type} (l : list A) :
  length (all_pairs l) = (length l * (length l - 1) / 2)%nat.
Proof.
  induction l as [|x l IH]; [done|].
  simpl all_pairs. rewrite length_app, length_fmap, IH. simpl length.
  rewrite Nat.sub_succ, Nat.sub_0_r.
  destruct (length l) as [|n]; [done|].
  rewrite Nat.sub_succ, Nat.sub_0_r.
  replace (S (S n) * S n)%nat with (S n * 2 + S n * n)%nat by lia.
  rewrite Nat.div_add_l by lia. done.
Qed.

Lemma Forall2_fmap_eq {A B C : Type} (R : A → B → Prop) (R' : A → C → Prop)
    (f : C → B) (xs : list A) (ys : list B) (zs : list C) :
  (∀ x y z, R x y → R' x z → y = f z) →
  Forall2 R xs ys → Forall2 R' xs zs → ys = f <$> zs.
Proof.
  intros Hf Hy. revert zs. induction Hy as [|x y xs ys Hxy _ IH]; intros zs Hz.
  - by apply Forall2_nil_inv_l in Hz as ->.
  - apply Forall2_cons_inv_l in Hz as (z & zs' & Hxz & Hz & ->).
    simpl. f_equal; [by apply (Hf x) | by apply IH].
Qed.

(** * The dict and the distance matrix *)

Lemma lookup_keys (sequences : alignment) (i : nat) (name : string) (s : sequence) :
  sequences !! i = Some (name, s) → keys sequences !! i = Some name.
Proof. intros H. unfold keys. by rewrite list_lookup_fmap, H. Qed.

Lemma lookup_values (sequences : alignment) (i : nat) (name : string) (s : sequence) :
  sequences !! i = Some (name, s) → values sequences !! i = Some s.
Proof. intros H. unfold values. by rewrite list_lookup_fmap, H. Qed.

(** A key of the dict reads back the value stored with it. *)
Lemma getitem_lookup (sequences : alignment) (i : nat) (name : string) (s : sequence) :
  NoDup (keys sequences) → sequences !! i = Some (name, s) →
  getitem sequences name = Ok s.
Proof.
  revert i. induction sequences as [|[k v] rest IH]; intros i Hnd Hi; [done|].
  simpl. apply NoDup_cons in Hnd as [Hk Hnd]. destruct i as [|i]; simpl in Hi.
  - injection Hi as -> ->. by rewrite decide_True.
  - rewrite decide_False; [by apply (IH i)|].
    intros ->. apply Hk. apply list_elem_of_lookup. exists i.
    by apply (lookup_keys rest i name s).
Qed.

(** Without the no-repeated-key assumption a key still reads back some value
    of the dict. *)
Lemma getitem_elem_of (sequences : alignment) (name : string) :
  name ∈ keys sequences →
  ∃ s, getitem sequences name = Ok s ∧ s ∈ values sequences.
Proof.
  induction sequences as [|[k v] rest IH]; intros Hin; [by apply elem_of_nil in Hin|].
  simpl. destruct (decide (k = name)) as [->|Hne].
  - exists v. split; [done|]. unfold values. simpl. apply list_elem_of_here.
  - unfold keys in Hin. simpl in Hin. apply elem_of_cons in Hin as [->|Hin]; [done|].
    destruct (IH Hin) as (s & Hs & Hsin). exists s. split; [done|].
    unfold values. simpl. by apply list_elem_of_further.
Qed.

Lemma init_matrix_lookup (seq_names : list string) (a : string) :
  init_matrix seq_names !! a = if decide (a ∈ seq_names) then Some ∅ else None.
Proof.
  unfold init_matrix.
  assert (Hgen : ∀ (dm : gmap string (gmap string Z)),
            fold_left (λ dm name, <[name := ∅]> dm) seq_names dm !! a
            = if decide (a ∈ seq_names) then Some ∅ else dm !! a).
  { induction seq_names as [|x names IH]; intros dm; cbn [fold_left].
    - rewrite decide_False; [done | apply not_elem_of_nil].
    - rewrite IH. destruct (decide (a ∈ names)) as [Hin|Hout].
      + rewrite decide_True; [done | by apply list_elem_of_further].
      + destruct (decide (a = x)) as [->|Hne].
        * rewrite decide_True by apply list_elem_of_here. apply lookup_insert_eq.
        * rewrite decide_False by (rewrite elem_of_cons; tauto).
          by apply lookup_insert_ne. }
  rewrite Hgen. by rewrite lookup_empty.
Qed.

Lemma init_matrix_entry (seq_names : list string) (a b : string) :
  entry (init_matrix seq_names) a b = None.
Proof.
  unfold entry. rewrite init_matrix_lookup. destruct (decide _); [|done].
  simpl. apply lookup_empty.
Qed.

Lemma matrix_set_spec (dm : gmap string (gmap string Z)) (name1 name2 : string) (v : Z) :
  is_Some (dm !! name1) →
  ∃ dm', matrix_set dm name1 name2 v = Ok dm'
    ∧ (∀ a, is_Some (dm' !! a) ↔ is_Some (dm !! a))
    ∧ (∀ a b, entry dm' a b
              = if decide (a = name1 ∧ b = name2) then Some v else entry dm a b).
Proof.
  intros [row Hrow]. unfold matrix_set. rewrite Hrow. eexists. split; [done|]. split.
  - intros a. destruct (decide (a = name1)) as [->|Hne].
    + rewrite lookup_insert_eq, Hrow. split; eauto.
    + by rewrite lookup_insert_ne.
  - intros a b. unfold entry. destruct (decide (a = name1)) as [->|Hne].
    + rewrite lookup_insert_eq, Hrow. simpl.
      destruct (decide (b = name2)) as [->|Hne2].
      * rewrite decide_True by done. apply lookup_insert_eq.
      * rewrite decide_False by tauto. by apply lookup_insert_ne.
    + rewrite lookup_insert_ne by done. rewrite decide_False by tauto. done.
Qed.

(** * Binary64 rounding *)

(** The rounded quotient of two small integers is the quotient of their
    floats, bit for bit: [1 / 3] is [0x3FD5555555555555], [2 / 3] is
    [0x3FE5555555555555]. *)
Example rounded_quotient_samples :
  rounded_quotient 1 3 = S754_finite false 6004799503160661 (-54)
  ∧ rounded_quotient 2 3 = S754_finite false 6004799503160661 (-53)
  ∧ rounded_quotient 1 3 = SFdiv prec emax (float_of_int 1) (float_of_int 3)
  ∧ rounded_quotient 355 1130 = SFdiv prec emax (float_of_int 355) (float_of_int 1130)
  ∧ rounded_quotient 29999 30000
    = SFdiv prec emax (float_of_int 29999) (float_of_int 30000)
  ∧ rounded_quotient 4 4 = float_of_int 1.
Proof. split_and!; by vm_compute. Qed.

Lemma fexp_eq (e : Z) : fexp prec emax e = Z.max (e - 53) (-1074).
Proof. reflexivity. Qed.

Lemma digits2_pos_lower (p : positive) : 2 ^ (Zpos (digits2_pos p) - 1) ≤ Zpos p.
Proof.
  induction p as [p IH|p IH|]; simpl digits2_pos.
  - rewrite Pos2Z.inj_succ. replace (Z.succ (Zpos (digits2_pos p)) - 1) with (Z.succ (Zpos (digits2_pos p) - 1)) by lia.
    rewrite Z.pow_succ_r by lia. lia.
  - rewrite Pos2Z.inj_succ. replace (Z.succ (Zpos (digits2_pos p)) - 1) with (Z.succ (Zpos (digits2_pos p) - 1)) by lia.
    rewrite Z.pow_succ_r by lia. lia.
  - reflexivity.
Qed.

(** A non-negative number below [2 ^ k] has at most [k] binary digits. *)
Lemma Zdigits2_le (m k : Z) : 0 ≤ m → 0 ≤ k → m < 2 ^ k → Zdigits2 m ≤ k.
Proof.
  intros Hm Hk Hlt. destruct m as [|p|p]; simpl; [lia| |lia].
  pose proof (digits2_pos_lower p) as Hlow.
  destruct (Z_le_gt_dec (Zpos (digits2_pos p)) k) as [|Hgt]; [done|].
  assert (2 ^ k ≤ 2 ^ (Zpos (digits2_pos p) - 1)) by (apply Z.pow_le_mono_r; lia).
  lia.
Qed.

Lemma digits2_pos_upper (p : positive) : Zpos p < 2 ^ Zpos (digits2_pos p).
Proof.
  induction p as [p IH|p IH|]; simpl digits2_pos.
  - rewrite Pos2Z.inj_succ, Z.pow_succ_r by lia. lia.
  - rewrite Pos2Z.inj_succ, Z.pow_succ_r by lia. lia.
  - reflexivity.
Qed.

(** The number of binary digits of a positive number is fixed by the two
    powers of two around it. *)
Lemma Zdigits2_unique (m d : Z) : 2 ^ (d - 1) ≤ m < 2 ^ d → 0 < d → Zdigits2 m = d.
Proof.
  intros [Hlow Hup] Hd.
  assert (Hm : 0 < m).
  { assert (0 < 2 ^ (d - 1)) by (apply Z.pow_pos_nonneg; lia). lia. }
  destruct m as [|p|p]; [lia| |lia]. simpl.
  pose proof (digits2_pos_lower p) as Hl. pose proof (digits2_pos_upper p) as Hu.
  destruct (Z.lt_trichotomy (Zpos (digits2_pos p)) d) as [Hlt|[Heq|Hgt]]; [|done|].
  - assert (2 ^ Zpos (digits2_pos p) ≤ 2 ^ (d - 1)) by (apply Z.pow_le_mono_r; lia). lia.
  - assert (2 ^ d ≤ 2 ^ (Zpos (digits2_pos p) - 1)) by (apply Z.pow_le_mono_r; lia). lia.
Qed.

Lemma Zdigits2_shift (p : positive) (k : Z) :
  0 ≤ k → Zdigits2 (Zpos p * 2 ^ k) = Zpos (digits2_pos p) + k.
Proof.
  intros Hk. apply Zdigits2_unique; [|lia].
  pose proof (digits2_pos_lower p) as Hl. pose proof (digits2_pos_upper p) as Hu.
  assert (Hp : 0 < 2 ^ k) by (apply Z.pow_pos_nonneg; lia).
  replace (Zpos (digits2_pos p) + k - 1) with (Zpos (digits2_pos p) - 1 + k) by lia.
  rewrite !Z.pow_add_r by lia. nia.
Qed.

Lemma iter_pos_nat {A : Type} (f : A → A) (p : positive) (x : A) :
  SpecFloat.iter_pos f p x = Nat.iter (Pos.to_nat p) f x.
Proof.
  revert x. induction p as [p IH|p IH|]; intros x; simpl SpecFloat.iter_pos.
  - rewrite !IH, Pos2Nat.inj_xI.
    replace (S (2 * Pos.to_nat p)) with (Pos.to_nat p + S (Pos.to_nat p))%nat by lia.
    rewrite Nat.iter_add, Nat.iter_succ_r. reflexivity.
  - rewrite !IH, Pos2Nat.inj_xO.
    replace (2 * Pos.to_nat p)%nat with (Pos.to_nat p + Pos.to_nat p)%nat by lia.
    rewrite Nat.iter_add. reflexivity.
  - reflexivity.
Qed.

(** ** Shifting right with round and sticky bits *)

Lemma shr_1_spec (mrs : shr_record) :
  0 ≤ shr_m mrs →
  shr_m (shr_1 mrs) = shr_m mrs / 2
  ∧ (inexact (shr_1 mrs) = true → shr_m mrs mod 2 ≠ 0 ∨ inexact mrs = true).
Proof.
  destruct mrs as [m r s]. unfold inexact. simpl. intros Hm.
  destruct m as [|[p|p|]|p]; simpl shr_m; simpl shr_r; simpl shr_s; try lia.
  - split; [by rewrite Z.div_0_l|]. simpl. tauto.
  - split; [rewrite Pos2Z.inj_xI; apply Z.div_unique with 1; lia|].
    intros _. left. rewrite Pos2Z.inj_xI.
    replace (2 * Z.pos p + 1) with (1 + Z.pos p * 2) by lia. rewrite Z_mod_plus_full. done.
  - split; [rewrite Pos2Z.inj_xO; apply Z.div_unique with 0; lia|].
    simpl. tauto.
  - split; [done|]. intros _. left. done.
Qed.

Lemma shr_iter_spec (k : nat) (mrs : shr_record) :
  0 ≤ shr_m mrs →
  let mrs' := Nat.iter k shr_1 mrs in
  shr_m mrs' = shr_m mrs / 2 ^ Z.of_nat k
  ∧ (inexact mrs' = true → shr_m mrs mod 2 ^ Z.of_nat k ≠ 0 ∨ inexact mrs = true).
Proof.
  intros Hm. induction k as [|k [IHm IHr]]; cbv zeta.
  - simpl. split; [by rewrite Z.div_1_r | tauto].
  - cbv zeta in IHm, IHr. simpl Nat.iter.
    assert (Hpow : 0 < 2 ^ Z.of_nat k) by (apply Z.pow_pos_nonneg; lia).
    assert (Hk : 0 ≤ shr_m (Nat.iter k shr_1 mrs)).
    { rewrite IHm. apply Z.div_pos; lia. }
    destruct (shr_1_spec _ Hk) as [Hm1 Hr1].
    rewrite Nat2Z.inj_succ, Z.pow_succ_r by lia. split.
    + rewrite Hm1, IHm, Z.div_div by lia. f_equal. lia.
    + intros Hin. destruct (Hr1 Hin) as [Hodd|Hprev].
      * left. intros Hmod. apply Hodd. rewrite IHm.
        apply Z.mod_divide in Hmod; [|lia]. destruct Hmod as [c Hc].
        rewrite Hc. replace (c * (2 * 2 ^ Z.of_nat k)) with (c * 2 * 2 ^ Z.of_nat k) by lia.
        rewrite Z.div_mul by lia. by rewrite Z.mod_mul.
      * destruct (IHr Hprev) as [Hmod|?]; [|tauto].
        left. intros Hmod'. apply Hmod.
        apply Z.mod_divide in Hmod'; [|lia]. destruct Hmod' as [c Hc].
        rewrite Hc. replace (c * (2 * 2 ^ Z.of_nat k)) with (c * 2 * 2 ^ Z.of_nat k) by lia.
        by rewrite Z.mod_mul by lia.
Qed.

Lemma shr_record_of_loc_m (m : Z) (l : location) : shr_m (shr_record_of_loc m l) = m.
Proof. by destruct l as [|[]]. Qed.

Lemma shr_record_of_loc_inexact (m : Z) (l : location) :
  inexact (shr_record_of_loc m l) = true → loc_inexact l = 1.
Proof. by destruct l as [|[]]. Qed.

Lemma round_nearest_even_bounds (mrs : shr_record) :
  shr_m mrs ≤ round_nearest_even (shr_m mrs) (loc_of_shr_record mrs)
            ≤ shr_m mrs + (if inexact mrs then 1 else 0).
Proof.
  destruct mrs as [m [] []]; unfold inexact; simpl; try lia.
  destruct (Z.even m); lia.
Qed.

(** The first step of rounding: the mantissa is shifted right by the
    number of excess digits, and the bits shifted out are remembered. *)
Lemma shr_fexp_spec (mx ex : Z) (lx : location) :
  0 ≤ mx →
  let n := Z.max 0 (fexp prec emax (Zdigits2 mx + ex) - ex) in
  let mrs := fst (shr_fexp prec emax mx ex lx) in
  snd (shr_fexp prec emax mx ex lx) = ex + n
  ∧ shr_m mrs = mx / 2 ^ n
  ∧ (inexact mrs = true → mx mod 2 ^ n ≠ 0 ∨ loc_inexact lx = 1).
Proof.
  intros Hmx. cbv zeta. unfold shr_fexp, shr.
  destruct (fexp prec emax (Zdigits2 mx + ex) - ex) as [|p|p] eqn:Hn.
  - simpl. rewrite shr_record_of_loc_m, Z.div_1_r. split_and!; [lia|done|].
    intros ?%shr_record_of_loc_inexact. by right.
  - rewrite Z.max_r by lia. cbn [fst snd]. rewrite iter_pos_nat.
    destruct (shr_iter_spec (Pos.to_nat p) (shr_record_of_loc mx lx)) as [Hm Hr].
    { by rewrite shr_record_of_loc_m. }
    rewrite positive_nat_Z, shr_record_of_loc_m in Hm, Hr.
    split_and!; [done..|].
    intros Hin. destruct (Hr Hin) as [?|?%shr_record_of_loc_inexact]; tauto.
  - rewrite Z.max_l by lia. simpl. rewrite shr_record_of_loc_m, Z.div_1_r.
    split_and!; [lia|done|].
    intros ?%shr_record_of_loc_inexact. by right.
Qed.

(** Rounding never goes above a bound that is itself on the grid: here an
    integer [b] of at most [prec] digits, for a number whose exponent is not
    positive. *)
Lemma binary_round_aux_upper (mx ex : Z) (lx : location) (b : Z) :
  0 ≤ mx → ex ≤ 0 → 0 < b < 2 ^ 53 →
  mx + loc_inexact lx ≤ b * 2 ^ (- ex) →
  binary_round_aux prec emax false mx ex lx = S754_zero false
  ∨ ∃ m e, binary_round_aux prec emax false mx ex lx = S754_finite false m e
       ∧ e ≤ 0 ∧ Zpos m ≤ b * 2 ^ (- e).
Proof.
  intros Hmx Hex Hb Hle.
  assert (Hstep : ∀ m e, 0 ≤ m → e ≤ 0 → m ≤ b * 2 ^ (- e) →
            let n := Z.max 0 (fexp prec emax (Zdigits2 m + e) - e) in
            0 ≤ n ∧ e + n ≤ 0).
  { intros m e Hm He Hme. cbv zeta. split; [lia|].
    assert (Hp : 0 < 2 ^ (- e)) by (apply Z.pow_pos_nonneg; lia).
    assert (Hlt : m < 2 ^ (53 - e)).
    { replace (53 - e) with (53 + - e) by lia. rewrite Z.pow_add_r by lia. nia. }
    pose proof (Zdigits2_le m (53 - e) Hm ltac:(lia) Hlt). rewrite fexp_eq. lia. }
  unfold binary_round_aux.
  pose proof (shr_fexp_spec mx ex lx Hmx) as H1. cbv zeta in H1.
  destruct (shr_fexp prec emax mx ex lx) as [mrs' e'] eqn:Hshr1. cbn [fst snd] in H1.
  set (n := Z.max 0 (fexp prec emax (Zdigits2 mx + ex) - ex)) in *.
  destruct H1 as (He' & Hm' & Hin').
  assert (Hp : 0 < 2 ^ (- ex)) by (apply Z.pow_pos_nonneg; lia).
  destruct (Hstep mx ex Hmx Hex ltac:(destruct lx; simpl in Hle; lia)) as [Hn0 Hn1].
  fold n in Hn0, Hn1.
  assert (Hpn : 0 < 2 ^ n) by (apply Z.pow_pos_nonneg; lia).
  assert (Hpe' : 0 < 2 ^ (- e')) by (apply Z.pow_pos_nonneg; lia).
  assert (Hsplit : 2 ^ (- ex) = 2 ^ (- e') * 2 ^ n).
  { rewrite <- Z.pow_add_r by lia. f_equal. lia. }
  pose proof (round_nearest_even_bounds mrs') as Hrne.
  set (m1 := round_nearest_even (shr_m mrs') (loc_of_shr_record mrs')) in *.
  assert (Hm'0 : 0 ≤ shr_m mrs') by (rewrite Hm'; apply Z.div_pos; lia).
  assert (Hm1 : m1 ≤ b * 2 ^ (- e')).
  { rewrite Hsplit in Hle.
    assert (Hfloor : shr_m mrs' ≤ b * 2 ^ (- e')).
    { rewrite Hm'. apply Z.div_le_upper_bound; [lia|].
      destruct lx; simpl in Hle; lia. }
    destruct (inexact mrs') eqn:Hin; [|lia].
    assert (Hstrict : mx < b * 2 ^ (- e') * 2 ^ n).
    { destruct (Hin' eq_refl) as [Hmod|Hl]; [|lia].
      assert (mx ≠ b * 2 ^ (- e') * 2 ^ n); [|destruct lx; simpl in Hle; lia].
      intros Heq. apply Hmod. rewrite Heq. by rewrite Z.mod_mul by lia. }
    assert (shr_m mrs' < b * 2 ^ (- e')); [|lia].
    rewrite Hm'. apply Z.div_lt_upper_bound; lia. }
  assert (Hm10 : 0 ≤ m1) by lia.
  assert (He'0 : e' ≤ 0) by lia.
  pose proof (shr_fexp_spec m1 e' loc_Exact Hm10) as H2. cbv zeta in H2.
  destruct (shr_fexp prec emax m1 e' loc_Exact) as [mrs'' e''] eqn:Hshr2.
  cbn [fst snd] in H2.
  destruct (Hstep m1 e' Hm10 He'0 Hm1) as [Hk0 Hk1].
  set (k := Z.max 0 (fexp prec emax (Zdigits2 m1 + e') - e')) in *.
  destruct H2 as (He'' & Hm'' & _).
  assert (Hpk : 0 < 2 ^ k) by (apply Z.pow_pos_nonneg; lia).
  assert (Hpe'' : 0 < 2 ^ (- e'')) by (apply Z.pow_pos_nonneg; lia).
  assert (Hsplit2 : 2 ^ (- e') = 2 ^ (- e'') * 2 ^ k).
  { rewrite <- Z.pow_add_r by lia. f_equal. lia. }
  assert (Hfin0 : 0 ≤ shr_m mrs'') by (rewrite Hm''; apply Z.div_pos; lia).
  assert (Hfin : shr_m mrs'' ≤ b * 2 ^ (- e'')).
  { rewrite Hm''. apply Z.div_le_upper_bound; [lia|]. rewrite Hsplit2 in Hm1. lia. }
  destruct (shr_m mrs'') as [|m|m]; [by left| |lia].
  right. exists m, e''. split_and!; [|lia|done].
  replace (e'' <=? emax - prec) with true; [done|].
  symmetry. apply Z.leb_le. unfold emax, prec. lia.
Qed.

(** ** The three operations of the identity formula *)

Lemma new_location_exact (nb_steps k : Z) :
  loc_inexact (new_location nb_steps k) = 1 → k ≠ 0.
Proof.
  unfold new_location, new_location_even, new_location_odd.
  intros H ->. destruct (Z.even nb_steps); simpl in H; lia.
Qed.

(** [s / u] is at most [1.0] when [0 ≤ s ≤ u]. *)
Lemma rounded_quotient_bounded (s u : Z) :
  0 ≤ s ≤ u → 0 < u → bounded_by 1 (rounded_quotient s u).
Proof.
  intros Hs Hu. unfold rounded_quotient.
  destruct u as [|pu|pu]; [lia| |lia].
  destruct s as [|ps|ps]; [by left| |lia].
  simpl exact_int. unfold SFdiv, SFdiv_core_binary.
  set (e' := Z.min (fexp prec emax (Zdigits2 (Z.pos ps) + 0 - (Zdigits2 (Z.pos pu) + 0))) (0 - 0)).
  assert (He' : e' ≤ 0) by (unfold e'; lia).
  set (m' := match 0 - 0 - e' with
             | 0 => Z.pos ps
             | Z.pos _ => Z.shiftl (Z.pos ps) (0 - 0 - e')
             | Z.neg _ => 0
             end).
  assert (Hm' : m' = Z.pos ps * 2 ^ (- e')).
  { unfold m'. destruct (0 - 0 - e') as [|p|p] eqn:Hsh; [|rewrite Z.shiftl_mul_pow2 by lia|lia].
    - replace (- e') with 0 by lia. lia.
    - f_equal. f_equal. lia. }
  pose proof (Z_div_mod m' (Z.pos pu) ltac:(lia)) as Hdiv.
  destruct (Z.div_eucl m' (Z.pos pu)) as [q r]. destruct Hdiv as [Hqr Hr].
  assert (Hp : 0 < 2 ^ (- e')) by (apply Z.pow_pos_nonneg; lia).
  assert (Hq0 : 0 ≤ q) by nia.
  apply binary_round_aux_upper; [done|done|lia|].
  rewrite Z.mul_1_l.
  destruct (loc_inexact (new_location (Z.pos pu) r)) eqn:Hloc.
  - nia.
  - assert (p = 1%positive) as ->.
    { destruct (new_location (Z.pos pu) r); simpl in Hloc; congruence. }
    apply new_location_exact in Hloc. nia.
  - destruct (new_location (Z.pos pu) r); simpl in Hloc; congruence.
Qed.

Lemma pos_iter_xO (m d : positive) : Z.pos (Pos.iter xO m d) = Z.pos m * 2 ^ Z.pos d.
Proof.
  induction d as [|d IH] using Pos.peano_ind.
  - simpl. lia.
  - rewrite Pos.iter_succ, Pos2Z.inj_xO, IH, Pos2Z.inj_succ, Z.pow_succ_r by lia. lia.
Qed.

Lemma shl_align_spec (mx : positive) (ex ex' : Z) :
  snd (shl_align mx ex ex') ≤ ex
  ∧ Z.pos (fst (shl_align mx ex ex')) = Z.pos mx * 2 ^ (ex - snd (shl_align mx ex ex')).
Proof.
  unfold shl_align. destruct (ex' - ex) as [|d|d] eqn:Hd; cbn [fst snd].
  - rewrite Z.sub_diag. lia.
  - rewrite Z.sub_diag. lia.
  - rewrite pos_iter_xO. split; [lia|]. f_equal. f_equal. lia.
Qed.

Lemma shl_align_snd (mx : positive) (ex ex' : Z) :
  ex' ≤ ex → snd (shl_align mx ex ex') = ex'.
Proof. intros H. unfold shl_align. destruct (ex' - ex) eqn:?; cbn [snd]; lia. Qed.

Lemma binary_round_upper (m : positive) (e b : Z) :
  e ≤ 0 → 0 < b < 2 ^ 53 → Z.pos m ≤ b * 2 ^ (- e) →
  bounded_by b (binary_round prec emax false m e).
Proof.
  intros He Hb Hm. unfold binary_round.
  pose proof (shl_align_spec m e (fexp prec emax (Z.pos (digits2_pos m) + e))) as [Hez Hmz].
  destruct (shl_align m e (fexp prec emax (Z.pos (digits2_pos m) + e))) as [mz ez].
  cbn [fst snd] in Hez, Hmz.
  apply binary_round_aux_upper; [lia|lia|done|]. simpl loc_inexact.
  rewrite Hmz, Z.add_0_r.
  replace (- ez) with (- e + (e - ez)) by lia. rewrite Z.pow_add_r by lia.
  assert (0 < 2 ^ (e - ez)) by (apply Z.pow_pos_nonneg; lia). nia.
Qed.

(** [1 - f] stays within [0, 1] when [f] does. *)
Lemma one_minus_bounded (f : spec_float) :
  bounded_by 1 f → bounded_by 1 (SFsub prec emax (float_of_int 1) f).
Proof.
  change (float_of_int 1) with (S754_finite false 4503599627370496 (-52)).
  intros [->|(m & e & -> & He & Hm)].
  - right. exists 4503599627370496%positive, (-52). split_and!; [done|lia|by vm_compute].
  - unfold SFsub. set (ez := Z.min (-52) e).
    pose proof (shl_align_spec 4503599627370496 (-52) ez) as [H1e H1m].
    pose proof (shl_align_spec m e ez) as [H2e H2m].
    assert (Hs1 : snd (shl_align 4503599627370496 (-52) ez) = ez).
    { unfold shl_align. destruct (ez - -52) eqn:?; cbn [snd]; lia. }
    assert (Hs2 : snd (shl_align m e ez) = ez).
    { unfold shl_align. destruct (ez - e) eqn:?; cbn [snd]; lia. }
    rewrite Hs1 in H1m. rewrite Hs2 in H2m. unfold cond_Zopp. rewrite H1m, H2m.
    assert (Hone : 4503599627370496 * 2 ^ (-52 - ez) = 2 ^ (- ez)).
    { change 4503599627370496 with (2 ^ 52). rewrite <- Z.pow_add_r by lia. f_equal. lia. }
    rewrite Hone.
    assert (Hp : 0 < 2 ^ (e - ez)) by (apply Z.pow_pos_nonneg; lia).
    assert (Hsplit : 2 ^ (- ez) = 2 ^ (- e) * 2 ^ (e - ez)).
    { rewrite <- Z.pow_add_r by lia. f_equal. lia. }
    rewrite Z.mul_1_l in Hm.
    assert (Hd : 0 ≤ 2 ^ (- ez) - Z.pos m * 2 ^ (e - ez) ≤ 2 ^ (- ez)) by nia.
    destruct (2 ^ (- ez) - Z.pos m * 2 ^ (e - ez)) as [|d|d] eqn:Hdiff; [by left| |lia].
    simpl binary_normalize. apply binary_round_upper; lia.
Qed.

(** [100 * f] stays within [0, 100] when [f] is within [0, 1]. *)
Lemma hundred_times_bounded (f : spec_float) :
  bounded_by 1 f → bounded_by 100 (SFmul prec emax (float_of_int 100) f).
Proof.
  change (float_of_int 100) with (S754_finite false 7036874417766400 (-46)).
  intros [->|(m & e & -> & He & Hm)]; [by left|].
  unfold SFmul. simpl xorb. apply binary_round_aux_upper; [lia|lia|lia|].
  simpl loc_inexact. rewrite Pos2Z.inj_mul, Z.add_0_r.
  replace (- (-46 + e)) with (46 + - e) by lia. rewrite Z.pow_add_r by lia.
  change 7036874417766400 with (100 * 2 ^ 46). nia.
Qed.

Lemma bounded_by_value (b : Z) (f : spec_float) :
  0 < b → bounded_by b f →
  ∃ q, SF2Q f = Some q ∧ (0 <= q)%Q ∧ (q <= inject_Z b)%Q.
Proof.
  intros Hb [->|(m & e & -> & He & Hm)].
  - exists 0%Q. split_and!; [done|apply Qle_refl|]. 
    change 0%Q with (inject_Z 0). rewrite <- Zle_Qle. lia.
  - eexists. split; [done|]. rewrite Qmult_1_l.
    assert (Hpow : (2 ^ e == / inject_Z (2 ^ (- e)))%Q).
    { rewrite Zpower_Qpower by lia. rewrite Qpower_opp, Qinv_involutive. reflexivity. }
    assert (Hpos : (0 < inject_Z (2 ^ (- e)))%Q).
    { change 0%Q with (inject_Z 0). rewrite <- Zlt_Qlt. apply Z.pow_pos_nonneg; lia. }
    rewrite Hpow. split.
    + apply Qmult_le_0_compat.
      * change 0%Q with (inject_Z 0). rewrite <- Zle_Qle. lia.
      * apply Qlt_le_weak, Qinv_lt_0_compat, Hpos.
    + apply Qle_shift_div_r; [done|]. rewrite <- inject_Z_mult, <- Zle_Qle. done.
Qed.

(** The guard [usable_positions > 0] keeps the division from raising. *)
Lemma identity_of_spec (snp_count usable : Z) :
  identity_of snp_count usable = Ok (spec_identity snp_count usable).
Proof.
  unfold identity_of, spec_identity, int_truediv.
  destruct (0 <? usable) eqn:Hpos; [|done].
  apply Z.ltb_lt in Hpos. by rewrite (proj2 (Z.eqb_neq usable 0)) by lia.
Qed.

Lemma spec_identity_range (snp_count usable : Z) :
  0 ≤ snp_count ≤ usable →
  ∃ q, pynum_value (spec_identity snp_count usable) = Some q
       ∧ (0 <= q)%Q ∧ (q <= 100)%Q.
Proof.
  intros Hle. unfold spec_identity. destruct (0 <? usable) eqn:Hpos.
  - apply Z.ltb_lt in Hpos. simpl.
    apply (bounded_by_value 100); [lia|].
    by apply hundred_times_bounded, one_minus_bounded, rounded_quotient_bounded.
  - exists 0%Q. split_and!; done.
Qed.

(** ** Division of small integers *)

(** A mantissa of exactly [prec] digits with an exponent in range is
    already rounded. *)
Lemma binary_round_aux_canonical (m : positive) (e : Z) :
  Zpos (digits2_pos m) = 53 → -1074 ≤ e ≤ 971 →
  binary_round_aux prec emax false (Zpos m) e loc_Exact = S754_finite false m e.
Proof.
  intros Hd He. unfold binary_round_aux, shr_fexp. simpl Zdigits2. rewrite Hd, fexp_eq.
  replace (Z.max (53 + e - 53) (-1074) - e) with 0 by lia. simpl.
  rewrite Hd, fexp_eq. replace (Z.max (53 + e - 53) (-1074) - e) with 0 by lia. simpl.
  replace (e <=? emax - prec) with true; [done|].
  symmetry. apply Z.leb_le. unfold emax, prec. lia.
Qed.

(** The float of a positive integer below [2 ^ 53] is that integer, with
    its mantissa shifted up to 53 digits. *)
Lemma float_of_int_exact (p : positive) :
  Zpos p < 2 ^ 53 →
  ∃ m, float_of_int (Zpos p) = S754_finite false m (Zpos (digits2_pos p) - 53)
       ∧ Zpos m = Zpos p * 2 ^ (53 - Zpos (digits2_pos p))
       ∧ Zpos (digits2_pos m) = 53.
Proof.
  intros Hp. unfold float_of_int. simpl binary_normalize. unfold binary_round.
  pose proof (digits2_pos_lower p) as Hl.
  assert (Hd : Zpos (digits2_pos p) ≤ 53).
  { apply (Zdigits2_le (Zpos p) 53); lia. }
  rewrite Z.add_0_r, fexp_eq. replace (Z.max (Zpos (digits2_pos p) - 53) (-1074))
    with (Zpos (digits2_pos p) - 53) by lia.
  pose proof (shl_align_spec p 0 (Zpos (digits2_pos p) - 53)) as [_ Hm].
  pose proof (shl_align_snd p 0 (Zpos (digits2_pos p) - 53) ltac:(lia)) as Hs.
  destruct (shl_align p 0 (Zpos (digits2_pos p) - 53)) as [mz ez]. cbn [fst snd] in Hm, Hs.
  subst ez. replace (0 - (Zpos (digits2_pos p) - 53)) with (53 - Zpos (digits2_pos p)) in Hm by lia.
  assert (Hdz : Zpos (digits2_pos mz) = 53).
  { change (Zpos (digits2_pos mz)) with (Zdigits2 (Zpos mz)).
    rewrite Hm, Zdigits2_shift by lia. lia. }
  exists mz. split_and!; [|done|done].
  apply binary_round_aux_canonical; [done|lia].
Qed.

Lemma div_eucl_pair (x y : Z) : Z.div_eucl x y = (x / y, x mod y).
Proof. unfold Z.div, Z.modulo. by destruct (Z.div_eucl x y). Qed.

Lemma new_location_scale (n r c : Z) :
  0 < n → 0 ≤ r < n → c = 1 ∨ (0 < c ∧ Z.even c = true) →
  new_location (n * c) (r * c) = new_location n r.
Proof.
  intros Hn Hr [->|[Hc Hev]]; [by rewrite !Z.mul_1_r|].
  unfold new_location. rewrite Z.even_mul, Hev, orb_true_r.
  unfold new_location_even, new_location_odd.
  destruct (decide (r = 0)) as [->|Hr0].
  { simpl. by destruct (Z.even n). }
  rewrite (proj2 (Z.eqb_neq (r * c) 0)) by nia.
  rewrite Z.mul_assoc, <- Zmult_compare_compat_r by lia.
  change (IntDef.Z.even n) with (Z.even n).
  destruct (Z.even n) eqn:Hen; rewrite (proj2 (Z.eqb_neq r 0)) by done; [done|]. f_equal.
  assert (Hodd : Z.odd n = true) by by rewrite <- Z.negb_even, Hen.
  apply Z.odd_spec in Hodd as [t ->].
  destruct (Z.compare_spec (2 * r) (2 * t + 1)), (Z.compare_spec (2 * r + 1) (2 * t + 1));
    (done || lia).
Qed.

(** Below [2 ^ 53], where both operands convert to floats without
    rounding, the rounded quotient is the IEEE quotient of the two floats:
    the fast path of CPython's division. *)
Lemma rounded_quotient_small (a b : Z) :
  0 ≤ a < 2 ^ 53 → 0 < b < 2 ^ 53 →
  rounded_quotient a b = SFdiv prec emax (float_of_int a) (float_of_int b).
Proof.
  intros Ha Hb. destruct b as [|pb|pb]; [lia| |lia].
  destruct (float_of_int_exact pb) as (mb & Hfb & Hmb & Hdb); [lia|].
  rewrite Hfb. destruct a as [|pa|pa]; [done| |lia].
  destruct (float_of_int_exact pa) as (ma & Hfa & Hma & Hda); [lia|].
  rewrite Hfa. unfold rounded_quotient, exact_int, SFdiv.
  assert (Hcore : SFdiv_core_binary prec emax (Zpos pa) 0 (Zpos pb) 0
                  = SFdiv_core_binary prec emax (Zpos ma) (Zpos (digits2_pos pa) - 53)
                      (Zpos mb) (Zpos (digits2_pos pb) - 53)); [|by rewrite Hcore].
  unfold SFdiv_core_binary. simpl Zdigits2. rewrite Hda, Hdb, !fexp_eq.
  set (da := Zpos (digits2_pos pa)) in *. set (db := Zpos (digits2_pos pb)) in *.
  assert (Hda1 : 1 ≤ da ≤ 53).
  { split; [unfold da; lia|]. apply (Zdigits2_le (Zpos pa) 53); lia. }
  assert (Hdb1 : 1 ≤ db ≤ 53).
  { split; [unfold db; lia|]. apply (Zdigits2_le (Zpos pb) 53); lia. }
  replace (Z.min (Z.max (da + 0 - (db + 0) - 53) (-1074)) (0 - 0)) with (da - db - 53) by lia.
  replace (Z.min (Z.max (53 + (da - 53) - (53 + (db - 53)) - 53) (-1074))
             (da - 53 - (db - 53))) with (da - db - 53) by lia.
  replace (da - 53 - (db - 53) - (da - db - 53)) with 53 by lia.
  replace (0 - 0 - (da - db - 53)) with (53 - da + db) by lia.
  destruct (53 - da + db) as [|sl|sl] eqn:Hsl; [lia| |lia]. rewrite <- Hsl.
  rewrite !Z.shiftl_mul_pow2 by lia.
  assert (Hscale : Zpos ma * 2 ^ 53 = Zpos pa * 2 ^ (53 - da + db) * 2 ^ (53 - db)).
  { rewrite Hma, <- !Z.mul_assoc, <- !Z.pow_add_r by lia. do 2 f_equal. lia. }
  rewrite Hscale, Hmb, !div_eucl_pair.
  assert (Hc : 0 < 2 ^ (53 - db)) by (apply Z.pow_pos_nonneg; lia).
  rewrite Z.div_mul_cancel_r, Z.mul_mod_distr_r by lia.
  rewrite new_location_scale; [done|lia|apply Z.mod_pos_bound; lia|].
  destruct (decide (db = 53)) as [->|Hne]; [by left|]. right. split; [done|].
  replace (53 - db) with (Z.succ (52 - db)) by lia.
  rewrite Z.pow_succ_r by lia. by rewrite Z.even_mul.
Qed.

(** The formula is evaluated in binary64 arithmetic, so its value is the
    exact percentage only up to rounding: for 1 mismatch in 3 usable
    columns it is [66.66666666666667], not [200/3]. *)
Example spec_identity_is_rounded :
  spec_identity 1 3 = PyFloat (S754_finite false 4691249611844267 (-46))
  ∧ ∃ q, pynum_value (spec_identity 1 3) = Some q
         ∧ (100 * (1 - (1 # 3)) < q)%Q
         ∧ (q < 100 * (1 - (1 # 3)) + (1 # 100000000000000))%Q.
Proof.
  split; [by vm_compute|]. eexists. split; [by vm_compute|]. split; by vm_compute.
Qed.

(** * The double loop *)

Section double_loop.
Context (sequences : alignment) (L : nat).
Hypothesis Hrect : rectangular sequences L.

Lemma rectangular_lookup (i : nat) (name : string) (s : sequence) :
  sequences !! i = Some (name, s) → length s = L.
Proof.
  intros Hi. pose proof Hrect as Hall. unfold rectangular in Hall.
  rewrite Forall_lookup in Hall. apply (Hall i). by apply (lookup_values sequences i name s).
Qed.

(** Rectangularity alone is enough for the function to return. *)
Lemma calculate_pairwise_distances_ok :
  ∃ out, calculate_pairwise_distances sequences = Ok out.
Proof.
  unfold calculate_pairwise_distances. rewrite for_each_nested.
  fold (index_pairs (length (keys sequences))).
  destruct (for_each_inv
    (λ (_ : list (nat * nat)) (st : list pair_record * gmap string (gmap string Z)),
       ∀ a, a ∈ keys sequences → is_Some (st.2 !! a))
    (index_pairs (length (keys sequences)))
    (λ st ij, pair_step sequences (keys sequences) ij.1 st ij.2)
    ([], init_matrix (keys sequences))) as ([pd dm] & Hrun & _).
  - intros a Ha. cbn [snd]. rewrite init_matrix_lookup, decide_True by done. eauto.
  - intros visited [i j] rest [pd dm] Hsplit Hrows. cbn [fst snd] in *.
    assert (Hin : (i, j) ∈ index_pairs (length (keys sequences))).
    { rewrite Hsplit. apply elem_of_app. right. apply list_elem_of_here. }
    apply elem_of_index_pairs in Hin.
    destruct (index_lt (keys sequences) i) as (n1 & Hk1 & Hi1); [lia|].
    destruct (index_lt (keys sequences) j) as (n2 & Hk2 & Hi2); [lia|].
    apply list_elem_of_lookup_2 in Hk1, Hk2.
    destruct (getitem_elem_of sequences n1 Hk1) as (s1 & Hg1 & Hs1).
    destruct (getitem_elem_of sequences n2 Hk2) as (s2 & Hg2 & Hs2).
    pose proof Hrect as Hall. unfold rectangular in Hall. rewrite Forall_forall in Hall.
    pose proof (Hall s1 Hs1) as Hlen1. pose proof (Hall s2 Hs2) as Hlen2.
    simpl in Hlen1, Hlen2.
    destruct (matrix_set_spec dm n1 n2 (spec_snp_count s1 s2) (Hrows n1 Hk1))
      as (dm1 & Hset1 & Hrows1 & _).
    destruct (matrix_set_spec dm1 n2 n1 (spec_snp_count s1 s2))
      as (dm2 & Hset2 & Hrows2 & _).
    { apply Hrows1, Hrows, Hk2. }
    eexists. split.
    + unfold pair_step. rewrite Hi1, bind_Ok, Hi2, bind_Ok, Hg1, bind_Ok, Hg2, bind_Ok.
      rewrite count_pair_spec, bind_Ok by lia.
      rewrite identity_of_spec, bind_Ok.
      rewrite Hset1, bind_Ok, Hset2, bind_Ok. done.
    + intros a Ha. cbn [snd]. apply Hrows2, Hrows1, Hrows, Ha.
  - eexists. by rewrite Hrun, bind_Ok.
Qed.

Section unique_keys.
Hypothesis Hnd : NoDup (keys sequences).

Lemma key_index_inj (i j : nat) (name : string) (s s' : sequence) :
  sequences !! i = Some (name, s) → sequences !! j = Some (name, s') → i = j.
Proof.
  intros Hi Hj. apply (NoDup_lookup (keys sequences) i j name Hnd).
  - by apply (lookup_keys sequences i name s).
  - by apply (lookup_keys sequences j name s').
Qed.

Lemma pair_step_spec (i j : nat) (visited : nat → nat → Prop)
    (n1 n2 : string) (s1 s2 : sequence)
    (pd : list pair_record) (dm : gmap string (gmap string Z)) :
  (i < j)%nat → ¬ visited i j → (∀ i' j', visited i' j' → (i' < j')%nat) →
  sequences !! i = Some (n1, s1) → sequences !! j = Some (n2, s2) →
  matrix_inv sequences visited dm →
  ∃ dm', pair_step sequences (keys sequences) i (pd, dm) j
           = Ok (pd ++ [spec_record (n1, s1) (n2, s2)], dm')
    ∧ matrix_inv sequences (λ i' j', visited i' j' ∨ (i' = i ∧ j' = j)) dm'.
Proof.
  intros Hij Hnew Hord Hi Hj [Hrows Hent].
  assert (Hlen1 : length s1 = L) by by apply (rectangular_lookup i n1).
  assert (Hlen2 : length s2 = L) by by apply (rectangular_lookup j n2).
  assert (Hk1 : keys sequences !! i = Some n1) by by apply (lookup_keys _ _ _ s1).
  assert (Hk2 : keys sequences !! j = Some n2) by by apply (lookup_keys _ _ _ s2).
  assert (Hne : n1 ≠ n2).
  { intros ->. assert (i = j) by by apply (key_index_inj i j n2 s1 s2). lia. }
  destruct (matrix_set_spec dm n1 n2 (spec_snp_count s1 s2)) as (dm1 & Hset1 & Hrows1 & Hent1).
  { apply Hrows. apply list_elem_of_lookup. eauto. }
  destruct (matrix_set_spec dm1 n2 n1 (spec_snp_count s1 s2)) as (dm2 & Hset2 & Hrows2 & Hent2).
  { apply Hrows1, Hrows. apply list_elem_of_lookup. eauto. }
  exists dm2. split.
  - unfold pair_step, index. rewrite Hk1, Hk2, !bind_Ok.
    rewrite (getitem_lookup sequences i n1 s1 Hnd Hi), bind_Ok.
    rewrite (getitem_lookup sequences j n2 s2 Hnd Hj), bind_Ok.
    rewrite count_pair_spec, bind_Ok by lia.
    rewrite identity_of_spec, bind_Ok.
    rewrite Hset1, bind_Ok, Hset2, bind_Ok. done.
  - split.
    + intros a. by rewrite Hrows2, Hrows1.
    + intros a b v. rewrite Hent2, Hent1. split.
      * intros Hv.
        destruct (decide (a = n2 ∧ b = n1)) as [[-> ->]|_];
          [|destruct (decide (a = n1 ∧ b = n2)) as [[-> ->]|_]].
        -- injection Hv as <-. exists i, j, n1, s1, n2, s2. tauto.
        -- injection Hv as <-. exists i, j, n1, s1, n2, s2. tauto.
        -- apply Hent in Hv as (i' & j' & nA & sA & nB & sB & ? & ? & ? & ? & ?).
           exists i', j', nA, sA, nB, sB. tauto.
      * intros (i' & j' & nA & sA & nB & sB & Hvis & Hi' & Hj' & -> & Hab).
        destruct Hvis as [Hvis|[-> ->]].
        -- assert (Hold : entry dm a b = Some (spec_snp_count sA sB)).
           { apply Hent. exists i', j', nA, sA, nB, sB. tauto. }
           assert (Hlt : (i' < j')%nat) by by apply Hord.
           rewrite !decide_False; [done| |].
           ++ intros [-> ->]. destruct Hab as [[-> ->]|[-> ->]].
              ** assert (i' = i) by by apply (key_index_inj i' i nA sA s1).
                 assert (j' = j) by by apply (key_index_inj j' j nB sB s2).
                 subst. done.
              ** assert (j' = i) by by apply (key_index_inj j' i nB sB s1).
                 assert (i' = j) by by apply (key_index_inj i' j nA sA s2).
                 lia.
           ++ intros [-> ->]. destruct Hab as [[-> ->]|[-> ->]].
              ** assert (i' = j) by by apply (key_index_inj i' j nA sA s2).
                 assert (j' = i) by by apply (key_index_inj j' i nB sB s1).
                 lia.
              ** assert (j' = j) by by apply (key_index_inj j' j nB sB s2).
                 assert (i' = i) by by apply (key_index_inj i' i nA sA s1).
                 subst. done.
        -- rewrite Hi in Hi'. rewrite Hj in Hj'.
           injection Hi' as <- <-. injection Hj' as <- <-.
           destruct Hab as [[-> ->]|[-> ->]].
           ++ rewrite decide_False by (intros [? ?]; done).
              by rewrite decide_True.
           ++ by rewrite decide_True.
Qed.

(** What [calculate_pairwise_distances] returns on a rectangular alignment:
    the specification's record for every unordered pair, in the order of
    [all_pairs]; a matrix with both directions of every pair; the
    identifiers. *)
Lemma calculate_pairwise_distances_spec :
  ∃ dm, calculate_pairwise_distances sequences
          = Ok ((λ ab, spec_record ab.1 ab.2) <$> all_pairs sequences, dm,
                keys sequences)
    ∧ matrix_inv sequences (λ i j, (i < j)%nat) dm.
Proof.
  unfold calculate_pairwise_distances.
  rewrite for_each_nested. fold (index_pairs (length (keys sequences))).
  assert (Hn : length (keys sequences) = length sequences) by apply length_fmap.
  rewrite Hn.
  set (R := λ (ij : nat * nat) (r : pair_record),
         ∃ a b, sequences !! ij.1 = Some a ∧ sequences !! ij.2 = Some b
                ∧ r = spec_record a b).
  destruct (for_each_inv
    (λ visited (st : list pair_record * gmap string (gmap string Z)),
       Forall2 R visited st.1
       ∧ matrix_inv sequences (λ i j, (i, j) ∈ visited) st.2)
    (index_pairs (length sequences))
    (λ st ij, pair_step sequences (keys sequences) ij.1 st ij.2)
    ([], init_matrix (keys sequences))) as ([pd dm] & Hrun & Hpd & Hdm).
  - cbn [fst snd]. split; [constructor|]. split.
    + intros a. rewrite init_matrix_lookup. destruct (decide _); [|split; [by intros [??]|done]].
      split; eauto.
    + intros a b v. rewrite init_matrix_entry. split; [done|].
      intros (i & j & ? & ? & ? & ? & Hin & _). by apply elem_of_nil in Hin.
  - intros visited [i j] rest [pd dm] Hsplit [Hpd Hdm]. simpl in Hpd, Hdm.
    assert (Hin : (i, j) ∈ index_pairs (length sequences)).
    { rewrite Hsplit. apply elem_of_app. right. apply list_elem_of_here. }
    apply elem_of_index_pairs in Hin.
    assert (Hnd' : NoDup (visited ++ (i, j) :: rest)).
    { rewrite <- Hsplit. apply NoDup_index_pairs. }
    apply NoDup_app in Hnd' as (_ & Hfresh & _).
    destruct (lookup_lt_is_Some_2 sequences i) as [[n1 s1] Hi]; [lia|].
    destruct (lookup_lt_is_Some_2 sequences j) as [[n2 s2] Hj]; [lia|].
    destruct (pair_step_spec i j (λ i' j', (i', j') ∈ visited)
                n1 n2 s1 s2 pd dm) as (dm' & Hstep & Hdm'); try done.
    + lia.
    + intros Hvis. apply (Hfresh _ Hvis). apply list_elem_of_here.
    + intros i' j' Hvis.
      assert (Hin' : (i', j') ∈ index_pairs (length sequences)).
      { rewrite Hsplit. apply elem_of_app. by left. }
      apply elem_of_index_pairs in Hin'. lia.
    + exists (pd ++ [spec_record (n1, s1) (n2, s2)], dm'). split; [done|]. split.
      * simpl. apply Forall2_app; [done|]. constructor; [|constructor].
        exists (n1, s1), (n2, s2). done.
      * simpl. destruct Hdm' as [Hrows Hent]. split; [done|].
        intros a b v. rewrite Hent. split.
        -- intros (i' & j' & nA & sA & nB & sB & Hvis & Hrest).
           exists i', j', nA, sA, nB, sB. split; [|done].
           apply elem_of_app. destruct Hvis as [?|[-> ->]]; [by left|].
           right. apply list_elem_of_here.
        -- intros (i' & j' & nA & sA & nB & sB & Hvis & Hrest).
           exists i', j', nA, sA, nB, sB. split; [|done].
           apply elem_of_app in Hvis as [?|Hvis]; [by left|].
           apply list_elem_of_singleton in Hvis as [= -> ->]. by right.
  - simpl in Hpd, Hdm. exists dm. rewrite Hrun, bind_Ok. split.
    + do 3 f_equal.
      apply (Forall2_fmap_eq R
               (λ ij ab, sequences !! ij.1 = Some ab.1 ∧ sequences !! ij.2 = Some ab.2)
               (λ ab, spec_record ab.1 ab.2) (index_pairs (length sequences))); [|done|].
      * intros ij r [a b] (a' & b' & Ha & Hb & ->) [Ha' Hb']. simpl in *. congruence.
      * by apply index_pairs_all_pairs.
    + destruct Hdm as [Hrows Hent]. split; [done|].
      intros a b v. rewrite Hent. split.
      * intros (i & j & nA & sA & nB & sB & Hvis & Hrest).
        exists i, j, nA, sA, nB, sB. split; [|done].
        apply elem_of_index_pairs in Hvis. lia.
      * intros (i & j & nA & sA & nB & sB & Hlt & Hi & Hj & Hrest).
        exists i, j, nA, sA, nB, sB. split; [|done].
        apply elem_of_index_pairs. split; [done|].
        by apply lookup_lt_Some in Hj.
Qed.

End unique_keys.
End double_loop.

(** Every record of the result is the specification's record of a pair of
    entries of the alignment, the earlier entry first. *)
Lemma elem_of_spec_records (sequences : alignment) (r : pair_record) :
  r ∈ (λ ab, spec_record ab.1 ab.2) <$> all_pairs sequences ↔
  ∃ i j a b, (i < j)%nat ∧ sequences !! i = Some a ∧ sequences !! j = Some b
             ∧ r = spec_record a b.
Proof.
  rewrite list_elem_of_fmap. split.
  - intros ([a b] & -> & Hin). apply elem_of_all_pairs in Hin as (i & j & ? & ? & ?).
    exists i, j, a, b. done.
  - intros (i & j & a & b & Hlt & Hi & Hj & ->). exists (a, b). split; [done|].
    apply elem_of_all_pairs. eauto.
Qed.

(** * The position classifier *)

Lemma size_gt_1 (X : gset ascii) :
  (1 < size X)%nat ↔ ∃ b b', b ∈ X ∧ b' ∈ X ∧ b ≠ b'.
Proof.
  split.
  - intros Hsize. destruct (size_pos_elem_of X) as [b Hb]; [lia|].
    destruct (size_pos_elem_of (X ∖ {[b]})) as [b' Hb'].
    { rewrite size_difference by by apply singleton_subseteq_l.
      rewrite size_singleton. lia. }
    apply elem_of_difference in Hb' as [Hb' Hne].
    rewrite elem_of_singleton in Hne. exists b, b'. split_and!; [done..|congruence].
  - intros (b & b' & Hb & Hb' & Hne).
    assert (Hsub : ({[b]} ∪ {[b']} : gset ascii) ⊆ X).
    { apply union_subseteq. split; by apply singleton_subseteq_l. }
    apply subseteq_size in Hsub. rewrite size_union in Hsub.
    + rewrite !size_singleton in Hsub. lia.
    + apply disjoint_singleton_l. by rewrite elem_of_singleton.
Qed.

Lemma bases_at_spec (seq_list : list sequence) (L pos : nat) :
  Forall (λ s : sequence, length s = L) seq_list → (pos < L)%nat →
  ∃ bases, bases_at seq_list pos = Ok bases
    ∧ ∀ b, b ∈ bases ↔ ∃ s c, s ∈ seq_list ∧ s !! pos = Some c ∧ b = upper c.
Proof.
  intros Hrect Hpos. induction Hrect as [|s rest Hs _ IH]; simpl.
  - exists []. split; [done|]. intros b. split; [by intros ?%elem_of_nil|].
    by intros (? & ? & ?%elem_of_nil & _).
  - destruct IH as (bs & -> & Hbs).
    destruct (index_lt s pos) as (c & Hc & ->); [lia|].
    rewrite !bind_Ok. eexists. split; [done|].
    intros b. rewrite elem_of_cons, Hbs. split.
    + intros [->|(s' & c' & Hin & Hc' & ->)].
      * exists s, c. split; [apply list_elem_of_here | done].
      * exists s', c'. split; [by apply list_elem_of_further | done].
    + intros (s' & c' & Hin & Hc' & ->). apply elem_of_cons in Hin as [->|Hin].
      * left. congruence.
      * right. eauto.
Qed.

(** One pass of the column loop puts the position in at most one list, by
    the priority gap, then ambiguity, then variation. *)
Lemma classify_step_spec (seq_list : list sequence) (L pos : nat)
    (st : classification) :
  Forall (λ s : sequence, length s = L) seq_list → (pos < L)%nat →
  ∃ st', classify_step seq_list st pos = Ok st' ∧
    ((column_has_gap seq_list pos
      ∧ st' = mk_classification (differences st) (gap_positions st ++ [pos])
                (ambiguous_positions st))
     ∨ (¬ column_has_gap seq_list pos ∧ column_has_ambiguity seq_list pos
        ∧ st' = mk_classification (differences st) (gap_positions st)
                  (ambiguous_positions st ++ [pos]))
     ∨ (¬ column_has_gap seq_list pos ∧ ¬ column_has_ambiguity seq_list pos
        ∧ column_varies seq_list pos
        ∧ st' = mk_classification (differences st ++ [pos]) (gap_positions st)
                  (ambiguous_positions st))
     ∨ (¬ column_has_gap seq_list pos ∧ ¬ column_has_ambiguity seq_list pos
        ∧ ¬ column_varies seq_list pos ∧ st' = st)).
Proof.
  intros Hrect Hpos.
  destruct (bases_at_spec seq_list L pos Hrect Hpos) as (bases & Hbases & Hmem).
  unfold classify_step. rewrite Hbases, bind_Ok. cbv zeta.
  assert (Hgap : gap_char ∈ (list_to_set bases : gset ascii)
                 ↔ column_has_gap seq_list pos).
  { rewrite elem_of_list_to_set, Hmem. unfold column_has_gap. split.
    - intros (s & c & Hin & Hc & Hup). symmetry in Hup. apply upper_gap in Hup as ->.
      eauto.
    - intros (s & Hin & Hc). exists s, gap_char. done. }
  assert (Hamb : (list_to_set bases : gset ascii) ∩ ambiguity_codes ≠ ∅
                 ↔ column_has_ambiguity seq_list pos).
  { unfold column_has_ambiguity. split.
    - intros Hne. apply set_choose_L in Hne as [b Hb].
      apply elem_of_intersection in Hb as [Hb Hcode].
      apply elem_of_list_to_set, Hmem in Hb as (s & c & Hin & Hc & ->). eauto.
    - intros (s & c & Hin & Hc & Hcode).
      assert (Hup : upper c ∈ (list_to_set bases : gset ascii) ∩ ambiguity_codes).
      { apply elem_of_intersection. split; [|done].
        apply elem_of_list_to_set, Hmem. eauto. }
      intros Hempty. rewrite Hempty in Hup. by apply elem_of_empty in Hup. }
  assert (Hvar : (1 < size (list_to_set bases : gset ascii))%nat
                 ↔ column_varies seq_list pos).
  { rewrite size_gt_1. unfold column_varies. split.
    - intros (b & b' & Hb & Hb' & Hne).
      apply elem_of_list_to_set, Hmem in Hb as (s & c & Hin & Hc & ->).
      apply elem_of_list_to_set, Hmem in Hb' as (s' & c' & Hin' & Hc' & ->).
      exists s, s', c, c'. done.
    - intros (s & s' & c & c' & Hin & Hin' & Hc & Hc' & Hne).
      exists (upper c), (upper c'). rewrite !elem_of_list_to_set, !Hmem.
      split_and!; eauto. }
  destruct (decide (gap_char ∈ (list_to_set bases : gset ascii))) as [Hg|Hg].
  { rewrite bool_decide_eq_true_2 by done. eexists. split; [done|]. left. tauto. }
  rewrite bool_decide_eq_false_2 by done.
  destruct (decide ((list_to_set bases : gset ascii) ∩ ambiguity_codes = ∅)) as [Ha|Ha].
  2:{ rewrite (bool_decide_eq_false_2 _ Ha). simpl. eexists. split; [done|].
      right. left. tauto. }
  rewrite (bool_decide_eq_true_2 _ Ha). simpl.
  destruct (decide (1 < size (list_to_set bases : gset ascii))%nat) as [Hv|Hv].
  { rewrite bool_decide_eq_true_2 by done. eexists. split; [done|].
    right. right. left. split_and!; [tauto| |tauto|done]. intros ?%Hamb. done. }
  rewrite bool_decide_eq_false_2 by done. eexists. split; [done|].
  right. right. right. split_and!; [tauto| |tauto|done]. intros ?%Hamb. done.
Qed.

Lemma sublist_snoc_both {A : Type} (l k : list A) (x : A) :
  l `sublist_of` k → (l ++ [x]) `sublist_of` (k ++ [x]).
Proof. intros H. apply sublist_app; [done|]. by apply sublist_skip. Qed.

Lemma sublist_snoc_r {A : Type} (l k : list A) (x : A) :
  l `sublist_of` k → l `sublist_of` (k ++ [x]).
Proof. intros H. by apply sublist_inserts_r. Qed.

Lemma classified_nil (seq_list : list sequence) :
  classified seq_list [] (mk_classification [] [] []).
Proof.
  unfold classified. simpl.
  split_and!; try done; intros p;
    (split; [by intros ?%elem_of_nil | by intros [?%elem_of_nil _]]).
Qed.

Lemma find_differences_spec (sequences : alignment) (L : nat) :
  rectangular sequences L →
  ∃ cls, find_differences sequences = Ok cls
    ∧ classified (values sequences) (seq 0 (if values sequences is [] then 0 else L)) cls.
Proof.
  intros Hrect. unfold find_differences.
  destruct sequences as [|[name first] others] eqn:Hseqs.
  { eexists. split; [done|]. apply classified_nil. }
  rewrite bool_decide_eq_false_2 by done. rewrite <- Hseqs in *.
  assert (Hvals : values sequences = first :: values others) by by rewrite Hseqs.
  assert (Hfirst : length first = L).
  { unfold rectangular in Hrect. rewrite Hvals in Hrect. by apply Forall_cons in Hrect as [? _]. }
  assert (Hidx : index (values sequences) 0 = Ok first) by by rewrite Hvals.
  destruct (for_each_inv (classified (values sequences)) (seq 0 L)
              (classify_step (values sequences)) (mk_classification [] [] []))
    as (cls & Hrun & Hcls).
  - apply classified_nil.
  - intros visited x rest st Hsplit (Hg & Ha & Hd & Sg & Sa & Sd).
    apply seq_0_split in Hsplit as (_ & _ & Hx).
    destruct (classify_step_spec (values sequences) L x st Hrect Hx)
      as (st' & Hstep & Hcases).
    exists st'. split; [done|].
    destruct Hcases as [(Cg & ->)|[(Cg & Ca & ->)|[(Cg & Ca & Cv & ->)|(Cg & Ca & Cv & ->)]]];
      unfold classified; simpl;
      (split_and!;
         [ intros p; rewrite ?elem_of_app, ?list_elem_of_singleton, ?Hg, ?Ha, ?Hd; naive_solver
         | intros p; rewrite ?elem_of_app, ?list_elem_of_singleton, ?Hg, ?Ha, ?Hd; naive_solver
         | intros p; rewrite ?elem_of_app, ?list_elem_of_singleton, ?Hg, ?Ha, ?Hd; naive_solver
         | first [by apply sublist_snoc_both | by apply sublist_snoc_r]
         | first [by apply sublist_snoc_both | by apply sublist_snoc_r]
         | first [by apply sublist_snoc_both | by apply sublist_snoc_r] ]).
  - exists cls. split.
    + by rewrite Hidx, bind_Ok, Hfirst, range_0.
    + by replace (if values sequences is [] then 0 else L)%nat with L by by rewrite Hvals.
Qed.

(** * The claims *)

Lemma example_alignment_NoDup : NoDup (keys example_alignment).
Proof. apply (bool_decide_unpack _). by vm_compute. Qed.

Lemma example_alignment_rectangular : rectangular example_alignment 6.
Proof. unfold rectangular. simpl. by repeat constructor. Qed.

(** C1. On a rectangular alignment, the record that
    [calculate_pairwise_distances] emits for the pair of sequences at
    positions [i < j] holds as [usable_positions] the number of columns
    where, after uppercasing, neither base is [-] nor an ambiguity code, and
    as [snps] the number of those columns where the two uppercased bases
    differ; both counts are the same whichever sequence of the pair is named
    first, and no other record carries the two identifiers. *)
Theorem C1_pairwise_counts (sequences : alignment) (L i j : nat)
    (nA nB : string) (sA sB : sequence) :
  NoDup (keys sequences) → rectangular sequences L →
  (i < j)%nat → sequences !! i = Some (nA, sA) → sequences !! j = Some (nB, sB) →
  ∃ pds dm names r,
    calculate_pairwise_distances sequences = Ok (pds, dm, names)
    ∧ r ∈ pds ∧ seq1 r = nA ∧ seq2 r = nB
    ∧ usable_positions r = spec_usable_positions sA sB
    ∧ snps r = spec_snp_count sA sB
    ∧ spec_usable_positions sA sB = spec_usable_positions sB sA
    ∧ spec_snp_count sA sB = spec_snp_count sB sA
    ∧ ∀ r', r' ∈ pds → seq1 r' = nA → seq2 r' = nB → r' = r.
Proof.
  intros Hnd Hrect Hlt Hi Hj.
  destruct (calculate_pairwise_distances_spec sequences L Hrect Hnd) as (dm & Hrun & _).
  assert (HlenA : length sA = L) by by apply (rectangular_lookup sequences L Hrect i nA).
  assert (HlenB : length sB = L) by by apply (rectangular_lookup sequences L Hrect j nB).
  eexists _, dm, _, (spec_record (nA, sA) (nB, sB)). split; [exact Hrun|].
  split_and!; try done.
  - apply elem_of_spec_records. exists i, j, (nA, sA), (nB, sB). done.
  - apply spec_usable_positions_sym. congruence.
  - apply spec_snp_count_sym. congruence.
  - intros r' Hin H1 H2.
    apply elem_of_spec_records in Hin as (i' & j' & [nA' sA'] & [nB' sB'] & _ & Hi' & Hj' & ->).
    simpl in H1, H2. subst nA' nB'.
    assert (i' = i) by by apply (key_index_inj sequences Hnd i' i nA sA' sA).
    assert (j' = j) by by apply (key_index_inj sequences Hnd j' j nB sB' sB).
    subst. congruence.
Qed.

Lemma C1_pairwise_counts_witness :
  ∃ pds dm names r,
    calculate_pairwise_distances example_alignment = Ok (pds, dm, names)
    ∧ r ∈ pds ∧ seq1 r = "s1"%string ∧ seq2 r = "s2"%string
    ∧ usable_positions r = 4 ∧ snps r = 1.
Proof.
  destruct (C1_pairwise_counts example_alignment 6 0 1 "s1" "s2"
              (list_ascii_of_string "ACGT-N") (list_ascii_of_string "ACTTAN"))
    as (pds & dm & names & r & Hrun & Hin & H1 & H2 & Hu & Hs & _).
  - exact example_alignment_NoDup.
  - exact example_alignment_rectangular.
  - lia.
  - reflexivity.
  - reflexivity.
  - exists pds, dm, names, r. split_and!; by rewrite ?Hu, ?Hs.
Defined.

(** C2. On a non-empty rectangular alignment of length [L] and for every
    column [p < L], the classifier records [p] as a gap position iff some
    sequence has [-] at [p]; otherwise as an ambiguous position iff some
    uppercased base at [p] is an ambiguity code; otherwise as a variant
    position iff two uppercased bases at [p] differ; otherwise in no list. *)
Theorem C2_position_classifier (sequences : alignment) (L p : nat) :
  rectangular sequences L → sequences ≠ [] → (p < L)%nat →
  ∃ cls, find_differences sequences = Ok cls
    ∧ (p ∈ gap_positions cls ↔ column_has_gap (values sequences) p)
    ∧ (p ∈ ambiguous_positions cls ↔
         ¬ column_has_gap (values sequences) p
         ∧ column_has_ambiguity (values sequences) p)
    ∧ (p ∈ differences cls ↔
         ¬ column_has_gap (values sequences) p
         ∧ ¬ column_has_ambiguity (values sequences) p
         ∧ column_varies (values sequences) p)
    ∧ (¬ column_has_gap (values sequences) p
       → ¬ column_has_ambiguity (values sequences) p
       → ¬ column_varies (values sequences) p
       → (p ∉ gap_positions cls) ∧ (p ∉ ambiguous_positions cls)
         ∧ (p ∉ differences cls)).
Proof.
  intros Hrect Hne Hp.
  destruct (find_differences_spec sequences L Hrect) as (cls & Hrun & Hg & Ha & Hd & _).
  assert (Hvis : p ∈ seq 0 (if values sequences is [] then 0 else L)).
  { destruct sequences as [|entry rest]; [done|]. simpl. apply elem_of_seq. lia. }
  exists cls. split; [done|].
  rewrite Hg, Ha, Hd. tauto.
Qed.

Lemma C2_position_classifier_witness :
  ∃ cls, find_differences example_alignment = Ok cls
    ∧ (4%nat ∈ gap_positions cls
       ↔ column_has_gap (values example_alignment) 4).
Proof.
  destruct (C2_position_classifier example_alignment 6 4) as (cls & Hrun & Hg & _).
  - exact example_alignment_rectangular.
  - discriminate.
  - lia.
  - exists cls. done.
Defined.

(** C3. In every record emitted on a rectangular alignment, [identity] is
    the binary64 value of [100 * (1 - snps / usable_positions)] when
    [usable_positions > 0] and the integer 0 when [usable_positions = 0];
    in both cases it is a number (no infinity, no NaN) between 0 and 100. *)
Theorem C3_identity_percent (sequences : alignment) (L : nat) :
  NoDup (keys sequences) → rectangular sequences L →
  ∃ pds dm names,
    calculate_pairwise_distances sequences = Ok (pds, dm, names)
    ∧ ∀ r, r ∈ pds →
        (0 < usable_positions r →
           identity r
           = PyFloat (SFmul prec emax (float_of_int 100)
                        (SFsub prec emax (float_of_int 1)
                           (rounded_quotient (snps r) (usable_positions r)))))
        ∧ (usable_positions r = 0 → identity r = PyInt 0)
        ∧ ∃ q, pynum_value (identity r) = Some q ∧ (0 <= q)%Q ∧ (q <= 100)%Q.
Proof.
  intros Hnd Hrect.
  destruct (calculate_pairwise_distances_spec sequences L Hrect Hnd) as (dm & Hrun & _).
  eexists _, dm, _. split; [exact Hrun|].
  intros r (i & j & [nA sA] & [nB sB] & _ & Hi & Hj & ->)%elem_of_spec_records.
  simpl. split_and!.
  - intros Hpos. unfold spec_identity.
    by rewrite (proj2 (Z.ltb_lt _ _) Hpos).
  - intros Hzero. unfold spec_identity. by rewrite Hzero.
  - apply spec_identity_range. unfold spec_usable_positions, spec_snp_count.
    pose proof (count_columns_bounds (spec_snp_column sA sB) (length sA)).
    pose proof (count_columns_mono (spec_snp_column sA sB) (spec_usable_column sA sB)
                  (length sA) (λ p _, spec_snp_column_usable sA sB p)).
    lia.
Qed.

Lemma C3_identity_percent_witness :
  ∃ pds dm names,
    calculate_pairwise_distances example_alignment = Ok (pds, dm, names)
    ∧ ∀ r, r ∈ pds →
        ∃ q, pynum_value (identity r) = Some q ∧ (0 <= q)%Q ∧ (q <= 100)%Q.
Proof.
  destruct (C3_identity_percent example_alignment 6)
    as (pds & dm & names & Hrun & Hall).
  - exact example_alignment_NoDup.
  - exact example_alignment_rectangular.
  - exists pds, dm, names. split; [done|]. intros r Hr. by apply Hall.
Defined.

(** C4. On a rectangular alignment the distance matrix is symmetric: for
    two distinct identifiers [A] and [B] both [distance_matrix[A][B]] and
    [distance_matrix[B][A]] are present and equal the mismatch count of the
    pair, which is the [snps] of the pair's record; no [distance_matrix[A][A]]
    is present, and no entry is stored under anything but two identifiers. *)
Theorem C4_distance_matrix_symmetric (sequences : alignment) (L : nat) :
  NoDup (keys sequences) → rectangular sequences L →
  ∃ pds dm names,
    calculate_pairwise_distances sequences = Ok (pds, dm, names)
    ∧ (∀ A B sA sB, A ≠ B → (A, sA) ∈ sequences → (B, sB) ∈ sequences →
         entry dm A B = Some (spec_snp_count sA sB)
         ∧ entry dm B A = entry dm A B
         ∧ ∃ r, r ∈ pds ∧ snps r = spec_snp_count sA sB
                ∧ ((seq1 r = A ∧ seq2 r = B) ∨ (seq1 r = B ∧ seq2 r = A)))
    ∧ (∀ A, entry dm A A = None)
    ∧ (∀ A B, is_Some (entry dm A B) → A ∈ names ∧ B ∈ names).
Proof.
  intros Hnd Hrect.
  destruct (calculate_pairwise_distances_spec sequences L Hrect Hnd)
    as (dm & Hrun & Hrows & Hent).
  eexists _, dm, _. split; [exact Hrun|]. split_and!.
  - intros A B sA sB Hne [i Hi]%list_elem_of_lookup [j Hj]%list_elem_of_lookup.
    assert (HlenA : length sA = L) by by apply (rectangular_lookup sequences L Hrect i A).
    assert (HlenB : length sB = L) by by apply (rectangular_lookup sequences L Hrect j B).
    assert (Hij : i ≠ j) by (intros ->; congruence).
    destruct (decide (i < j)%nat) as [Hlt|Hge].
    + assert (HAB : entry dm A B = Some (spec_snp_count sA sB)).
      { apply Hent. exists i, j, A, sA, B, sB. naive_solver. }
      assert (HBA : entry dm B A = Some (spec_snp_count sA sB)).
      { apply Hent. exists i, j, A, sA, B, sB. naive_solver. }
      split_and!; [done|congruence|].
      exists (spec_record (A, sA) (B, sB)). split_and!; [|done|by left].
      apply elem_of_spec_records. exists i, j, (A, sA), (B, sB). done.
    + assert (Hlt : (j < i)%nat) by lia.
      assert (Hsym : spec_snp_count sB sA = spec_snp_count sA sB).
      { apply spec_snp_count_sym. congruence. }
      assert (HAB : entry dm A B = Some (spec_snp_count sA sB)).
      { apply Hent. exists j, i, B, sB, A, sA. naive_solver. }
      assert (HBA : entry dm B A = Some (spec_snp_count sA sB)).
      { apply Hent. exists j, i, B, sB, A, sA. naive_solver. }
      split_and!; [done|congruence|].
      exists (spec_record (B, sB) (A, sA)). split_and!; [|done|by right].
      apply elem_of_spec_records. exists j, i, (B, sB), (A, sA). done.
  - intros A. destruct (entry dm A A) as [v|] eqn:Hv; [|done].
    apply Hent in Hv as (i & j & nA & sA & nB & sB & Hlt & Hi & Hj & _ & Hab).
    assert (nA = nB) as -> by (destruct Hab as [[??]|[??]]; congruence).
    assert (i = j) by by apply (key_index_inj sequences Hnd i j nB sA sB). lia.
  - intros A B [v Hv].
    apply Hent in Hv as (i & j & nA & sA & nB & sB & _ & Hi & Hj & _ & Hab).
    apply (lookup_keys sequences i nA sA), list_elem_of_lookup_2 in Hi.
    apply (lookup_keys sequences j nB sB), list_elem_of_lookup_2 in Hj.
    destruct Hab as [[-> ->]|[-> ->]]; done.
Qed.

Lemma C4_distance_matrix_symmetric_witness :
  ∃ pds dm names,
    calculate_pairwise_distances example_alignment = Ok (pds, dm, names)
    ∧ entry dm "s1" "s2" = Some 1 ∧ entry dm "s2" "s1" = Some 1
    ∧ entry dm "s1" "s1" = None ∧ entry dm "s2" "s2" = None.
Proof.
  destruct (C4_distance_matrix_symmetric example_alignment 6)
    as (pds & dm & names & Hrun & Hsym & Hdiag & _).
  - exact example_alignment_NoDup.
  - exact example_alignment_rectangular.
  - destruct (Hsym "s1"%string "s2"%string (list_ascii_of_string "ACGT-N")
                (list_ascii_of_string "ACTTAN")) as (H12 & H21 & _).
    + discriminate.
    + apply list_elem_of_here.
    + apply list_elem_of_further, list_elem_of_here.
    + exists pds, dm, names. split_and!; [done| | |apply Hdiag..].
      * rewrite H12. by vm_compute.
      * rewrite H21, H12. by vm_compute.
Defined.

(** C5. On a rectangular alignment of [n] sequences the function emits
    [n * (n - 1) / 2] records, and their identifier pairs, read in order,
    are the pairs [(names[i], names[j])] with [i < j] in the order of the
    double loop: all pairs of the first identifier, then all pairs of the
    second with later ones, and so on; every unordered pair of distinct
    identifiers is there once, in one orientation. *)
Theorem C5_record_order (sequences : alignment) (L : nat) :
  NoDup (keys sequences) → rectangular sequences L →
  ∃ pds dm names,
    calculate_pairwise_distances sequences = Ok (pds, dm, names)
    ∧ names = keys sequences
    ∧ length pds = (length sequences * (length sequences - 1) / 2)%nat
    ∧ (λ r, (seq1 r, seq2 r)) <$> pds = all_pairs names
    ∧ (λ r, (seq1 r, seq2 r)) <$> pds
      = (λ ij, (names !!! ij.1, names !!! ij.2)) <$> index_pairs (length names)
    ∧ NoDup (all_pairs names)
    ∧ (∀ a b, a ∈ names → b ∈ names → a ≠ b →
         (a, b) ∈ all_pairs names ∨ (b, a) ∈ all_pairs names)
    ∧ (∀ a b, (a, b) ∈ all_pairs names → (b, a) ∉ all_pairs names).
Proof.
  intros Hnd Hrect.
  destruct (calculate_pairwise_distances_spec sequences L Hrect Hnd) as (dm & Hrun & _).
  eexists _, dm, _. split; [exact Hrun|].
  assert (Hnames : (λ r, (seq1 r, seq2 r)) <$>
            ((λ ab, spec_record ab.1 ab.2) <$> all_pairs sequences)
          = all_pairs (keys sequences)).
  { unfold keys. rewrite all_pairs_fmap, <- list_fmap_compose.
    apply list_fmap_ext. by intros _ [[??] [??]] _. }
  destruct (all_pairs_unordered (keys sequences) Hnd) as (Hnd' & Hcover & Honce).
  split_and!; [done| |done| |done..].
  - by rewrite length_fmap, all_pairs_length.
  - rewrite Hnames. symmetry.
    rewrite <- (list_fmap_id (all_pairs (keys sequences))).
    apply (Forall2_fmap_eq
             (λ (ij : nat * nat) (ab : string * string),
                ab = (keys sequences !!! ij.1, keys sequences !!! ij.2))
             (λ (ij : nat * nat) (ab : string * string),
                keys sequences !! ij.1 = Some ab.1 ∧ keys sequences !! ij.2 = Some ab.2)
             id (index_pairs (length (keys sequences)))).
    + intros [i j] ab [a b] -> [Ha Hb]. simpl in *.
      by rewrite (list_lookup_total_correct _ _ _ Ha), (list_lookup_total_correct _ _ _ Hb).
    + apply Forall2_fmap_r, Forall_Forall2_diag, Forall_forall. done.
    + by apply index_pairs_all_pairs.
Qed.

Lemma C5_record_order_witness :
  ∃ pds dm names,
    calculate_pairwise_distances example_alignment = Ok (pds, dm, names)
    ∧ length pds = 1%nat
    ∧ (λ r, (seq1 r, seq2 r)) <$> pds = [("s1"%string, "s2"%string)].
Proof.
  destruct (C5_record_order example_alignment 6)
    as (pds & dm & names & Hrun & Hnames & Hlen & Hpairs & _).
  - exact example_alignment_NoDup.
  - exact example_alignment_rectangular.
  - exists pds, dm, names. split_and!; [done|done|].
    rewrite Hpairs, Hnames. done.
Defined.

(** C6. On a rectangular alignment of length [L] the three lists of the
    classifier hold column indices below [L], none of them twice, and no
    index is in two of the lists. *)
Theorem C6_classification_disjoint (sequences : alignment) (L : nat) :
  rectangular sequences L →
  ∃ cls, find_differences sequences = Ok cls
    ∧ (∀ p, p ∈ gap_positions cls ∨ p ∈ ambiguous_positions cls ∨ p ∈ differences cls
            → (p < L)%nat)
    ∧ (∀ p, ¬ (p ∈ gap_positions cls ∧ p ∈ ambiguous_positions cls)
            ∧ ¬ (p ∈ gap_positions cls ∧ p ∈ differences cls)
            ∧ ¬ (p ∈ ambiguous_positions cls ∧ p ∈ differences cls))
    ∧ NoDup (gap_positions cls) ∧ NoDup (ambiguous_positions cls)
    ∧ NoDup (differences cls).
Proof.
  intros Hrect.
  destruct (find_differences_spec sequences L Hrect)
    as (cls & Hrun & Hg & Ha & Hd & Sg & Sa & Sd).
  exists cls. split; [done|].
  assert (Hvis : ∀ p, p ∈ seq 0 (if values sequences is [] then 0 else L) → (p < L)%nat).
  { intros p Hp. apply elem_of_seq in Hp. destruct (values sequences); lia. }
  split_and!.
  - intros p [Hp|[Hp|Hp]]; [apply Hg in Hp|apply Ha in Hp|apply Hd in Hp];
      apply Hvis; tauto.
  - intros p. rewrite Hg, Ha, Hd. tauto.
  - eapply sublist_NoDup; [apply NoDup_seq | exact Sg].
  - eapply sublist_NoDup; [apply NoDup_seq | exact Sa].
  - eapply sublist_NoDup; [apply NoDup_seq | exact Sd].
Qed.

Lemma C6_classification_disjoint_witness :
  ∃ cls, find_differences example_alignment = Ok cls
    ∧ ¬ (4%nat ∈ gap_positions cls ∧ 4%nat ∈ ambiguous_positions cls).
Proof.
  destruct (C6_classification_disjoint example_alignment 6)
    as (cls & Hrun & _ & Hdisj & _).
  - exact example_alignment_rectangular.
  - exists cls. split; [done|]. apply (Hdisj 4%nat).
Defined.

(** C7. Every record emitted on a rectangular alignment of length [L] has
    [0 <= usable_positions <= L] and [0 <= snps <= usable_positions]. *)
Theorem C7_count_bounds (sequences : alignment) (L : nat) :
  NoDup (keys sequences) → rectangular sequences L →
  ∃ pds dm names,
    calculate_pairwise_distances sequences = Ok (pds, dm, names)
    ∧ ∀ r, r ∈ pds →
        0 ≤ usable_positions r ≤ Z.of_nat L ∧ 0 ≤ snps r ≤ usable_positions r.
Proof.
  intros Hnd Hrect.
  destruct (calculate_pairwise_distances_spec sequences L Hrect Hnd) as (dm & Hrun & _).
  eexists _, dm, _. split; [exact Hrun|].
  intros r (i & j & [nA sA] & [nB sB] & _ & Hi & Hj & ->)%elem_of_spec_records.
  assert (HlenA : length sA = L) by by apply (rectangular_lookup sequences L Hrect i nA).
  simpl. unfold spec_usable_positions, spec_snp_count. rewrite HlenA.
  pose proof (count_columns_bounds (spec_usable_column sA sB) L).
  pose proof (count_columns_bounds (spec_snp_column sA sB) L).
  pose proof (count_columns_mono (spec_snp_column sA sB) (spec_usable_column sA sB) L
                (λ p _, spec_snp_column_usable sA sB p)).
  lia.
Qed.

Lemma C7_count_bounds_witness :
  ∃ pds dm names,
    calculate_pairwise_distances example_alignment = Ok (pds, dm, names)
    ∧ ∀ r, r ∈ pds →
        0 ≤ usable_positions r ≤ 6 ∧ 0 ≤ snps r ≤ usable_positions r.
Proof.
  apply (C7_count_bounds example_alignment 6).
  - exact example_alignment_NoDup.
  - exact example_alignment_rectangular.
Defined.

(** C8, as stated, fails: invoked on one sequence the function raises
    nothing and returns an empty record list, a matrix with one empty row,
    and the identifier. *)
Lemma C8_no_error_on_single_sequence :
  (length single_alignment < 2)%nat
  ∧ calculate_pairwise_distances single_alignment
    = Ok ([], {["s1"%string := ∅]}, ["s1"%string])
  ∧ ¬ ∃ e, calculate_pairwise_distances single_alignment = Err e.
Proof.
  split; [simpl; lia|].
  assert (Hrun : calculate_pairwise_distances single_alignment
                 = Ok ([], {["s1"%string := ∅]}, ["s1"%string])) by by vm_compute.
  split; [done|]. rewrite Hrun. by intros [e ?].
Qed.

(** C8, amended. Invoked on fewer than 2 sequences the function raises
    nothing: it returns no record, a matrix holding an empty row for each
    identifier, and the identifiers.  Such an alignment is turned away by
    the caller's check, which does not let the comparison run. *)
Theorem C8_fewer_than_two_sequences (sequences : alignment) :
  (length sequences < 2)%nat →
  calculate_pairwise_distances sequences
  = Ok ([], init_matrix (keys sequences), keys sequences)
  ∧ check_sequence_count sequences ≠ Compare.
Proof.
  intros Hlen. destruct sequences as [|entry [|entry' rest]]; [done|done|].
  simpl in Hlen. lia.
Qed.

Lemma C8_fewer_than_two_sequences_witness :
  calculate_pairwise_distances single_alignment
  = Ok ([], init_matrix (keys single_alignment), keys single_alignment)
  ∧ check_sequence_count single_alignment ≠ Compare.
Proof. apply C8_fewer_than_two_sequences. simpl. lia. Defined.

(** C9. On [{"s1": "ACGT-N", "s2": "ACTTAN"}] the classifier returns gap
    positions [4], ambiguous positions [5] and variant positions [2], and
    the single record of the pair has 4 usable positions, 1 mismatch and
    identity 75.0. *)
Theorem C9_worked_example :
  find_differences example_alignment
  = Ok {| differences := [2%nat]; gap_positions := [4%nat];
          ambiguous_positions := [5%nat] |}
  ∧ (∃ dm, calculate_pairwise_distances example_alignment
           = Ok ([{| seq1 := "s1"; seq2 := "s2"; snps := 1; usable_positions := 4;
                     identity := PyFloat (float_of_int 75) |}],
                 dm, ["s1"%string; "s2"%string]))
  ∧ (∃ q, pynum_value (PyFloat (float_of_int 75)) = Some q ∧ (q == 75)%Q).
Proof.
  split_and!.
  - by vm_compute.
  - eexists. by vm_compute.
  - eexists. split; [by vm_compute|]. by vm_compute.
Qed.

(** C10. On a rectangular alignment neither function indexes a sequence
    out of bounds: both return a result, so the [IndexError] branch of
    [index] (and the [KeyError] branches of the dict accesses) are never
    taken. *)
Theorem C10_indexing_in_bounds (sequences : alignment) (L : nat) :
  rectangular sequences L →
  (∃ cls, find_differences sequences = Ok cls)
  ∧ (∃ out, calculate_pairwise_distances sequences = Ok out)
  ∧ (∀ s1 s2, s1 ∈ values sequences → s2 ∈ values sequences →
       ∀ pos, pos ∈ range 0 (length s1) →
         is_Some (s1 !! pos) ∧ is_Some (s2 !! pos)).
Proof.
  intros Hrect. split_and!.
  - destruct (find_differences_spec sequences L Hrect) as (cls & Hrun & _). eauto.
  - apply (calculate_pairwise_distances_ok sequences L Hrect).
  - intros s1 s2 H1 H2 pos Hpos. unfold rectangular in Hrect.
    rewrite Forall_forall in Hrect.
    pose proof (Hrect s1 H1) as Hlen1. pose proof (Hrect s2 H2) as Hlen2.
    simpl in Hlen1, Hlen2. apply elem_of_range in Hpos.
    split; apply lookup_lt_is_Some_2; lia.
Qed.

Lemma C10_indexing_in_bounds_witness :
  (∃ cls, find_differences example_alignment = Ok cls)
  ∧ (∃ out, calculate_pairwise_distances example_alignment = Ok out).
Proof.
  destruct (C10_indexing_in_bounds example_alignment 6) as (H1 & H2 & _).
  - exact example_alignment_rectangular.
  - done.
Defined.

(** The out-of-bounds branch is a real one: without rectangularity both
    functions raise [IndexError]. *)
Example ragged_alignment_raises :
  find_differences ragged_alignment = Err IndexError
  ∧ calculate_pairwise_distances ragged_alignment = Err IndexError.
Proof. split; by vm_compute. Qed.

(** * Further properties *)

(** ** [check_if_aligned] *)

Lemma size_list_to_set_1 (l : list nat) :
  size (list_to_set l : gset nat) = 1%nat ↔ ∃ n, l ≠ [] ∧ Forall (λ k, k = n) l.
Proof.
  split.
  - intros Hsize. destruct l as [|n l]; [done|]. exists n. split; [done|].
    apply Forall_forall. intros k Hk.
    apply (size_singleton_inv (list_to_set (n :: l) : gset nat) k n Hsize);
      apply elem_of_list_to_set; [done|apply list_elem_of_here].
  - intros (n & Hne & Hall).
    assert (Heq : (list_to_set l : gset nat) = {[n]}).
    { apply set_eq. intros k. rewrite elem_of_list_to_set, elem_of_singleton.
      rewrite Forall_forall in Hall. split; [apply Hall|].
      intros ->. destruct l as [|k l]; [done|].
      rewrite (Hall k) by apply list_elem_of_here. apply list_elem_of_here. }
    rewrite Heq. apply size_singleton.
Qed.

Lemma check_if_aligned_true (sequences : alignment) :
  check_if_aligned sequences = true →
  sequences ≠ [] ∧ ∃ L, rectangular sequences L.
Proof.
  unfold check_if_aligned, rectangular.
  destruct (decide (sequences = [])) as [->|Hne]; [done|].
  rewrite bool_decide_eq_false_2 by done. rewrite bool_decide_eq_true, size_list_to_set_1.
  intros (L & _ & Hall). split; [done|]. exists L. by rewrite Forall_fmap in Hall.
Qed.

(** X1. [check_if_aligned] answers [True] exactly on a dict that is not
    empty and whose sequences all have one length. *)
Theorem X1_check_if_aligned_rectangular (sequences : alignment) :
  check_if_aligned sequences = true ↔
  sequences ≠ [] ∧ ∃ L, rectangular sequences L.
Proof.
  split; [apply check_if_aligned_true|].
  intros (Hne & L & Hall). unfold check_if_aligned, rectangular in *.
  rewrite bool_decide_eq_false_2 by done.
  rewrite bool_decide_eq_true, size_list_to_set_1. exists L. split.
  - destruct sequences; [done|]. done.
  - by rewrite Forall_fmap.
Qed.

(** ** Where the loops stop *)

Lemma for_each_ok {S A : Type} (I : S → Prop) (xs : list A)
    (body : S → A → result S) (s : S) :
  I s →
  (∀ s0 x, x ∈ xs → I s0 → ∃ s1, body s0 x = Ok s1 ∧ I s1) →
  ∃ s', for_each xs body s = Ok s' ∧ I s'.
Proof.
  intros Hs Hstep.
  apply (for_each_inv (λ _ s0, I s0)); [done|].
  intros visited x rest s0 -> Hs0. apply Hstep; [|done].
  apply elem_of_app. right. apply list_elem_of_here.
Qed.

(** A loop whose body fails exactly on the elements with [P] stops with
    that error at the first such element. *)
Lemma for_each_first_error {S A : Type} (I : S → Prop) (P : A → Prop)
    `{!∀ x, Decision (P x)} (xs : list A) (body : S → A → result S) (s : S)
    (e : pyerr) :
  I s →
  (∀ s0 x, x ∈ xs → I s0 → ¬ P x → ∃ s1, body s0 x = Ok s1 ∧ I s1) →
  (∀ s0 x, x ∈ xs → I s0 → P x → body s0 x = Err e) →
  Exists P xs →
  for_each xs body s = Err e.
Proof.
  intros Hs Hok Herr Hex. revert s Hs.
  induction xs as [|x xs IH]; intros s Hs; [by apply Exists_nil in Hex|].
  simpl. destruct (decide (P x)) as [HP|HP].
  - rewrite (Herr s x); [done|apply list_elem_of_here|done..].
  - destruct (Hok s x) as (s1 & -> & Hs1); [apply list_elem_of_here|done..|].
    apply IH; [| | |done].
    + intros s0 y Hy. apply Hok. by apply list_elem_of_further.
    + intros s0 y Hy. apply Herr. by apply list_elem_of_further.
    + apply Exists_cons in Hex as [?|?]; done.
Qed.

Lemma for_each_ext {S A : Type} (xs : list A) (body body' : S → A → result S) (s : S) :
  (∀ s0 x, x ∈ xs → body s0 x = body' s0 x) →
  for_each xs body s = for_each xs body' s.
Proof.
  revert s. induction xs as [|x xs IH]; intros s Hext; [done|]. simpl.
  rewrite (Hext s x) by apply list_elem_of_here.
  destruct (body' s x); [|done]. apply IH. intros s0 y Hy. apply Hext.
  by apply list_elem_of_further.
Qed.

Lemma index_ge {A : Type} (l : list A) (i : nat) :
  (length l ≤ i)%nat → index l i = Err IndexError.
Proof. intros Hi. unfold index. by rewrite lookup_ge_None_2. Qed.

(** *** The column loop *)

Lemma bases_at_short (seq_list : list sequence) (pos : nat) :
  Exists (λ s : sequence, (length s ≤ pos)%nat) seq_list →
  bases_at seq_list pos = Err IndexError.
Proof.
  induction seq_list as [|s rest IH]; intros Hex; [by apply Exists_nil in Hex|].
  simpl. destruct (decide (length s ≤ pos)%nat) as [Hs|Hs].
  - by rewrite index_ge.
  - destruct (index_lt s pos) as (c & _ & ->); [lia|]. rewrite bind_Ok.
    apply Exists_cons in Hex as [?|Hex]; [done|]. by rewrite IH.
Qed.

Lemma bases_at_long (seq_list : list sequence) (pos : nat) :
  Forall (λ s : sequence, (pos < length s)%nat) seq_list →
  ∃ bases, bases_at seq_list pos = Ok bases.
Proof.
  induction 1 as [|s rest Hs _ [bs IH]]; simpl; [eauto|].
  destruct (index_lt s pos Hs) as (c & _ & ->). rewrite bind_Ok, IH. eauto.
Qed.

Lemma classify_step_short (seq_list : list sequence) (st : classification) (pos : nat) :
  Exists (λ s : sequence, (length s ≤ pos)%nat) seq_list →
  classify_step seq_list st pos = Err IndexError.
Proof. intros Hex. unfold classify_step. by rewrite bases_at_short. Qed.

Lemma classify_step_long (seq_list : list sequence) (st : classification) (pos : nat) :
  Forall (λ s : sequence, (pos < length s)%nat) seq_list →
  ∃ st', classify_step seq_list st pos = Ok st'.
Proof.
  intros Hall. destruct (bases_at_long seq_list pos Hall) as [bs Hbs].
  unfold classify_step. rewrite Hbs, bind_Ok. cbv zeta.
  repeat (destruct (bool_decide _); simpl); eauto.
Qed.

(** X2. [find_differences] walks the columns of the first sequence: on a
    dict that is not empty it raises [IndexError] exactly when some later
    sequence is shorter than the first, and returns exactly when none
    is. *)
Theorem X2_find_differences_index_error (name : string) (first : sequence)
    (others : alignment) :
  (find_differences ((name, first) :: others) = Err IndexError
   ↔ ∃ s, s ∈ values others ∧ (length s < length first)%nat)
  ∧ ((∃ cls, find_differences ((name, first) :: others) = Ok cls)
     ↔ ∀ s, s ∈ values others → (length first ≤ length s)%nat).
Proof.
  set (sequences := (name, first) :: others).
  assert (Hrun : find_differences sequences
                 = for_each (seq 0 (length first)) (classify_step (values sequences))
                     (mk_classification [] [] [])).
  { unfold find_differences. rewrite bool_decide_eq_false_2 by done.
    unfold index. simpl. by rewrite range_0. }
  assert (Hshort : (∃ s, s ∈ values others ∧ (length s < length first)%nat) →
                   find_differences sequences = Err IndexError).
  { intros (s & Hin & Hlen). rewrite Hrun.
    apply (for_each_first_error (λ _, True)
             (λ pos, Exists (λ s : sequence, (length s ≤ pos)%nat) (values sequences)));
      [done| | |].
    - intros st pos _ _ Hpos. apply not_Exists_Forall in Hpos; [|apply _].
      destruct (classify_step_long (values sequences) st pos) as [st' ->]; [|eauto].
      eapply Forall_impl; [exact Hpos|]. simpl. lia.
    - intros st pos _ _ Hpos. by apply classify_step_short.
    - apply Exists_exists. exists (length s). split; [apply elem_of_seq; lia|].
      apply Exists_exists. exists s. split; [|done].
      unfold sequences, values. simpl. by apply list_elem_of_further. }
  assert (Hlong : (∀ s, s ∈ values others → (length first ≤ length s)%nat) →
                  ∃ cls, find_differences sequences = Ok cls).
  { intros Hall. rewrite Hrun.
    destruct (for_each_ok (λ _, True) (seq 0 (length first))
                (classify_step (values sequences)) (mk_classification [] [] []))
      as (cls & -> & _); [done| |eauto].
    intros st pos Hpos%elem_of_seq _.
    destruct (classify_step_long (values sequences) st pos) as [st' ->]; [|eauto].
    apply Forall_forall. intros s Hs. unfold sequences, values in Hs. simpl in Hs.
    apply elem_of_cons in Hs as [->|Hs]; [lia|].
    specialize (Hall s Hs). lia. }
  assert (Hdec : (∃ s, s ∈ values others ∧ (length s < length first)%nat)
                 ∨ (∀ s, s ∈ values others → (length first ≤ length s)%nat)).
  { destruct (decide (Exists (λ s : sequence, (length s < length first)%nat) (values others)))
      as [Hex|Hnex].
    - left. by apply Exists_exists in Hex.
    - right. apply not_Exists_Forall in Hnex; [|apply _].
      rewrite Forall_forall in Hnex. intros s Hs. specialize (Hnex s Hs). simpl in Hnex. lia. }
  split; (split; [|done]).
  - intros Herr. destruct Hdec as [?|Hall]; [done|].
    destruct (Hlong Hall) as [cls Hcls]. congruence.
  - intros [cls Hcls]. destruct Hdec as [Hex|?]; [|done].
    rewrite (Hshort Hex) in Hcls. done.
Qed.

Lemma bases_at_take (seq_list : list sequence) (n pos : nat) :
  (pos < n)%nat → bases_at (take n <$> seq_list) pos = bases_at seq_list pos.
Proof.
  intros Hpos. induction seq_list as [|s rest IH]; [done|].
  rewrite fmap_cons. simpl. rewrite IH. unfold index.
  by rewrite lookup_take_lt.
Qed.

Lemma values_truncate_alignment (n : nat) (sequences : alignment) :
  values (truncate_alignment n sequences) = take n <$> values sequences.
Proof.
  unfold values, truncate_alignment. rewrite <- !list_fmap_compose.
  apply list_fmap_ext. by intros _ [??] _.
Qed.

(** X3. Characters past the length of the first sequence play no part in
    the classification: cutting every sequence to that length leaves the
    result, a value or an exception, as it is. *)
Theorem X3_find_differences_ignores_tail (name : string) (first : sequence)
    (others : alignment) :
  find_differences ((name, first) :: others)
  = find_differences (truncate_alignment (length first) ((name, first) :: others)).
Proof.
  unfold find_differences. rewrite values_truncate_alignment.
  rewrite !bool_decide_eq_false_2 by done.
  unfold index, values. rewrite !fmap_cons. simpl.
  rewrite length_take, Nat.min_id.
  apply for_each_ext. intros st pos Hpos.
  apply elem_of_range in Hpos. unfold classify_step.
  change (take (length first) first :: (take (length first) <$> others.*2))
    with (take (length first) <$> (first :: others.*2)).
  by rewrite bases_at_take by lia.
Qed.

(** *** The pair loop *)

Lemma count_pair_short (s1 s2 : sequence) :
  (length s2 < length s1)%nat → count_pair s1 s2 = Err IndexError.
Proof.
  intros Hlen. unfold count_pair. rewrite range_0.
  apply (for_each_first_error (λ _, True) (λ pos, (length s2 ≤ pos)%nat)); [done| | |].
  - intros [sn us] pos Hpos%elem_of_seq _ Hlt.
    rewrite count_step_spec by lia. eauto.
  - intros [sn us] pos Hpos%elem_of_seq _ Hge. unfold count_step.
    destruct (index_lt s1 pos) as (c1 & _ & ->); [lia|].
    by rewrite bind_Ok, index_ge.
  - apply Exists_exists. exists (length s2). split; [apply elem_of_seq; lia|done].
Qed.

Lemma pair_step_cases (sequences : alignment) (i j : nat) (n1 n2 : string)
    (s1 s2 : sequence) (pd : list pair_record) (dm : gmap string (gmap string Z)) :
  NoDup (keys sequences) →
  sequences !! i = Some (n1, s1) → sequences !! j = Some (n2, s2) →
  (∀ a, a ∈ keys sequences → is_Some (dm !! a)) →
  ((length s1 ≤ length s2)%nat →
     ∃ pd' dm', pair_step sequences (keys sequences) i (pd, dm) j = Ok (pd', dm')
                ∧ ∀ a, a ∈ keys sequences → is_Some (dm' !! a))
  ∧ ((length s2 < length s1)%nat →
     pair_step sequences (keys sequences) i (pd, dm) j = Err IndexError).
Proof.
  intros Hnd Hi Hj Hrows.
  assert (Hk1 : keys sequences !! i = Some n1) by by apply (lookup_keys _ _ _ s1).
  assert (Hk2 : keys sequences !! j = Some n2) by by apply (lookup_keys _ _ _ s2).
  unfold pair_step, index. rewrite Hk1, Hk2, !bind_Ok.
  rewrite (getitem_lookup sequences i n1 s1 Hnd Hi), bind_Ok.
  rewrite (getitem_lookup sequences j n2 s2 Hnd Hj), bind_Ok.
  split.
  - intros Hlen. rewrite count_pair_spec, bind_Ok by done.
    rewrite identity_of_spec, bind_Ok.
    destruct (matrix_set_spec dm n1 n2 (spec_snp_count s1 s2)) as (dm1 & -> & Hrows1 & _).
    { apply Hrows. by apply list_elem_of_lookup_2 in Hk1. }
    rewrite bind_Ok.
    destruct (matrix_set_spec dm1 n2 n1 (spec_snp_count s1 s2)) as (dm2 & -> & Hrows2 & _).
    { apply Hrows1, Hrows. by apply list_elem_of_lookup_2 in Hk2. }
    rewrite bind_Ok. eexists _, _. split; [done|].
    intros a Ha. apply Hrows2, Hrows1, Hrows, Ha.
  - intros Hlen. by rewrite count_pair_short.
Qed.

(** X4. [calculate_pairwise_distances] walks each pair over the length of
    its earlier sequence: it raises [IndexError] exactly when some sequence
    is shorter than one that precedes it in the dict, and returns exactly
    when none is. *)
Theorem X4_calculate_pairwise_distances_index_error (sequences : alignment) :
  NoDup (keys sequences) →
  (calculate_pairwise_distances sequences = Err IndexError
   ↔ ∃ i j nA sA nB sB, (i < j)%nat
       ∧ sequences !! i = Some (nA, sA) ∧ sequences !! j = Some (nB, sB)
       ∧ (length sB < length sA)%nat)
  ∧ ((∃ out, calculate_pairwise_distances sequences = Ok out)
     ↔ ∀ i j nA sA nB sB, (i < j)%nat →
         sequences !! i = Some (nA, sA) → sequences !! j = Some (nB, sB) →
         (length sA ≤ length sB)%nat).
Proof.
  intros Hnd.
  set (P := λ ij : nat * nat,
         (length (sequences !!! ij.2).2 < length (sequences !!! ij.1).2)%nat).
  set (I := λ st : list pair_record * gmap string (gmap string Z),
         ∀ a, a ∈ keys sequences → is_Some (st.2 !! a)).
  assert (Hn : length (keys sequences) = length sequences) by apply length_fmap.
  assert (Hrun : calculate_pairwise_distances sequences
                 = '(pd, dm) ← for_each (index_pairs (length sequences))
                      (λ st ij, pair_step sequences (keys sequences) ij.1 st ij.2)
                      ([], init_matrix (keys sequences));
                   Ok (pd, dm, keys sequences)).
  { unfold calculate_pairwise_distances. by rewrite for_each_nested, Hn. }
  assert (Hinit : I ([], init_matrix (keys sequences))).
  { intros a Ha. cbn [snd]. rewrite init_matrix_lookup, decide_True by done. eauto. }
  assert (Hstep : ∀ st i j, (i, j) ∈ index_pairs (length sequences) → I st →
            (¬ P (i, j) → ∃ st', pair_step sequences (keys sequences) i st j = Ok st' ∧ I st')
            ∧ (P (i, j) → pair_step sequences (keys sequences) i st j = Err IndexError)).
  { intros [pd dm] i j Hin%elem_of_index_pairs Hst.
    destruct (lookup_lt_is_Some_2 sequences i) as [[n1 s1] Hi]; [lia|].
    destruct (lookup_lt_is_Some_2 sequences j) as [[n2 s2] Hj]; [lia|].
    destruct (pair_step_cases sequences i j n1 n2 s1 s2 pd dm Hnd Hi Hj Hst) as [Hok Herr].
    unfold P. simpl.
    rewrite (list_lookup_total_correct _ _ _ Hi), (list_lookup_total_correct _ _ _ Hj). simpl.
    split.
    - intros Hlen. destruct Hok as (pd' & dm' & Hrun' & Hrows'); [lia|]. eauto.
    - intros Hlen. by apply Herr. }
  assert (Hshort : (∃ i j nA sA nB sB, (i < j)%nat
             ∧ sequences !! i = Some (nA, sA) ∧ sequences !! j = Some (nB, sB)
             ∧ (length sB < length sA)%nat) →
           calculate_pairwise_distances sequences = Err IndexError).
  { intros (i & j & nA & sA & nB & sB & Hlt & Hi & Hj & Hlen). rewrite Hrun.
    rewrite (for_each_first_error I P (index_pairs (length sequences)) _ _ IndexError);
      [done|done| | |].
    - intros st [i' j'] Hin Hst. by apply Hstep.
    - intros st [i' j'] Hin Hst. by apply Hstep.
    - apply Exists_exists. exists (i, j). split.
      + apply elem_of_index_pairs. split; [done|]. by apply lookup_lt_Some in Hj.
      + unfold P. simpl.
        by rewrite (list_lookup_total_correct _ _ _ Hi), (list_lookup_total_correct _ _ _ Hj). }
  assert (Hlong : (∀ i j nA sA nB sB, (i < j)%nat →
             sequences !! i = Some (nA, sA) → sequences !! j = Some (nB, sB) →
             (length sA ≤ length sB)%nat) →
           ∃ out, calculate_pairwise_distances sequences = Ok out).
  { intros Hall. rewrite Hrun.
    destruct (for_each_ok I (index_pairs (length sequences))
                (λ st ij, pair_step sequences (keys sequences) ij.1 st ij.2)
                ([], init_matrix (keys sequences))) as ([pd dm] & -> & _); [done| |].
    - intros st [i j] Hin Hst. apply Hstep; [done..|].
      apply elem_of_index_pairs in Hin.
      destruct (lookup_lt_is_Some_2 sequences i) as [[n1 s1] Hi]; [lia|].
      destruct (lookup_lt_is_Some_2 sequences j) as [[n2 s2] Hj]; [lia|].
      unfold P. simpl.
      rewrite (list_lookup_total_correct _ _ _ Hi), (list_lookup_total_correct _ _ _ Hj).
      simpl. specialize (Hall i j n1 s1 n2 s2 ltac:(lia) Hi Hj). lia.
    - rewrite bind_Ok. eauto. }
  assert (Hdec : Exists P (index_pairs (length sequences))
                 ∨ Forall (λ ij, ¬ P ij) (index_pairs (length sequences))).
  { destruct (decide (Exists P (index_pairs (length sequences)))) as [?|Hnex]; [by left|].
    right. by apply not_Exists_Forall in Hnex; [|apply _]. }
  assert (Hcases : (∃ i j nA sA nB sB, (i < j)%nat
             ∧ sequences !! i = Some (nA, sA) ∧ sequences !! j = Some (nB, sB)
             ∧ (length sB < length sA)%nat)
           ∨ (∀ i j nA sA nB sB, (i < j)%nat →
             sequences !! i = Some (nA, sA) → sequences !! j = Some (nB, sB) →
             (length sA ≤ length sB)%nat)).
  { destruct Hdec as [Hex|Hall].
    - left. apply Exists_exists in Hex as ([i j] & Hin%elem_of_index_pairs & HP).
      destruct (lookup_lt_is_Some_2 sequences i) as [[n1 s1] Hi]; [lia|].
      destruct (lookup_lt_is_Some_2 sequences j) as [[n2 s2] Hj]; [lia|].
      unfold P in HP. simpl in HP.
      rewrite (list_lookup_total_correct _ _ _ Hi), (list_lookup_total_correct _ _ _ Hj) in HP.
      exists i, j, n1, s1, n2, s2. split_and!; [lia|done..].
    - right. intros i j nA sA nB sB Hlt Hi Hj. rewrite Forall_forall in Hall.
      specialize (Hall (i, j)). unfold P in Hall. simpl in Hall.
      rewrite (list_lookup_total_correct _ _ _ Hi), (list_lookup_total_correct _ _ _ Hj) in Hall.
      simpl in Hall. apply Nat.nlt_ge, Hall, elem_of_index_pairs.
      split; [done|]. by apply lookup_lt_Some in Hj. }
  split; (split; [|done]).
  - intros Herr. destruct Hcases as [?|Hall]; [done|].
    destruct (Hlong Hall) as [out Hout]. congruence.
  - intros [out Hout]. destruct Hcases as [Hex|?]; [|done].
    rewrite (Hshort Hex) in Hout. done.
Qed.

Lemma X4_calculate_pairwise_distances_index_error_witness :
  calculate_pairwise_distances ragged_alignment = Err IndexError
  ∧ ¬ ∃ out, calculate_pairwise_distances ragged_alignment = Ok out.
Proof.
  destruct (X4_calculate_pairwise_distances_index_error ragged_alignment)
    as [[_ Hraise] [Hreturn _]].
  - apply (bool_decide_unpack _). by vm_compute.
  - split.
    + apply Hraise.
      exists 0%nat, 1%nat, "s1"%string, (list_ascii_of_string "ACGT"),
        "s2"%string, (list_ascii_of_string "AC").
      split_and!; [lia|reflexivity|reflexivity|simpl; lia].
    + intros Hout.
      specialize (Hreturn Hout 0%nat 1%nat "s1"%string (list_ascii_of_string "ACGT")
                    "s2"%string (list_ascii_of_string "AC")).
      simpl in Hreturn. specialize (Hreturn ltac:(lia) eq_refl eq_refl). lia.
Defined.

(** ** Letter case *)








(** ** Order of the reported positions *)

Lemma sublist_StronglySorted {A : Type} (R : A → A → Prop) (l k : list A) :
  l `sublist_of` k → StronglySorted R k → StronglySorted R l.
Proof.
  induction 1 as [|x l k Hsub IH|x l k Hsub IH]; intros Hk; [done| |].
  - apply StronglySorted_cons in Hk as [Hx Hk]. apply StronglySorted_cons.
    split; [|by apply IH]. rewrite Forall_forall in Hx |- *.
    intros y Hy. apply Hx. by apply (elem_of_sublist l k).
  - apply StronglySorted_cons in Hk as [_ Hk]. by apply IH.
Qed.

Lemma seq_StronglySorted (k n : nat) : StronglySorted lt (seq k n).
Proof.
  revert k. induction n as [|n IH]; intros k; simpl; constructor; [apply IH|].
  apply Forall_forall. intros x Hx%elem_of_seq. lia.
Qed.

Lemma sublist_seq_sorted (l : list nat) (n : nat) :
  l `sublist_of` seq 0 n → StronglySorted lt l.
Proof. intros Hsub. eapply sublist_StronglySorted; [exact Hsub | apply seq_StronglySorted]. Qed.

(** X6. On a rectangular alignment each of the three lists comes out in
    strictly increasing column order. *)
Theorem X6_find_differences_sorted (sequences : alignment) (L : nat) :
  rectangular sequences L →
  ∃ cls, find_differences sequences = Ok cls
    ∧ StronglySorted lt (gap_positions cls)
    ∧ StronglySorted lt (ambiguous_positions cls)
    ∧ StronglySorted lt (differences cls).
Proof.
  intros Hrect.
  destruct (find_differences_spec sequences L Hrect)
    as (cls & Hrun & _ & _ & _ & Sg & Sa & Sd).
  exists cls. split; [done|].
  split_and!; eapply sublist_seq_sorted; eassumption.
Qed.

Lemma X6_find_differences_sorted_witness :
  ∃ cls, find_differences example_alignment = Ok cls
    ∧ StronglySorted lt (gap_positions cls)
    ∧ StronglySorted lt (ambiguous_positions cls)
    ∧ StronglySorted lt (differences cls).
Proof.
  apply (X6_find_differences_sorted example_alignment 6).
  exact example_alignment_rectangular.
Defined.

(** ** Variable sites and pairwise SNPs *)

Lemma count_columns_pos (P : nat → bool) (L p : nat) :
  (p < L)%nat → P p = true → 0 < count_columns P L.
Proof.
  induction L as [|k IH]; intros Hp HP; [lia|]. simpl count_columns.
  pose proof (count_columns_bounds P k) as [Hk _].
  destruct (decide (p = k)) as [->|Hne].
  - rewrite HP. lia.
  - assert (0 < count_columns P k) by (apply IH; [lia|done]). destruct (P k); lia.
Qed.

Lemma varying_column_is_snp (sequences : alignment) (L p : nat) :
  rectangular sequences L → (p < L)%nat →
  ¬ column_has_gap (values sequences) p →
  ¬ column_has_ambiguity (values sequences) p →
  column_varies (values sequences) p →
  ∃ i j a b, (i < j)%nat ∧ sequences !! i = Some a ∧ sequences !! j = Some b
             ∧ 0 < snps (spec_record a b).
Proof.
  intros Hrect Hp Hgap Hamb (s & s' & c & c' & Hs & Hs' & Hc & Hc' & Hne).
  apply list_elem_of_lookup in Hs as [i Hi]. apply list_elem_of_lookup in Hs' as [j Hj].
  unfold values in Hi, Hj. rewrite list_lookup_fmap in Hi, Hj.
  destruct (sequences !! i) as [[n1 s1]|] eqn:Hsi; [|done].
  destruct (sequences !! j) as [[n2 s2]|] eqn:Hsj; [|done].
  simpl in Hi, Hj. injection Hi as ->. injection Hj as ->.
  assert (Hin : ∀ k n t, sequences !! k = Some (n, t) → t ∈ values sequences).
  { intros k n t Hk. apply list_elem_of_lookup. exists k.
    by apply (lookup_values sequences k n t). }
  assert (Husable : ∀ k n t d, sequences !! k = Some (n, t) → t !! p = Some d →
            upper d ≠ gap_char ∧ upper d ∉ ambiguity_codes).
  { intros k n t d Hk Hd. split.
    - rewrite upper_gap. intros ->. apply Hgap. exists t. eauto.
    - intros Hd'. apply Hamb. exists t, d. eauto. }
  destruct (Husable i n1 s c Hsi Hc) as [Hg1 Ha1].
  destruct (Husable j n2 s' c' Hsj Hc') as [Hg2 Ha2].
  assert (Hsnp : ∀ t t' d d', t !! p = Some d → t' !! p = Some d' →
            upper d ≠ gap_char → upper d ∉ ambiguity_codes →
            upper d' ≠ gap_char → upper d' ∉ ambiguity_codes →
            upper d ≠ upper d' → length t = L → 0 < spec_snp_count t t').
  { intros t t' d d' Hd Hd' ? ? ? ? ? Hlen. unfold spec_snp_count. rewrite Hlen.
    apply (count_columns_pos _ L p Hp). unfold spec_snp_column, spec_usable.
    rewrite Hd, Hd'. by rewrite !bool_decide_eq_false_2. }
  destruct (Nat.lt_total i j) as [Hlt|[->|Hlt]].
  - exists i, j, (n1, s), (n2, s'). split_and!; try done. simpl.
    eapply Hsnp; eauto. by apply (rectangular_lookup sequences L Hrect i n1).
  - congruence.
  - exists j, i, (n2, s'), (n1, s). split_and!; try done. simpl.
    eapply Hsnp; eauto. by apply (rectangular_lookup sequences L Hrect j n2).
Qed.

(** X7. The two functions agree on variation: when the classifier reports
    a variable site, some pair has at least one SNP, so an alignment whose
    pairs all have zero SNPs has no variable site. *)
Theorem X7_variable_sites_are_pairwise_snps (sequences : alignment) (L : nat) :
  rectangular sequences L → NoDup (keys sequences) →
  ∃ cls pairwise_distances distance_matrix seq_names,
    find_differences sequences = Ok cls
    ∧ calculate_pairwise_distances sequences
      = Ok (pairwise_distances, distance_matrix, seq_names)
    ∧ (differences cls ≠ [] → ∃ r, r ∈ pairwise_distances ∧ 0 < snps r)
    ∧ ((∀ r, r ∈ pairwise_distances → snps r = 0) → differences cls = []).
Proof.
  intros Hrect Hnd.
  destruct (find_differences_spec sequences L Hrect) as (cls & Hfd & _ & _ & Hd & _).
  destruct (calculate_pairwise_distances_spec sequences L Hrect Hnd) as (dm & Hrun & _).
  exists cls. eexists _, dm, _. split; [done|]. split; [exact Hrun|].
  assert (Hsome : differences cls ≠ [] →
            ∃ r, r ∈ (λ ab : (string * list ascii) * (string * list ascii),
                        spec_record ab.1 ab.2) <$> all_pairs sequences
                 ∧ 0 < snps r).
  { intros Hne. destruct (differences cls) as [|p rest] eqn:Hdiff; [done|].
    assert (Hp : p ∈ p :: rest) by apply list_elem_of_here.
    apply Hd in Hp as (Hvis & Hgap & Hamb & Hvar).
    assert (HpL : (p < L)%nat).
    { apply elem_of_seq in Hvis. destruct (values sequences); lia. }
    destruct (varying_column_is_snp sequences L p Hrect HpL Hgap Hamb Hvar)
      as (i & j & a & b & Hlt & Hi & Hj & Hpos).
    exists (spec_record a b). split; [|done]. apply elem_of_spec_records.
    exists i, j, a, b. done. }
  split; [done|].
  intros Hzero. destruct (differences cls) as [|p rest] eqn:Hdiff; [done|].
  destruct Hsome as (r & Hr & Hpos); [done|]. specialize (Hzero r Hr). lia.
Qed.

Lemma X7_variable_sites_are_pairwise_snps_witness :
  ∃ cls pairwise_distances distance_matrix seq_names,
    find_differences example_alignment = Ok cls
    ∧ calculate_pairwise_distances example_alignment
      = Ok (pairwise_distances, distance_matrix, seq_names)
    ∧ (differences cls ≠ [] → ∃ r, r ∈ pairwise_distances ∧ 0 < snps r)
    ∧ ((∀ r, r ∈ pairwise_distances → snps r = 0) → differences cls = []).
Proof.
  apply (X7_variable_sites_are_pairwise_snps example_alignment 6).
  - exact example_alignment_rectangular.
  - exact example_alignment_NoDup.
Defined.

(** ** Summary statistics *)

Lemma alignment_length_rectangular (sequences : alignment) (L : nat) :
  rectangular sequences L → sequences ≠ [] → alignment_length sequences = Ok L.
Proof.
  intros Hrect Hne. destruct sequences as [|[name first] others]; [done|].
  unfold alignment_length, index. simpl.
  unfold rectangular in Hrect. simpl in Hrect. apply Forall_cons in Hrect as [-> _]. done.
Qed.

Lemma NoDup_subseteq_length (l : list nat) (n : nat) :
  NoDup l → (∀ p, p ∈ l → (p < n)%nat) → (length l ≤ n)%nat.
Proof.
  intros Hnd Hlt.
  assert (Hsub : l ⊆+ seq 0 n).
  { apply NoDup_submseteq; [done|].
    intros p Hp. apply elem_of_seq. specialize (Hlt p Hp). lia. }
  apply submseteq_length in Hsub. by rewrite length_seq in Hsub.
Qed.

(** The three lists together hold at most as many positions as there are
    columns. *)
Lemma classification_lengths (sequences : alignment) (L : nat) :
  rectangular sequences L →
  ∃ cls, find_differences sequences = Ok cls
    ∧ (length (gap_positions cls) + length (ambiguous_positions cls)
       + length (differences cls) ≤ L)%nat.
Proof.
  intros Hrect.
  destruct (find_differences_spec sequences L Hrect)
    as (cls & Hrun & Hg & Ha & Hd & Sg & Sa & Sd).
  exists cls. split; [done|].
  assert (Hall : NoDup (gap_positions cls ++ ambiguous_positions cls ++ differences cls)).
  { apply NoDup_app. split_and!.
    - eapply sublist_NoDup; [apply NoDup_seq | exact Sg].
    - intros p Hp [Hq|Hq]%elem_of_app; apply Hg in Hp; [apply Ha in Hq|apply Hd in Hq]; tauto.
    - apply NoDup_app. split_and!.
      + eapply sublist_NoDup; [apply NoDup_seq | exact Sa].
      + intros p Hp Hq. apply Ha in Hp. apply Hd in Hq. tauto.
      + eapply sublist_NoDup; [apply NoDup_seq | exact Sd]. }
  apply (NoDup_subseteq_length _ L) in Hall.
  - rewrite !length_app in Hall. lia.
  - intros p Hp.
    assert (Hvis : p ∈ seq 0 (if values sequences is [] then 0 else L)).
    { apply elem_of_app in Hp as [Hp|Hp]; [by apply Hg in Hp as [? _]|].
      apply elem_of_app in Hp as [Hp|Hp]; [by apply Ha in Hp as [? _]|].
      by apply Hd in Hp as [? _]. }
    apply elem_of_seq in Hvis. destruct (values sequences); lia.
Qed.

(** X8. On a rectangular alignment that is not empty the usable-position
    count of the summary, [align_len - len(gap_positions) -
    len(ambiguous_positions)], is at most [align_len] and at least the
    number of variable sites, hence never negative. *)
Theorem X8_summary_usable_positions_bounds (sequences : alignment) (L : nat) :
  rectangular sequences L → sequences ≠ [] →
  ∃ cls, find_differences sequences = Ok cls
    ∧ alignment_length sequences = Ok L
    ∧ 0 ≤ Z.of_nat (length (differences cls))
        ≤ summary_usable_positions L (gap_positions cls) (ambiguous_positions cls)
    ∧ summary_usable_positions L (gap_positions cls) (ambiguous_positions cls)
        ≤ Z.of_nat L.
Proof.
  intros Hrect Hne.
  destruct (classification_lengths sequences L Hrect) as (cls & Hrun & Hlen).
  exists cls. split; [done|]. split; [by apply alignment_length_rectangular|].
  unfold summary_usable_positions. lia.
Qed.

Lemma X8_summary_usable_positions_bounds_witness :
  ∃ cls, find_differences example_alignment = Ok cls
    ∧ alignment_length example_alignment = Ok 6%nat
    ∧ 0 ≤ Z.of_nat (length (differences cls))
        ≤ summary_usable_positions 6 (gap_positions cls) (ambiguous_positions cls)
    ∧ summary_usable_positions 6 (gap_positions cls) (ambiguous_positions cls)
        ≤ Z.of_nat 6.
Proof.
  apply (X8_summary_usable_positions_bounds example_alignment 6).
  - exact example_alignment_rectangular.
  - discriminate.
Defined.

(** ** Two sequences: the summary agrees with the pair's record *)

Lemma length_filter_seq (P : nat → bool) (L : nat) :
  Z.of_nat (length (filter (λ p, P p = true) (seq 0 L))) = count_columns P L.
Proof.
  induction L as [|k IH]; [done|].
  rewrite seq_S, filter_app, length_app, Nat2Z.inj_add, IH. simpl count_columns.
  f_equal. simpl. rewrite filter_cons, filter_nil.
  destruct (decide (P k = true)) as [->|Hk]; [done|].
  by apply not_true_is_false in Hk as ->.
Qed.

Lemma length_count_columns (l : list nat) (P : nat → bool) (L : nat) :
  NoDup l → (∀ p, p ∈ l ↔ (p < L)%nat ∧ P p = true) →
  Z.of_nat (length l) = count_columns P L.
Proof.
  intros Hnd Hl. rewrite <- length_filter_seq. f_equal.
  apply Permutation_length, NoDup_Permutation; [done| |].
  - apply NoDup_filter, NoDup_seq.
  - intros p. rewrite Hl, list_elem_of_filter, elem_of_seq. split; intros [??]; split; (done || lia).
Qed.

Lemma count_columns_partition (P Q R : nat → bool) (L : nat) :
  (∀ p, (p < L)%nat →
     (if P p then 1 else 0) + (if Q p then 1 else 0) + (if R p then 1 else 0) = 1) →
  count_columns P L + count_columns Q L + count_columns R L = Z.of_nat L.
Proof.
  induction L as [|k IH]; intros Hone; simpl count_columns; [done|].
  specialize (Hone k (Nat.lt_succ_diag_r k)) as Hk.
  assert (IH' : count_columns P k + count_columns Q k + count_columns R k = Z.of_nat k)
    by (apply IH; intros; apply Hone; lia).
  lia.
Qed.

Section two_sequences.
Context (a b : string) (sA sB : list ascii) (L : nat).
Hypothesis HA : length sA = L.
Hypothesis HB : length sB = L.

Lemma pair_column_has_gap (p : nat) :
  (p < L)%nat → column_has_gap [sA; sB] p ↔ pair_gap_column sA sB p = true.
Proof.
  intros Hp. unfold column_has_gap, pair_gap_column.
  destruct (lookup_lt_is_Some_2 sA p) as [c1 H1]; [lia|].
  destruct (lookup_lt_is_Some_2 sB p) as [c2 H2]; [lia|].
  rewrite H1, H2, orb_true_iff, !bool_decide_eq_true, !upper_gap. split.
  - intros (s & Hs & Hc). apply elem_of_cons in Hs as [->|Hs].
    + left. congruence.
    + apply list_elem_of_singleton in Hs as ->. right. congruence.
  - intros [->| ->]; [exists sA|exists sB]; (split; [set_solver|done]).
Qed.

Lemma pair_column_has_ambiguity (p : nat) (c1 c2 : ascii) :
  sA !! p = Some c1 → sB !! p = Some c2 →
  column_has_ambiguity [sA; sB] p ↔
  upper c1 ∈ ambiguity_codes ∨ upper c2 ∈ ambiguity_codes.
Proof.
  intros H1 H2. unfold column_has_ambiguity. split.
  - intros (s & c & Hs & Hc & Hamb). apply elem_of_cons in Hs as [->|Hs].
    + left. congruence.
    + apply list_elem_of_singleton in Hs as ->. right. congruence.
  - intros [Hamb|Hamb]; [exists sA, c1|exists sB, c2]; (split; [set_solver|done]).
Qed.

Lemma pair_column_varies (p : nat) (c1 c2 : ascii) :
  sA !! p = Some c1 → sB !! p = Some c2 →
  column_varies [sA; sB] p ↔ upper c1 ≠ upper c2.
Proof.
  intros H1 H2. unfold column_varies. split.
  - intros (s & s' & c & c' & Hs & Hs' & Hc & Hc' & Hne).
    apply elem_of_cons in Hs as [->|Hs]; [|apply list_elem_of_singleton in Hs as ->];
    (apply elem_of_cons in Hs' as [->|Hs']; [|apply list_elem_of_singleton in Hs' as ->]);
    congruence.
  - intros Hne. exists sA, sB, c1, c2. split_and!; (done || set_solver).
Qed.

Lemma pair_classified_counts (cls : classification) :
  classified [sA; sB] (seq 0 L) cls →
  Z.of_nat (length (differences cls)) = spec_snp_count sA sB
  ∧ summary_usable_positions L (gap_positions cls) (ambiguous_positions cls)
    = spec_usable_positions sA sB.
Proof.
  intros (Hg & Ha & Hd & Sg & Sa & Sd).
  assert (Hlen_g : Z.of_nat (length (gap_positions cls))
                   = count_columns (pair_gap_column sA sB) L).
  { apply length_count_columns.
    - eapply sublist_NoDup; [apply NoDup_seq | exact Sg].
    - intros p. rewrite Hg, elem_of_seq. split.
      + intros [Hp Hgap]. split; [lia|]. apply pair_column_has_gap; [lia|done].
      + intros [Hp Hgap]. split; [lia|]. by apply pair_column_has_gap. }
  assert (Hlen_a : Z.of_nat (length (ambiguous_positions cls))
                   = count_columns (pair_ambiguous_column sA sB) L).
  { apply length_count_columns.
    - eapply sublist_NoDup; [apply NoDup_seq | exact Sa].
    - intros p. rewrite Ha, elem_of_seq.
      split; intros [Hp Hrest]; (split; [lia|]);
        (assert (Hp' : (p < L)%nat) by lia);
        (destruct (lookup_lt_is_Some_2 sA p) as [c1 H1]; [lia|]);
        (destruct (lookup_lt_is_Some_2 sB p) as [c2 H2]; [lia|]).
      + destruct Hrest as [Hng Hamb].
        rewrite (pair_column_has_gap p Hp') in Hng.
        rewrite (pair_column_has_ambiguity p c1 c2 H1 H2) in Hamb.
        unfold pair_gap_column, pair_ambiguous_column in *. rewrite H1, H2 in *.
        apply not_true_is_false in Hng. rewrite Hng. simpl.
        apply orb_true_iff. by rewrite !bool_decide_eq_true.
      + rewrite (pair_column_has_gap p Hp'), (pair_column_has_ambiguity p c1 c2 H1 H2).
        unfold pair_gap_column, pair_ambiguous_column in *. rewrite H1, H2 in *.
        apply andb_true_iff in Hrest as [Hng Hamb].
        apply negb_true_iff in Hng. rewrite Hng.
        apply orb_true_iff in Hamb. rewrite !bool_decide_eq_true in Hamb. done. }
  split.
  - unfold spec_snp_count. rewrite HA. apply length_count_columns.
    + eapply sublist_NoDup; [apply NoDup_seq | exact Sd].
    + intros p. rewrite Hd, elem_of_seq.
      split; intros [Hp Hrest]; (split; [lia|]);
        (assert (Hp' : (p < L)%nat) by lia);
        (destruct (lookup_lt_is_Some_2 sA p) as [c1 H1]; [lia|]);
        (destruct (lookup_lt_is_Some_2 sB p) as [c2 H2]; [lia|]).
      * destruct Hrest as (Hng & Hna & Hv).
        rewrite (pair_column_has_gap p Hp') in Hng.
        rewrite (pair_column_has_ambiguity p c1 c2 H1 H2) in Hna.
        rewrite (pair_column_varies p c1 c2 H1 H2) in Hv.
        unfold pair_gap_column, spec_snp_column, spec_usable in *. rewrite H1, H2 in *.
        apply not_true_is_false, orb_false_iff in Hng as [Hg1 Hg2].
        rewrite Hg1, Hg2. simpl.
        rewrite !bool_decide_eq_false_2; [done|naive_solver..].
      * rewrite (pair_column_has_gap p Hp'), (pair_column_has_ambiguity p c1 c2 H1 H2),
          (pair_column_varies p c1 c2 H1 H2).
        unfold pair_gap_column, spec_snp_column, spec_usable in *. rewrite H1, H2 in *.
        repeat (apply andb_true_iff in Hrest as [Hrest ?]).
        repeat match goal with
               | H : negb _ = true |- _ => apply negb_true_iff, bool_decide_eq_false in H
               end.
        split_and!; [|naive_solver|done].
        rewrite orb_true_iff, !bool_decide_eq_true. naive_solver.
  - unfold summary_usable_positions, spec_usable_positions. rewrite Hlen_g, Hlen_a, HA.
    pose proof (count_columns_partition (pair_gap_column sA sB)
                  (pair_ambiguous_column sA sB) (spec_usable_column sA sB) L) as Hpart.
    rewrite <- Hpart; [lia|].
    intros p Hp.
    destruct (lookup_lt_is_Some_2 sA p) as [c1 H1]; [lia|].
    destruct (lookup_lt_is_Some_2 sB p) as [c2 H2]; [lia|].
    unfold pair_gap_column, pair_ambiguous_column, spec_usable_column, spec_usable.
    rewrite H1, H2.
    destruct (bool_decide (upper c1 = gap_char)), (bool_decide (upper c2 = gap_char)),
      (bool_decide (upper c1 ∈ ambiguity_codes)),
      (bool_decide (upper c2 ∈ ambiguity_codes)); done.
Qed.

End two_sequences.

(** X9. With exactly two sequences of one length the summary of the
    alignment and the single pairwise record tell the same numbers: the
    record's [snps] is the number of variable sites and its
    [usable_positions] is the summary's usable-position count. *)
Theorem X9_two_sequences_summary_is_pair (a b : string) (sA sB : list ascii) (L : nat) :
  a ≠ b → length sA = L → length sB = L →
  ∃ cls r dm,
    find_differences [(a, sA); (b, sB)] = Ok cls
    ∧ calculate_pairwise_distances [(a, sA); (b, sB)] = Ok ([r], dm, [a; b])
    ∧ seq1 r = a ∧ seq2 r = b
    ∧ snps r = Z.of_nat (length (differences cls))
    ∧ usable_positions r
      = summary_usable_positions L (gap_positions cls) (ambiguous_positions cls).
Proof.
  intros Hab HA HB.
  assert (Hrect : rectangular [(a, sA); (b, sB)] L).
  { unfold rectangular. simpl. by repeat constructor. }
  assert (Hnd : NoDup (keys [(a, sA); (b, sB)])).
  { simpl. apply NoDup_cons. split; [set_solver|]. apply NoDup_singleton. }
  destruct (find_differences_spec _ L Hrect) as (cls & Hfd & Hcls). simpl in Hcls.
  destruct (calculate_pairwise_distances_spec _ L Hrect Hnd) as (dm & Hrun & _).
  destruct (pair_classified_counts sA sB L HA HB cls Hcls) as [Hd Hu].
  exists cls, (spec_record (a, sA) (b, sB)), dm. split_and!; try done.
Qed.

Lemma X9_two_sequences_summary_is_pair_witness :
  ∃ cls r dm,
    find_differences example_alignment = Ok cls
    ∧ calculate_pairwise_distances example_alignment
      = Ok ([r], dm, ["s1"%string; "s2"%string])
    ∧ seq1 r = "s1"%string ∧ seq2 r = "s2"%string
    ∧ snps r = Z.of_nat (length (differences cls))
    ∧ usable_positions r
      = summary_usable_positions 6 (gap_positions cls) (ambiguous_positions cls).
Proof.
  apply (X9_two_sequences_summary_is_pair "s1" "s2"
           (list_ascii_of_string "ACGT-N") (list_ascii_of_string "ACTTAN") 6);
    [discriminate | reflexivity | reflexivity].
Defined.

(** ** The identity at its two ends *)

Lemma rounded_quotient_zero (u : Z) : 0 < u → rounded_quotient 0 u = S754_zero false.
Proof. intros Hu. destruct u; try lia. reflexivity. Qed.

Lemma rounded_quotient_same (u : Z) : 0 < u → rounded_quotient u u = float_of_int 1.
Proof.
  intros Hu. destruct u as [|p|p]; try lia.
  unfold rounded_quotient, exact_int, SFdiv, SFdiv_core_binary.
  replace (Zdigits2 (Z.pos p) + 0 - (Zdigits2 (Z.pos p) + 0)) with 0 by lia.
  change (Z.min (fexp prec emax 0) (0 - 0)) with (-53).
  change (0 - 0 - -53) with 53.
  change (0 <? 53) with true. cbv iota.
  rewrite Z.shiftl_mul_pow2 by lia.
  rewrite div_eucl_pair.
  rewrite (Z.mul_comm (Z.pos p)), Z.div_mul, Z.mod_mul by lia.
  unfold new_location. destruct (Z.even (Z.pos p)); reflexivity.
Qed.

(** X10. With usable columns the [identity] of a pair is a float, never
    the int [0]; it is exactly [100.0] when no usable column differs and
    exactly [0.0] when every usable column differs. *)
Theorem X10_identity_of_extremes (snps usable_positions : Z) :
  0 < usable_positions →
  (∃ f, identity_of snps usable_positions = Ok (PyFloat f))
  ∧ identity_of 0 usable_positions = Ok (PyFloat (float_of_int 100))
  ∧ identity_of usable_positions usable_positions = Ok (PyFloat (S754_zero false)).
Proof.
  intros Hpos. rewrite !identity_of_spec. unfold spec_identity.
  rewrite (proj2 (Z.ltb_lt 0 usable_positions)) by done. split_and!.
  - eauto.
  - by rewrite rounded_quotient_zero.
  - by rewrite rounded_quotient_same.
Qed.

Lemma X10_identity_of_extremes_witness :
  (∃ f, identity_of 1 3 = Ok (PyFloat f))
  ∧ identity_of 0 3 = Ok (PyFloat (float_of_int 100))
  ∧ identity_of 3 3 = Ok (PyFloat (S754_zero false)).
Proof. apply (X10_identity_of_extremes 1 3). lia. Defined.

(** X11. The identity of the summary is computed exactly when some column
    is usable; the guard keeps the division from raising, and the value
    lies between 0 and 100. *)
Theorem X11_overall_identity_range (sequences : alignment) (L : nat) :
  rectangular sequences L → sequences ≠ [] →
  ∃ cls v,
    find_differences sequences = Ok cls
    ∧ overall_identity (differences cls)
        (summary_usable_positions L (gap_positions cls) (ambiguous_positions cls)) = Ok v
    ∧ (v = None ↔
       summary_usable_positions L (gap_positions cls) (ambiguous_positions cls) = 0)
    ∧ ∀ f, v = Some f → ∃ q, SF2Q f = Some q ∧ (0 <= q)%Q ∧ (q <= 100)%Q.
Proof.
  intros Hrect Hne.
  destruct (classification_lengths sequences L Hrect) as (cls & Hfd & Hlen).
  assert (Hd : 0 ≤ Z.of_nat (length (differences cls))
               ≤ summary_usable_positions L (gap_positions cls) (ambiguous_positions cls))
    by (unfold summary_usable_positions; lia).
  exists cls.
  set (u := summary_usable_positions L (gap_positions cls) (ambiguous_positions cls)) in *.
  unfold overall_identity, int_truediv.
  destruct (0 <? u) eqn:Hpos.
  - apply Z.ltb_lt in Hpos. rewrite (proj2 (Z.eqb_neq u 0)) by lia.
    eexists. split; [done|]. split; [done|]. split; [split; [done|lia]|].
    intros f [= <-].
    pose proof (spec_identity_range (Z.of_nat (length (differences cls))) u Hd) as Hrange.
    unfold spec_identity in Hrange. rewrite (proj2 (Z.ltb_lt 0 u)) in Hrange by done.
    exact Hrange.
  - apply Z.ltb_ge in Hpos. exists None. split; [done|]. split; [done|].
    split; [split; [lia|done]|]. done.
Qed.

Lemma X11_overall_identity_range_witness :
  ∃ cls v,
    find_differences example_alignment = Ok cls
    ∧ overall_identity (differences cls)
        (summary_usable_positions 6 (gap_positions cls) (ambiguous_positions cls)) = Ok v
    ∧ (v = None ↔
       summary_usable_positions 6 (gap_positions cls) (ambiguous_positions cls) = 0)
    ∧ ∀ f, v = Some f → ∃ q, SF2Q f = Some q ∧ (0 <= q)%Q ∧ (q <= 100)%Q.
Proof.
  apply (X11_overall_identity_range example_alignment 6).
  - exact example_alignment_rectangular.
  - discriminate.
Defined.

(** ** The summary and the pairs *)

Lemma count_columns_negb (P : nat → bool) (L : nat) :
  count_columns (λ p, negb (P p)) L + count_columns P L = Z.of_nat L.
Proof.
  induction L as [|k IH]; [done|]. simpl count_columns. destruct (P k); simpl; lia.
Qed.

Lemma clean_column_spec (seq_list : list (list ascii)) (L p : nat) :
  Forall (λ s : list ascii, length s = L) seq_list → (p < L)%nat →
  clean_column seq_list p = true ↔
  ¬ column_has_gap seq_list p ∧ ¬ column_has_ambiguity seq_list p.
Proof.
  intros Hrect Hp. unfold clean_column. rewrite forallb_forall.
  rewrite Forall_forall in Hrect. split.
  - intros Hclean. split.
    + intros (s & Hs & Hc). apply list_elem_of_In, Hclean in Hs. rewrite Hc in Hs.
      by rewrite bool_decide_eq_true_2 in Hs by by apply upper_gap.
    + intros (s & c & Hs & Hc & Hamb). apply list_elem_of_In, Hclean in Hs.
      rewrite Hc in Hs. rewrite (bool_decide_eq_true_2 _ Hamb) in Hs.
      by destruct (bool_decide (upper c = gap_char)).
  - intros [Hgap Hamb] s Hs%list_elem_of_In.
    destruct (lookup_lt_is_Some_2 s p) as [c Hc]; [rewrite (Hrect s Hs); lia|].
    rewrite Hc. apply andb_true_iff. split; apply negb_true_iff, bool_decide_eq_false.
    + rewrite upper_gap. intros ->. apply Hgap. by exists s.
    + intros Hin. apply Hamb. by exists s, c.
Qed.

Lemma summary_usable_positions_clean (sequences : alignment) (L : nat)
    (cls : classification) :
  rectangular sequences L →
  classified (values sequences) (seq 0 L) cls →
  summary_usable_positions L (gap_positions cls) (ambiguous_positions cls)
  = count_columns (clean_column (values sequences)) L.
Proof.
  intros Hrect (Hg & Ha & _ & Sg & Sa & _).
  assert (Hlen : Z.of_nat (length (gap_positions cls ++ ambiguous_positions cls))
                 = count_columns (λ p, negb (clean_column (values sequences) p)) L).
  { apply length_count_columns.
    - apply NoDup_app. split_and!.
      + eapply sublist_NoDup; [apply NoDup_seq | exact Sg].
      + intros p Hp Hq. apply Hg in Hp. apply Ha in Hq. tauto.
      + eapply sublist_NoDup; [apply NoDup_seq | exact Sa].
    - intros p. rewrite elem_of_app. split.
      + intros [Hp|Hp].
        * apply Hg in Hp as [Hvis HG]. apply elem_of_seq in Hvis. split; [lia|].
          apply negb_true_iff, not_true_is_false.
          intros Hclean. apply (clean_column_spec _ L) in Hclean; [tauto|done|lia].
        * apply Ha in Hp as (Hvis & _ & HA). apply elem_of_seq in Hvis. split; [lia|].
          apply negb_true_iff, not_true_is_false.
          intros Hclean. apply (clean_column_spec _ L) in Hclean; [tauto|done|lia].
      + intros [Hp Hdirty]. apply negb_true_iff in Hdirty.
        destruct (decide (p ∈ gap_positions cls)) as [|Hng]; [by left|]. right.
        destruct (decide (p ∈ ambiguous_positions cls)) as [|Hna]; [done|]. exfalso.
        assert (Hvis : p ∈ seq 0 L) by (apply elem_of_seq; lia).
        assert (HG : ¬ column_has_gap (values sequences) p)
          by (intros HG; apply Hng, Hg; done).
        assert (HA : ¬ column_has_ambiguity (values sequences) p)
          by (intros HA; apply Hna, Ha; done).
        assert (Hclean : clean_column (values sequences) p = true)
          by (by apply (clean_column_spec _ L)).
        congruence. }
  rewrite length_app, Nat2Z.inj_add in Hlen.
  pose proof (count_columns_negb (clean_column (values sequences)) L).
  unfold summary_usable_positions. lia.
Qed.

Lemma clean_column_usable (seq_list : list (list ascii)) (s1 s2 : list ascii) (p : nat) :
  s1 ∈ seq_list → s2 ∈ seq_list →
  clean_column seq_list p = true → spec_usable_column s1 s2 p = true.
Proof.
  intros H1 H2 Hclean. unfold clean_column in Hclean. rewrite forallb_forall in Hclean.
  pose proof (Hclean s1 (proj1 (list_elem_of_In _ _) H1)) as Hc1.
  pose proof (Hclean s2 (proj1 (list_elem_of_In _ _) H2)) as Hc2.
  unfold spec_usable_column, spec_usable.
  destruct (s1 !! p) as [c1|]; [|done]. destruct (s2 !! p) as [c2|]; [|done].
  apply andb_true_iff in Hc1 as [-> ->]. apply andb_true_iff in Hc2 as [-> ->]. done.
Qed.

(** X12. A column that counts as usable in the summary is usable for every
    pair: on a rectangular alignment no record's [usable_positions] is
    below [align_len - len(gap_positions) - len(ambiguous_positions)]. *)
Theorem X12_summary_usable_le_pair_usable (sequences : alignment) (L : nat) :
  rectangular sequences L → NoDup (keys sequences) → sequences ≠ [] →
  ∃ cls pairwise_distances distance_matrix seq_names,
    find_differences sequences = Ok cls
    ∧ calculate_pairwise_distances sequences
      = Ok (pairwise_distances, distance_matrix, seq_names)
    ∧ ∀ r, r ∈ pairwise_distances →
        summary_usable_positions L (gap_positions cls) (ambiguous_positions cls)
        ≤ usable_positions r.
Proof.
  intros Hrect Hnd Hne.
  destruct (find_differences_spec sequences L Hrect) as (cls & Hfd & Hcls).
  assert (Hvals : values sequences ≠ []) by (destruct sequences; done).
  destruct (values sequences) as [|first others] eqn:Hv; [done|]. rewrite <- Hv in *.
  destruct (calculate_pairwise_distances_spec sequences L Hrect Hnd) as (dm & Hrun & _).
  exists cls. eexists _, dm, _. split; [done|]. split; [exact Hrun|].
  intros r Hr.
  apply elem_of_spec_records in Hr as (i & j & [nA sA] & [nB sB] & Hlt & Hi & Hj & ->).
  rewrite (summary_usable_positions_clean sequences L cls Hrect Hcls).
  simpl. unfold spec_usable_positions.
  rewrite (rectangular_lookup sequences L Hrect i nA sA Hi).
  apply count_columns_mono. intros p _. apply clean_column_usable.
  - apply list_elem_of_lookup. exists i. by apply (lookup_values sequences i nA).
  - apply list_elem_of_lookup. exists j. by apply (lookup_values sequences j nB).
Qed.

Lemma X12_summary_usable_le_pair_usable_witness :
  ∃ cls pairwise_distances distance_matrix seq_names,
    find_differences example_alignment = Ok cls
    ∧ calculate_pairwise_distances example_alignment
      = Ok (pairwise_distances, distance_matrix, seq_names)
    ∧ ∀ r, r ∈ pairwise_distances →
        summary_usable_positions 6 (gap_positions cls) (ambiguous_positions cls)
        ≤ usable_positions r.
Proof.
  apply (X12_summary_usable_le_pair_usable example_alignment 6).
  - exact example_alignment_rectangular.
  - exact example_alignment_NoDup.
  - discriminate.
Defined.

(** ** Pairs are compared without regard to the other sequences *)

(** X13. Pairs are compared without regard to the other sequences: when a
    sequence is appended to a rectangular alignment, the records of the
    result are the records there were before and, besides them, those
    whose second sequence is the new one. *)
Theorem X13_pair_records_survive_append (sequences : alignment) (L : nat)
    (name : string) (s : list ascii) :
  rectangular (sequences ++ [(name, s)]) L →
  NoDup (keys (sequences ++ [(name, s)])) →
  ∃ pds dm names pds' dm' names',
    calculate_pairwise_distances sequences = Ok (pds, dm, names)
    ∧ calculate_pairwise_distances (sequences ++ [(name, s)]) = Ok (pds', dm', names')
    ∧ ∀ r, r ∈ pds ↔ r ∈ pds' ∧ seq2 r ≠ name.
Proof.
  intros Hrect' Hnd'.
  assert (Hrect : rectangular sequences L).
  { unfold rectangular, values in *. rewrite fmap_app in Hrect'.
    by apply Forall_app in Hrect' as [? _]. }
  assert (Hnd : NoDup (keys sequences) ∧ name ∉ keys sequences).
  { unfold keys in *. rewrite fmap_app in Hnd'. apply NoDup_app in Hnd' as (? & Hfresh & _).
    split; [done|]. intros Hin. apply (Hfresh _ Hin). apply list_elem_of_here. }
  destruct Hnd as [Hnd Hfresh].
  destruct (calculate_pairwise_distances_spec sequences L Hrect Hnd) as (dm & Hrun & _).
  destruct (calculate_pairwise_distances_spec _ L Hrect' Hnd') as (dm' & Hrun' & _).
  eexists _, dm, _, _, dm', _. split; [exact Hrun|]. split; [exact Hrun'|].
  intros r. rewrite !elem_of_spec_records. split.
  - intros (i & j & a & b & Hlt & Hi & Hj & ->). split.
    + exists i, j, a, b. split_and!; try done; by apply lookup_app_l_Some.
    + simpl. intros Hname. apply Hfresh. apply list_elem_of_lookup. exists j.
      destruct b as [nB sB]. simpl in Hname. subst nB.
      by apply (lookup_keys sequences j name sB).
  - intros [(i & j & a & b & Hlt & Hi & Hj & ->) Hname]. simpl in Hname.
    assert (Hjlt : (j < length sequences)%nat).
    { destruct (decide (j < length sequences)%nat) as [|Hge]; [done|]. exfalso.
      apply lookup_lt_Some in Hj as Hjlen. rewrite length_app in Hjlen. simpl in Hjlen.
      assert (j = length sequences) as -> by lia.
      rewrite list_lookup_middle in Hj by done. injection Hj as <-. done. }
    exists i, j, a, b. split_and!; try done.
    + rewrite lookup_app_l in Hi by lia. done.
    + rewrite lookup_app_l in Hj by lia. done.
Qed.

Lemma X13_pair_records_survive_append_witness :
  ∃ pds dm names pds' dm' names',
    calculate_pairwise_distances single_alignment = Ok (pds, dm, names)
    ∧ calculate_pairwise_distances
        (single_alignment ++ [("s2"%string, list_ascii_of_string "AC-T")])
      = Ok (pds', dm', names')
    ∧ ∀ r, r ∈ pds ↔ r ∈ pds' ∧ seq2 r ≠ "s2"%string.
Proof.
  apply (X13_pair_records_survive_append single_alignment 4 "s2"
           (list_ascii_of_string "AC-T")).
  - unfold rectangular. simpl. by repeat constructor.
  - apply (bool_decide_unpack _). by vm_compute.
Defined.

(** ** The two scripts on two sequences *)

(** X14. With two sequences of one length the identity that
    [alignment_viewer_with_aligner.py] computes from the classifier's
    lists is the identity of the pair's record in
    [alignment_viewer_script.py], float for float; it is left out exactly
    when the record holds the int [0]. *)
Theorem X14_two_sequences_identity_agrees (a b : string) (sA sB : list ascii) (L : nat) :
  a ≠ b → length sA = L → length sB = L →
  ∃ cls r dm,
    find_differences [(a, sA); (b, sB)] = Ok cls
    ∧ calculate_pairwise_distances [(a, sA); (b, sB)] = Ok ([r], dm, [a; b])
    ∧ overall_identity (differences cls)
        (summary_usable_positions L (gap_positions cls) (ambiguous_positions cls))
      = Ok (match identity r with PyFloat f => Some f | PyInt _ => None end).
Proof.
  intros Hab HA HB.
  assert (Hrect : rectangular [(a, sA); (b, sB)] L).
  { unfold rectangular. simpl. by repeat constructor. }
  assert (Hnd : NoDup (keys [(a, sA); (b, sB)])).
  { simpl. apply NoDup_cons. split; [set_solver|]. apply NoDup_singleton. }
  destruct (find_differences_spec _ L Hrect) as (cls & Hfd & Hcls). simpl in Hcls.
  destruct (calculate_pairwise_distances_spec _ L Hrect Hnd) as (dm & Hrun & _).
  destruct (pair_classified_counts sA sB L HA HB cls Hcls) as [Hd Hu].
  exists cls, (spec_record (a, sA) (b, sB)), dm. split; [done|]. split; [done|].
  unfold overall_identity. rewrite Hd, Hu.
  unfold spec_record, spec_identity, int_truediv. cbn [identity fst snd].
  destruct (0 <? spec_usable_positions sA sB) eqn:Hpos; [|done].
  apply Z.ltb_lt in Hpos.
  by rewrite (proj2 (Z.eqb_neq (spec_usable_positions sA sB) 0)) by lia.
Qed.

Lemma X14_two_sequences_identity_agrees_witness :
  ∃ cls r dm,
    find_differences example_alignment = Ok cls
    ∧ calculate_pairwise_distances example_alignment
      = Ok ([r], dm, ["s1"%string; "s2"%string])
    ∧ overall_identity (differences cls)
        (summary_usable_positions 6 (gap_positions cls) (ambiguous_positions cls))
      = Ok (match identity r with PyFloat f => Some f | PyInt _ => None end).
Proof.
  apply (X14_two_sequences_identity_agrees "s1" "s2"
           (list_ascii_of_string "ACGT-N") (list_ascii_of_string "ACTTAN") 6);
    [discriminate | reflexivity | reflexivity].
Defined.

(** ** The FASTA reader *)

Lemma fold_left_inv {S A : Type} (I : list A → S → Prop) (f : S → A → S)
    (xs : list A) (s : S) :
  I [] s →
  (∀ visited x rest s0, xs = visited ++ x :: rest → I visited s0 →
     I (visited ++ [x]) (f s0 x)) →
  I xs (fold_left f xs s).
Proof.
  intros Hinit Hstep.
  assert (Hgen : ∀ done todo, xs = done ++ todo →
            ∀ s0, I done s0 → I xs (fold_left f todo s0)).
  { intros done todo. revert done. induction todo as [|x rest IH]; intros done Hsplit s0 Hs0.
    - rewrite app_nil_r in Hsplit. by subst.
    - simpl. apply (IH (done ++ [x])).
      + by rewrite <- app_assoc.
      + by apply (Hstep done x rest). }
  by apply (Hgen [] xs).
Qed.

Lemma isspace_newline : isspace newline = true.
Proof. reflexivity. Qed.

Lemma isspace_header_mark : isspace header_mark = false.
Proof. reflexivity. Qed.

Lemma elem_of_lstrip (c : ascii) (s : list ascii) : c ∈ lstrip s → c ∈ s.
Proof.
  induction s as [|d rest IH]; simpl; [done|].
  destruct (isspace d); [|done]. intros Hc. apply elem_of_cons. right. by apply IH.
Qed.

Lemma elem_of_rstrip (c : ascii) (s : list ascii) : c ∈ rstrip s → c ∈ s.
Proof.
  induction s as [|d rest IH]; simpl; [done|].
  destruct (rstrip rest) as [|k kept].
  - destruct (isspace d); [by intros ?%elem_of_nil|].
    intros ->%list_elem_of_singleton. apply list_elem_of_here.
  - intros [->|Hc]%elem_of_cons; [apply list_elem_of_here|].
    apply list_elem_of_further. by apply IH.
Qed.

Lemma elem_of_strip (c : ascii) (s : list ascii) : c ∈ strip s → c ∈ s.
Proof. intros Hc. by apply elem_of_lstrip, elem_of_rstrip. Qed.

Lemma str_split_nonempty (sep : ascii) (s : list ascii) : str_split sep s ≠ [].
Proof.
  destruct s as [|c rest]; simpl; [done|].
  destruct (decide (c = sep)); [done|]. by destruct (str_split sep rest).
Qed.

Lemma str_split_no_sep (sep : ascii) (s : list ascii) :
  Forall (λ line, sep ∉ line) (str_split sep s).
Proof.
  induction s as [|c rest IH]; simpl.
  - constructor; [by intros ?%elem_of_nil|constructor].
  - destruct (decide (c = sep)).
    + constructor; [by intros ?%elem_of_nil|done].
    + destruct (str_split sep rest) as [|line lines].
      * constructor; [|constructor]. by intros ?%list_elem_of_singleton.
      * apply Forall_cons in IH as [Hline Hlines]. constructor; [|done].
        intros [->|?]%elem_of_cons; done.
Qed.

Lemma keys_setitem (sequences : alignment) (name : string) (v : list ascii) :
  keys (setitem sequences name v)
  = if decide (name ∈ keys sequences) then keys sequences
    else keys sequences ++ [name].
Proof.
  induction sequences as [|[k old] rest IH]; [done|]. cbn [setitem].
  change (keys ((k, old) :: rest)) with (k :: keys rest).
  destruct (decide (k = name)) as [->|Hne].
  - by rewrite decide_True by apply list_elem_of_here.
  - change (keys ((k, old) :: setitem rest name v))
      with (k :: keys (setitem rest name v)). rewrite IH.
    destruct (decide (name ∈ keys rest)) as [Hin|Hin].
    + by rewrite decide_True by by apply list_elem_of_further.
    + rewrite decide_False; [done|]. intros [?|?]%elem_of_cons; congruence.
Qed.

Lemma elem_of_setitem (sequences : alignment) (name k : string) (v s : list ascii) :
  (k, s) ∈ setitem sequences name v → (k, s) ∈ sequences ∨ (k = name ∧ s = v).
Proof.
  induction sequences as [|[k' old] rest IH]; simpl.
  - intros [= -> ->]%list_elem_of_singleton. by right.
  - destruct (decide (k' = name)) as [->|Hne].
    + intros [[= -> ->]|Hin]%elem_of_cons; [by right|].
      left. by apply list_elem_of_further.
    + intros [[= -> ->]|Hin]%elem_of_cons; [left; apply list_elem_of_here|].
      destruct (IH Hin) as [?|?]; [left; by apply list_elem_of_further|by right].
Qed.

Lemma NoDup_keys_setitem (sequences : alignment) (name : string) (v : list ascii) :
  NoDup (keys sequences) → NoDup (keys (setitem sequences name v)).
Proof.
  intros Hnd. rewrite keys_setitem. destruct (decide _) as [Hin|Hin]; [done|].
  apply NoDup_app. split_and!; [done| |apply NoDup_singleton].
  intros k Hk ->%list_elem_of_singleton. done.
Qed.

Lemma keys_store_current (sequences : alignment) (current_name : option string)
    (current_seq : list (list ascii)) (name : string) :
  name ∈ keys (store_current sequences current_name current_seq) ↔
  name ∈ keys sequences ∨ (current_name = Some name ∧ name ≠ ""%string).
Proof.
  unfold store_current. destruct current_name as [cur|]; [|naive_solver].
  case_bool_decide as Hcur; [naive_solver|].
  rewrite keys_setitem. destruct (decide (cur ∈ keys sequences)).
  - naive_solver.
  - rewrite elem_of_app, list_elem_of_singleton. naive_solver.
Qed.

Lemma NoDup_keys_store_current (sequences : alignment) (current_name : option string)
    (current_seq : list (list ascii)) :
  NoDup (keys sequences) →
  NoDup (keys (store_current sequences current_name current_seq)).
Proof.
  intros Hnd. unfold store_current. destruct current_name as [cur|]; [|done].
  case_bool_decide; [done|]. by apply NoDup_keys_setitem.
Qed.

Lemma startswith_mark_spec (line : list ascii) :
  startswith_mark line = true ↔ ∃ rest, line = header_mark :: rest.
Proof.
  destruct line as [|c rest]; simpl.
  - split; [done|]. by intros [? ?].
  - rewrite bool_decide_eq_true. split; [intros ->; eauto|]. by intros [? [= -> _]].
Qed.

Lemma elem_of_concat_lines (c : ascii) (lines : list (list ascii)) :
  Forall (λ line, c ∉ line) lines → c ∉ concat lines.
Proof.
  induction 1 as [|line rest Hline _ IH]; simpl; [by intros ?%elem_of_nil|].
  by intros [?|?]%elem_of_app.
Qed.

Lemma read_line_inv (visited : list (list ascii)) (line : list ascii)
    (st : list (string * list ascii) * option string * list (list ascii)) :
  newline ∉ line → reader_inv visited st →
  reader_inv (visited ++ [line]) (read_line st line).
Proof.
  destruct st as [[sequences current_name] current_seq].
  intros Hline (Hnd & Hkeys & Hvals & Hcur & Hseq). unfold read_line.
  assert (Hstrip : newline ∉ strip line) by (intros ?%elem_of_strip; done).
  destruct (startswith_mark (strip line)) eqn:Hmark; unfold reader_inv.
  - apply startswith_mark_spec in Hmark as [rest Hrest]. rewrite Hrest in *.
    simpl drop. split_and!.
    + by apply NoDup_keys_store_current.
    + intros name. rewrite keys_store_current, Hkeys.
      setoid_rewrite elem_of_app. setoid_rewrite list_elem_of_singleton. split.
      * intros [[Hname (l & Hl & Hs)]|[[= <-] Hname]].
        -- split; [done|]. exists l. eauto.
        -- split; [done|]. exists line. split; [by right|].
           by rewrite Hrest, list_ascii_of_string_of_list_ascii.
      * intros [Hname (l & [Hl| ->] & Hs)].
        -- left. split; [done|]. eauto.
        -- right. split; [|done]. f_equal. rewrite Hrest in Hs.
           injection Hs as ->. rewrite drop_0. apply string_of_list_ascii_of_string.
    + intros name s Hin. unfold store_current in Hin.
      destruct current_name as [cur|]; [|by apply Hvals].
      case_bool_decide; [by apply Hvals|].
      apply elem_of_setitem in Hin as [Hin|[-> ->]]; [by apply Hvals|].
      split; [by apply Hcur|]. by apply elem_of_concat_lines.
    + intros name [= <-]. rewrite list_ascii_of_string_of_list_ascii.
      intros Hin. apply Hstrip. by apply list_elem_of_further.
    + constructor.
  - split_and!; try done.
    + intros name. rewrite Hkeys.
      setoid_rewrite elem_of_app. setoid_rewrite list_elem_of_singleton. split.
      * intros [Hname (l & Hl & Hs)]. split; [done|]. exists l. eauto.
      * intros [Hname (l & [Hl| ->] & Hs)]; [split; [done|]; eauto|].
        rewrite Hs in Hmark. by vm_compute in Hmark.
    + apply Forall_app. split; [done|]. by constructor.
Qed.

Lemma read_lines_inv (lines : list (list ascii)) :
  Forall (λ line, newline ∉ line) lines →
  reader_inv lines (fold_left read_line lines ([], None, [])).
Proof.
  intros Hlines. apply fold_left_inv.
  - unfold reader_inv. split_and!.
    + constructor.
    + intros name. split.
      * intros [?%elem_of_nil|[? _]]; done.
      * intros [_ (l & ?%elem_of_nil & _)]. done.
    + intros name s ?%elem_of_nil. done.
    + done.
    + constructor.
  - intros visited x rest s0 Hsplit Hs0. apply read_line_inv; [|done].
    rewrite Hsplit in Hlines. apply Forall_app in Hlines as [_ Hlines].
    by apply Forall_cons in Hlines as [? _].
Qed.

Lemma NoDup_keys_read (fasta_content : list ascii) :
  NoDup (keys (read_aligned_fasta_from_string fasta_content)).
Proof.
  unfold read_aligned_fasta_from_string, read_lines.
  pose proof (read_lines_inv _ (str_split_no_sep newline (strip fasta_content))) as Hinv.
  destruct (fold_left read_line (str_split newline (strip fasta_content)) ([], None, []))
    as [[sequences current_name] current_seq].
  destruct Hinv as (Hnd & _). by apply NoDup_keys_store_current.
Qed.

(** X15. Whatever the text, the keys of the dict read from it are distinct
    and are the non-empty names of its header lines: [name] is a key
    exactly when it is not empty and some line, stripped, is [>name].
    Neither a key nor a sequence holds a line break. *)
Theorem X15_read_aligned_fasta_from_string_keys (fasta_content : list ascii) :
  let sequences := read_aligned_fasta_from_string fasta_content in
  NoDup (keys sequences)
  ∧ (∀ name, name ∈ keys sequences ↔
       name ≠ ""%string
       ∧ ∃ line, line ∈ str_split newline (strip fasta_content)
                 ∧ strip line = header_mark :: list_ascii_of_string name)
  ∧ (∀ name s, (name, s) ∈ sequences →
       (newline ∉ list_ascii_of_string name) ∧ (newline ∉ s)).
Proof.
  unfold read_aligned_fasta_from_string, read_lines.
  set (lines := str_split newline (strip fasta_content)).
  pose proof (read_lines_inv lines (str_split_no_sep newline (strip fasta_content)))
    as Hinv.
  destruct (fold_left read_line lines ([], None, []))
    as [[sequences current_name] current_seq].
  destruct Hinv as (Hnd & Hkeys & Hvals & Hcur & Hseq). simpl. split_and!.
  - by apply NoDup_keys_store_current.
  - intros name. by rewrite keys_store_current, Hkeys.
  - intros name s Hin. unfold store_current in Hin.
    destruct current_name as [cur|]; [|by apply Hvals].
    case_bool_decide; [by apply Hvals|].
    apply elem_of_setitem in Hin as [Hin|[-> ->]]; [by apply Hvals|].
    split; [by apply Hcur|]. by apply elem_of_concat_lines.
Qed.

(** ** The outer [strip()] changes nothing *)

#[local] Instance same_reading_equiv : Equivalence same_reading.
Proof.
  split.
  - by intros st.
  - intros st st' (? & ? & ?). by split_and!.
  - intros st st' st'' (? & ? & ?) (? & ? & ?). split_and!; congruence.
Qed.

Lemma feed_str_split (s pending : list ascii)
    (st : list (string * list ascii) * option string * list (list ascii)) :
  fold_left read_line
    (match str_split newline s with
     | line :: lines => (pending ++ line) :: lines
     | [] => []
     end) st
  = feed st pending s.
Proof.
  revert pending st. induction s as [|c rest IH]; intros pending st; simpl.
  - by rewrite app_nil_r.
  - destruct (decide (c = newline)) as [->|Hc].
    + rewrite app_nil_r. simpl. rewrite <- IH.
      pose proof (str_split_nonempty newline rest). by destruct (str_split newline rest).
    + rewrite <- IH. pose proof (str_split_nonempty newline rest).
      destruct (str_split newline rest); [done|]. by rewrite <- app_assoc.
Qed.

Lemma read_line_same_reading (line : list ascii)
    (st st' : list (string * list ascii) * option string * list (list ascii)) :
  same_reading st st' → same_reading (read_line st line) (read_line st' line).
Proof.
  destruct st as [[d cur] acc], st' as [[d' cur'] acc'].
  intros (Hd & Hcur & Hacc). simpl in *. subst d' cur'. unfold read_line.
  destruct (startswith_mark (strip line)).
  - split_and!; try done. simpl. unfold store_current.
    destruct cur; [|done]. case_bool_decide; [done|]. by rewrite Hacc.
  - split_and!; try done. simpl. by rewrite !concat_app, Hacc.
Qed.

Lemma feed_same_reading (s pending : list ascii)
    (st st' : list (string * list ascii) * option string * list (list ascii)) :
  same_reading st st' → same_reading (feed st pending s) (feed st' pending s).
Proof.
  revert pending st st'. induction s as [|c rest IH]; intros pending st st' Hst; simpl.
  - by apply read_line_same_reading.
  - destruct (decide (c = newline)); apply IH; [by apply read_line_same_reading|done].
Qed.

Lemma read_line_blank (line : list ascii)
    (st : list (string * list ascii) * option string * list (list ascii)) :
  strip line = [] → same_reading (read_line st line) st.
Proof.
  destruct st as [[d cur] acc]. intros Hline. unfold read_line. rewrite Hline. simpl.
  split_and!; try done. simpl. by rewrite concat_app, app_nil_r.
Qed.

Lemma read_line_strip_eq (line line' : list ascii)
    (st : list (string * list ascii) * option string * list (list ascii)) :
  strip line = strip line' → read_line st line = read_line st line'.
Proof. destruct st as [[d cur] acc]. intros Heq. unfold read_line. by rewrite Heq. Qed.

Lemma rstrip_snoc_space (s : list ascii) (c : ascii) :
  isspace c = true → rstrip (s ++ [c]) = rstrip s.
Proof.
  intros Hc. induction s as [|d rest IH]; simpl.
  - by rewrite Hc.
  - by rewrite IH.
Qed.

Lemma lstrip_snoc (s : list ascii) (c : ascii) :
  lstrip (s ++ [c])
  = if bool_decide (lstrip s = []) then lstrip [c] else lstrip s ++ [c].
Proof.
  induction s as [|d rest IH]; [done|]. simpl.
  destruct (isspace d); [done|]. done.
Qed.

Lemma strip_snoc_space (s : list ascii) (c : ascii) :
  isspace c = true → strip (s ++ [c]) = strip s.
Proof.
  intros Hc. unfold strip. rewrite lstrip_snoc. case_bool_decide as Hs.
  - rewrite Hs. simpl. by rewrite Hc.
  - by apply rstrip_snoc_space.
Qed.

Lemma lstrip_app_eq (s s' t : list ascii) :
  lstrip s = lstrip s' → lstrip (s ++ t) = lstrip (s' ++ t).
Proof.
  assert (Hgen : ∀ s, lstrip (s ++ t) = if bool_decide (lstrip s = []) then lstrip t
                                          else lstrip s ++ t).
  { clear. induction s as [|d rest IH]; [done|]. simpl. by destruct (isspace d). }
  intros Heq. by rewrite !Hgen, Heq.
Qed.

Lemma feed_lstrip_pending (s pending pending' : list ascii)
    (st : list (string * list ascii) * option string * list (list ascii)) :
  lstrip pending = lstrip pending' → feed st pending s = feed st pending' s.
Proof.
  revert pending pending' st. induction s as [|c rest IH]; intros pending pending' st Heq; simpl.
  - apply read_line_strip_eq. unfold strip. by rewrite Heq.
  - destruct (decide (c = newline)).
    + f_equal. apply read_line_strip_eq. unfold strip. by rewrite Heq.
    + apply IH. by apply lstrip_app_eq.
Qed.

Lemma feed_blank (s pending : list ascii)
    (st : list (string * list ascii) * option string * list (list ascii)) :
  Forall (λ c, isspace c = true) s →
  same_reading (feed st pending s) (read_line st pending).
Proof.
  intros Hs. revert pending st. induction Hs as [|c rest Hc _ IH]; intros pending st; simpl.
  - done.
  - destruct (decide (c = newline)).
    + rewrite IH. by apply read_line_blank.
    + rewrite IH. by rewrite (read_line_strip_eq (pending ++ [c]) pending)
        by by apply strip_snoc_space.
Qed.

Lemma rstrip_nil_spaces (s : list ascii) :
  rstrip s = [] → Forall (λ c, isspace c = true) s.
Proof.
  induction s as [|c rest IH]; simpl; [constructor|].
  destruct (rstrip rest) as [|k kept]; [|done].
  destruct (isspace c) eqn:Hc; [|done]. intros _. constructor; [done|by apply IH].
Qed.

Lemma feed_rstrip (s pending : list ascii)
    (st : list (string * list ascii) * option string * list (list ascii)) :
  same_reading (feed st pending (rstrip s)) (feed st pending s).
Proof.
  revert pending st. induction s as [|c rest IH]; intros pending st; [done|].
  simpl rstrip. destruct (rstrip rest) as [|k kept] eqn:Hrest.
  - apply rstrip_nil_spaces in Hrest.
    destruct (isspace c) eqn:Hc.
    + symmetry. apply (feed_blank (c :: rest)). by constructor.
    + assert (Hnl : c ≠ newline) by (intros ->; done).
      simpl. destruct (decide (c = newline)); [done|]. symmetry. by apply feed_blank.
  - simpl. destruct (decide (c = newline)); apply IH.
Qed.

Lemma feed_lstrip (s : list ascii)
    (st : list (string * list ascii) * option string * list (list ascii)) :
  same_reading (feed st [] (lstrip s)) (feed st [] s).
Proof.
  assert (Hgen : ∀ s st pending, lstrip pending = [] →
            same_reading (feed st [] (lstrip s)) (feed st pending s)).
  { clear. induction s as [|c rest IH]; intros st pending Hp.
    - simpl. rewrite !read_line_blank; [done| |done]. unfold strip. by rewrite Hp.
    - simpl lstrip. destruct (isspace c) eqn:Hc.
      + simpl. destruct (decide (c = newline)).
        * rewrite (IH st [] eq_refl). apply feed_same_reading. symmetry.
          apply read_line_blank. unfold strip. by rewrite Hp.
        * apply IH. rewrite lstrip_snoc, Hp. simpl. by rewrite Hc.
      + by rewrite (feed_lstrip_pending (c :: rest) pending []). }
  intros. by apply Hgen.
Qed.

Lemma read_lines_feed (s : list ascii) :
  read_lines (str_split newline s)
  = (let '(sequences, current_name, current_seq) := feed ([], None, []) [] s in
     store_current sequences current_name current_seq).
Proof.
  unfold read_lines. rewrite <- feed_str_split.
  pose proof (str_split_nonempty newline s). by destruct (str_split newline s).
Qed.

Lemma feed_strip (s : list ascii)
    (st : list (string * list ascii) * option string * list (list ascii)) :
  same_reading (feed st [] (strip s)) (feed st [] s).
Proof. unfold strip. by rewrite feed_rstrip, feed_lstrip. Qed.

Lemma store_same_reading
    (st st' : list (string * list ascii) * option string * list (list ascii)) :
  same_reading st st' →
  (let '(sequences, current_name, current_seq) := st in
   store_current sequences current_name current_seq)
  = (let '(sequences, current_name, current_seq) := st' in
     store_current sequences current_name current_seq).
Proof.
  destruct st as [[d cur] acc], st' as [[d' cur'] acc'].
  intros (Hd & Hcur & Hacc). simpl in *. subst d' cur'.
  unfold store_current. destruct cur; [|done]. case_bool_decide; [done|]. by rewrite Hacc.
Qed.

(** X16. The [strip()] applied to the whole text is redundant: reading the
    lines of the text as they are gives the same dict. *)
Theorem X16_read_aligned_fasta_from_string_strip (fasta_content : list ascii) :
  read_aligned_fasta_from_string fasta_content
  = read_lines (str_split newline fasta_content).
Proof.
  unfold read_aligned_fasta_from_string. rewrite !read_lines_feed.
  apply store_same_reading, feed_strip.
Qed.

(** ** Reading a well-formed FASTA text *)

Lemma str_split_unlines (lines : list (list ascii)) :
  Forall (λ line, newline ∉ line) lines →
  str_split newline (concat ((λ line, line ++ [newline]) <$> lines)) = lines ++ [[]].
Proof.
  induction 1 as [|line rest Hline _ IH]; [done|].
  rewrite fmap_cons. simpl concat. rewrite <- app_assoc.
  change ([newline] ++ ?x) with (newline :: x).
  induction line as [|c line IHline]; cbn [str_split app].
  - rewrite decide_True by done. by rewrite IH.
  - rewrite decide_False by (intros ->; apply Hline, list_elem_of_here).
    rewrite IHline by (intros ?; apply Hline; by apply list_elem_of_further). done.
Qed.

Lemma fold_left_setitem_fresh (records : list (string * list (list ascii)))
    (f : list (list ascii) → list ascii) (sequences : alignment) :
  NoDup (keys sequences ++ records.*1) →
  fold_left (λ d (r : string * list (list ascii)), setitem d r.1 (f r.2)) records sequences
  = sequences ++ ((λ r : string * list (list ascii), (r.1, f r.2)) <$> records).
Proof.
  revert sequences. induction records as [|r rest IH]; intros sequences Hnd; simpl.
  - by rewrite app_nil_r.
  - assert (Hset : setitem sequences r.1 (f r.2) = sequences ++ [(r.1, f r.2)]).
    { apply NoDup_app in Hnd as (_ & Hfresh & _).
      assert (Hr : r.1 ∉ keys sequences).
      { intros Hin. apply (Hfresh _ Hin). apply list_elem_of_here. }
      clear -Hr. induction sequences as [|[k old] d IHd]; [done|]. simpl.
      rewrite decide_False by (intros ->; apply Hr, list_elem_of_here).
      rewrite IHd; [done|]. intros Hin. apply Hr. by apply list_elem_of_further. }
    rewrite Hset, IH.
    + by rewrite <- app_assoc.
    + unfold keys. rewrite fmap_app. simpl. rewrite <- app_assoc. exact Hnd.
Qed.

Lemma strip_header (name : string) :
  rstrip (list_ascii_of_string name) = list_ascii_of_string name →
  strip (header_mark :: list_ascii_of_string name)
  = header_mark :: list_ascii_of_string name.
Proof.
  intros Hname. unfold strip.
  change (lstrip (header_mark :: ?l)) with (header_mark :: l).
  cbn [rstrip]. rewrite Hname. by destruct (list_ascii_of_string name).
Qed.

Lemma read_sequence_lines (lines : list (list ascii)) (sequences : alignment)
    (current_name : option string) (current_seq : list (list ascii)) :
  Forall (λ line, (newline ∉ line) ∧ startswith_mark (strip line) = false) lines →
  fold_left read_line lines (sequences, current_name, current_seq)
  = (sequences, current_name, current_seq ++ (strip <$> lines)).
Proof.
  intros Hlines. revert current_seq.
  induction Hlines as [|line rest [_ Hline] _ IH]; intros current_seq; simpl.
  - by rewrite app_nil_r.
  - rewrite Hline, IH. by rewrite <- app_assoc.
Qed.

Lemma read_records (records : list (string * list (list ascii)))
    (sequences : alignment) (current_name : option string)
    (current_seq : list (list ascii)) :
  Forall well_formed_record records →
  (let '(d, cur, acc) :=
     fold_left read_line (fasta_lines records ++ [[]])
       (sequences, current_name, current_seq) in
   store_current d cur acc)
  = fold_left (λ d (r : string * list (list ascii)),
                 setitem d r.1 (concat (strip <$> r.2)))
      records (store_current sequences current_name current_seq).
Proof.
  intros Hwf. revert sequences current_name current_seq.
  induction Hwf as [|[name lines] rest (Hne & _ & Hname & Hlines) _ IH];
    intros sequences current_name current_seq.
  - simpl. unfold store_current. destruct current_name; [|done].
    case_bool_decide; [done|]. by rewrite concat_app, app_nil_r.
  - simpl in Hne, Hname, Hlines. unfold fasta_lines. rewrite bind_cons.
    fold (fasta_lines rest). cbn [fst snd].
    rewrite <- !app_assoc. simpl app. cbn [fold_left].
    unfold read_line at 2. rewrite (strip_header name Hname). simpl startswith_mark.
    cbv iota. change (drop 1 (header_mark :: ?l)) with l. cbn [fst snd].
    rewrite string_of_list_ascii_of_string.
    rewrite fold_left_app, (read_sequence_lines lines) by done.
    simpl app.
    rewrite (IH _ (Some name) (strip <$> lines)). f_equal.
    unfold store_current at 1. by rewrite bool_decide_eq_false_2.
Qed.

(** X17. A FASTA text written from well-formed records with distinct names
    is read back record by record, in order, the lines of each sequence
    stripped and joined. *)
Theorem X17_read_aligned_fasta_from_string_fasta_text
    (records : list (string * list (list ascii))) :
  Forall well_formed_record records → NoDup records.*1 →
  read_aligned_fasta_from_string (fasta_text records)
  = (λ r : string * list (list ascii), (r.1, concat (strip <$> r.2))) <$> records.
Proof.
  intros Hwf Hnd. unfold read_aligned_fasta_from_string.
  transitivity (read_lines (str_split newline (fasta_text records)));
    [rewrite !read_lines_feed; apply store_same_reading, feed_strip|].
  unfold read_lines, fasta_text. rewrite str_split_unlines.
  - rewrite (read_records records [] None []) by done.
    exact (fold_left_setitem_fresh records (λ l, concat (strip <$> l)) [] Hnd).
  - unfold fasta_lines. apply Forall_bind. eapply Forall_impl; [exact Hwf|].
    intros [name lines] (_ & Hname & _ & Hlines). simpl in *. constructor.
    + intros [Hc|Hc]%elem_of_cons; [discriminate|done].
    + eapply Forall_impl; [exact Hlines|]. by intros line [? _].
Qed.

Lemma example_records_well_formed : Forall well_formed_record example_records.
Proof.
  assert (Hrecord : ∀ (name : string) (line : list ascii),
            bool_decide (name ≠ ""%string
                         ∧ (newline ∉ list_ascii_of_string name)
                         ∧ rstrip (list_ascii_of_string name) = list_ascii_of_string name
                         ∧ (newline ∉ line)
                         ∧ startswith_mark (strip line) = false) = true →
            well_formed_record (name, [line])).
  { intros name line (? & ? & ? & ? & ?)%bool_decide_eq_true.
    split_and!; try done. by repeat constructor. }
  unfold example_records.
  apply List.Forall_cons; [by apply Hrecord|].
  apply List.Forall_cons; [by apply Hrecord|]. apply List.Forall_nil.
Qed.

Lemma X17_read_aligned_fasta_from_string_fasta_text_witness :
  read_aligned_fasta_from_string (fasta_text example_records)
  = (λ r : string * list (list ascii), (r.1, concat (strip <$> r.2)))
      <$> example_records.
Proof.
  apply X17_read_aligned_fasta_from_string_fasta_text.
  - exact example_records_well_formed.
  - apply (bool_decide_unpack _). by vm_compute.
Defined.

Example read_example_fasta :
  read_aligned_fasta_from_string example_fasta = example_alignment.
Proof. by vm_compute. Qed.

(** ** From the uploaded text to the results *)

(** X18. Whatever the uploaded text, once the caller's two checks have
    passed, the sequence count and [check_if_aligned], the dict has
    distinct keys, at least two sequences and one sequence length, so both
    functions return, and return what the specification asks. *)
Theorem X18_checked_upload_is_compared (content : list ascii) :
  let sequences := read_aligned_fasta_from_string content in
  check_sequence_count sequences = Compare →
  check_if_aligned sequences = true →
  ∃ L cls dm,
    NoDup (keys sequences) ∧ rectangular sequences L ∧ (2 ≤ length sequences)%nat
    ∧ find_differences sequences = Ok cls
    ∧ classified (values sequences) (seq 0 L) cls
    ∧ calculate_pairwise_distances sequences
      = Ok ((λ ab, spec_record ab.1 ab.2) <$> all_pairs sequences, dm, keys sequences)
    ∧ matrix_inv sequences (λ i j, (i < j)%nat) dm.
Proof.
  intros sequences Hcount Haligned.
  pose proof (NoDup_keys_read content) as Hnd. fold sequences in Hnd.
  apply check_if_aligned_true in Haligned as [Hne [L Hrect]].
  unfold check_sequence_count in Hcount.
  rewrite bool_decide_eq_false_2 in Hcount by done.
  case_bool_decide as Hlen; [done|].
  destruct (find_differences_spec sequences L Hrect) as (cls & Hfd & Hcls).
  destruct (calculate_pairwise_distances_spec sequences L Hrect Hnd) as (dm & Hrun & Hdm).
  exists L, cls, dm. split_and!; try done; [lia|].
  destruct sequences; done.
Qed.

Lemma X18_checked_upload_is_compared_witness :
  let sequences := read_aligned_fasta_from_string example_fasta in
  ∃ L cls dm,
    NoDup (keys sequences) ∧ rectangular sequences L ∧ (2 ≤ length sequences)%nat
    ∧ find_differences sequences = Ok cls
    ∧ classified (values sequences) (seq 0 L) cls
    ∧ calculate_pairwise_distances sequences
      = Ok ((λ ab, spec_record ab.1 ab.2) <$> all_pairs sequences, dm, keys sequences)
    ∧ matrix_inv sequences (λ i j, (i < j)%nat) dm.
Proof.
  apply (X18_checked_upload_is_compared example_fasta); vm_compute; reflexivity.
Defined.

(** ** The heatmap of [generate_html_visualization] *)

Lemma fold_left_min_le (l : list Z) (x : Z) :
  fold_left Z.min l x ≤ x ∧ ∀ y, y ∈ l → fold_left Z.min l x ≤ y.
Proof.
  revert x. induction l as [|z rest IH]; intros x; simpl.
  - split; [lia|]. by intros y ?%elem_of_nil.
  - destruct (IH (Z.min x z)) as [Hx Hrest]. split; [lia|].
    intros y [->|Hy]%elem_of_cons; [lia|by apply Hrest].
Qed.

Lemma fold_left_max_ge (l : list Z) (x : Z) :
  x ≤ fold_left Z.max l x ∧ ∀ y, y ∈ l → y ≤ fold_left Z.max l x.
Proof.
  revert x. induction l as [|z rest IH]; intros x; simpl.
  - split; [lia|]. by intros y ?%elem_of_nil.
  - destruct (IH (Z.max x z)) as [Hx Hrest]. split; [lia|].
    intros y [->|Hy]%elem_of_cons; [lia|by apply Hrest].
Qed.

Lemma min_max_bounds (l : list Z) (x : Z) :
  x ∈ l → min_or_0 l ≤ x ≤ max_or_0 l.
Proof.
  destruct l as [|z rest]; [by intros ?%elem_of_nil|]. simpl.
  pose proof (fold_left_min_le rest z) as [Hmin Hmin'].
  pose proof (fold_left_max_ge rest z) as [Hmax Hmax'].
  intros [->|Hx]%elem_of_cons; [lia|].
  specialize (Hmin' x Hx). specialize (Hmax' x Hx). lia.
Qed.

(** X19. For the matrix and the records of a rectangular alignment, the
    colour ratio of a heatmap cell off the diagonal is computed without
    [KeyError] or [ZeroDivisionError] and lies between 0 and 1; on the
    diagonal the matrix has no entry and the lookup would raise
    [KeyError], which is why the loop skips it. *)
Theorem X19_heatmap_ratio_range (sequences : alignment) (L : nat) :
  rectangular sequences L → NoDup (keys sequences) →
  ∃ pairwise_distances distance_matrix seq_names,
    calculate_pairwise_distances sequences
      = Ok (pairwise_distances, distance_matrix, seq_names)
    ∧ ∀ i j name1 name2,
        seq_names !! i = Some name1 → seq_names !! j = Some name2 →
        if decide (i = j)
        then heatmap_ratio pairwise_distances distance_matrix name1 name2
             = Err KeyError
        else ∃ ratio q,
            heatmap_ratio pairwise_distances distance_matrix name1 name2 = Ok ratio
            ∧ pynum_value ratio = Some q ∧ (0 <= q)%Q ∧ (q <= 1)%Q.
Proof.
  intros Hrect Hnd.
  destruct (calculate_pairwise_distances_spec sequences L Hrect Hnd)
    as (dm & Hrun & Hrows & Hent).
  eexists _, dm, _. split; [exact Hrun|].
  intros i j name1 name2 Hi Hj.
  unfold keys in Hi, Hj. rewrite list_lookup_fmap in Hi, Hj.
  destruct (sequences !! i) as [[n1 s1]|] eqn:Hsi; [|done].
  destruct (sequences !! j) as [[n2 s2]|] eqn:Hsj; [|done].
  simpl in Hi, Hj. injection Hi as ->. injection Hj as ->.
  assert (Hrow : is_Some (dm !! name1)).
  { apply Hrows. apply list_elem_of_lookup. exists i.
    by apply (lookup_keys sequences i name1 s1). }
  destruct Hrow as [row Hrow].
  unfold heatmap_ratio, map_getitem. rewrite Hrow, bind_Ok.
  destruct (decide (i = j)) as [->|Hij].
  - assert (name2 = name1) as -> by congruence.
    destruct (row !! name1) as [v|] eqn:Hv; [|done]. exfalso.
    assert (Hentry : entry dm name1 name1 = Some v).
    { unfold entry. rewrite Hrow. done. }
    apply Hent in Hentry as (i' & j' & nA & sA & nB & sB & Hlt & HiA & HjB & _ & Hnames).
    assert (nA = nB) by (destruct Hnames as [[??]|[??]]; congruence). subst nB.
    assert (i' = j'); [|lia].
    eapply NoDup_lookup; [exact Hnd| |].
    + by apply (lookup_keys sequences i' nA sA).
    + by apply (lookup_keys sequences j' nA sB).
  - set (pds := (λ ab : (string * list ascii) * (string * list ascii),
                   spec_record ab.1 ab.2) <$> all_pairs sequences).
    assert (Hcell : ∃ v, entry dm name1 name2 = Some v ∧ v ∈ snps <$> pds).
    { destruct (Nat.lt_total i j) as [Hlt|[?|Hlt]]; [|done|].
      - exists (spec_snp_count s1 s2). split.
        + apply Hent. exists i, j, name1, s1, name2, s2. naive_solver.
        + apply list_elem_of_fmap. exists (spec_record (name1, s1) (name2, s2)).
          split; [done|]. apply elem_of_spec_records.
          exists i, j, (name1, s1), (name2, s2). done.
      - exists (spec_snp_count s2 s1). split.
        + apply Hent. exists j, i, name2, s2, name1, s1. naive_solver.
        + apply list_elem_of_fmap. exists (spec_record (name2, s2) (name1, s1)).
          split; [done|]. apply elem_of_spec_records.
          exists j, i, (name2, s2), (name1, s1). done. }
    destruct Hcell as (v & Hentry & Hv).
    unfold entry in Hentry. rewrite Hrow in Hentry. simpl in Hentry.
    rewrite Hentry, bind_Ok.
    assert (Hall : all_snps pds = snps <$> pds).
    { destruct pds; [by apply elem_of_nil in Hv|done]. }
    rewrite Hall. pose proof (min_max_bounds _ v Hv) as Hbounds.
    set (lo := min_or_0 (snps <$> pds)) in *. set (hi := max_or_0 (snps <$> pds)) in *.
    destruct (lo <? hi) eqn:Hlt.
    + apply Z.ltb_lt in Hlt. unfold int_truediv.
      rewrite (proj2 (Z.eqb_neq (hi - lo) 0)) by lia. rewrite bind_Ok.
      destruct (bounded_by_value 1 (rounded_quotient (v - lo) (hi - lo)))
        as (q & Hq & Hq0 & Hq1); [lia|apply rounded_quotient_bounded; lia|].
      exists (PyFloat (rounded_quotient (v - lo) (hi - lo))), q. done.
    + exists (PyInt 0), 0%Q. split_and!; done.
Qed.

Lemma X19_heatmap_ratio_range_witness :
  ∃ pairwise_distances distance_matrix seq_names,
    calculate_pairwise_distances example_alignment
      = Ok (pairwise_distances, distance_matrix, seq_names)
    ∧ ∀ i j name1 name2,
        seq_names !! i = Some name1 → seq_names !! j = Some name2 →
        if decide (i = j)
        then heatmap_ratio pairwise_distances distance_matrix name1 name2
             = Err KeyError
        else ∃ ratio q,
            heatmap_ratio pairwise_distances distance_matrix name1 name2 = Ok ratio
            ∧ pynum_value ratio = Some q ∧ (0 <= q)%Q ∧ (q <= 1)%Q.
Proof.
  apply (X19_heatmap_ratio_range example_alignment 6).
  - exact example_alignment_rectangular.
  - exact example_alignment_NoDup.
Defined.

(** ** The alignment view of [generate_html_visualization] *)

Lemma for_each_collect {A B : Type} (xs : list A) (f : A → result B) (g : A → B)
    (out : list B) :
  (∀ x, x ∈ xs → f x = Ok (g x)) →
  for_each xs (λ out x, y ← f x; Ok (out ++ [y])) out = Ok (out ++ (g <$> xs)).
Proof.
  revert out. induction xs as [|x xs IH]; intros out Hf; simpl.
  - by rewrite app_nil_r.
  - rewrite (Hf x) by apply list_elem_of_here. rewrite bind_Ok.
    rewrite IH by (intros; apply Hf; by apply list_elem_of_further).
    by rewrite <- app_assoc.
Qed.

Lemma slice_chunk {A : Type} (s : list A) (a : nat) :
  slice s a ((a + chunk_size) `min` length s)%nat = take chunk_size (drop a s).
Proof.
  unfold slice. destruct (decide (a + chunk_size ≤ length s)%nat) as [Hle|Hgt].
  - f_equal. lia.
  - rewrite !take_ge; [done| |]; rewrite length_drop; lia.
Qed.

Lemma imap_chunks {A B : Type} (f : nat → A → B) (s : list A) (k : nat) :
  (seq 0 k ≫= λ j, imap (λ i x, f (j * chunk_size + i)%nat x)
                       (take chunk_size (drop (j * chunk_size) s)))
  = imap f (take (k * chunk_size) s).
Proof.
  induction k as [|k IH]; [done|].
  rewrite seq_S, bind_app, IH. simpl seq. rewrite bind_cons. simpl mbind. rewrite app_nil_r.
  replace (S k * chunk_size)%nat with (k * chunk_size + chunk_size)%nat by lia.
  rewrite <- take_take_drop, imap_app. f_equal. change (0 + k)%nat with k.
  destruct (decide (k * chunk_size ≤ length s)%nat) as [Hle|Hgt].
  - rewrite length_take, Nat.min_l by done. done.
  - rewrite (drop_ge s) by lia. done.
Qed.

Lemma range_step_covers (n : nat) :
  (n ≤ (n + chunk_size - 1) / chunk_size * chunk_size)%nat.
Proof.
  unfold chunk_size.
  pose proof (Nat.div_mod_eq (n + 100 - 1) 100) as Hdm.
  pose proof (Nat.mod_upper_bound (n + 100 - 1) 100). lia.
Qed.

(** X20. On a rectangular alignment with distinct keys the alignment view
    raises nothing and shows one block for every hundred columns, marked
    [100k + 1] to [min(100k + 100, L)], each with a line per sequence;
    over the blocks every base of every sequence appears exactly once, in
    order, with the class computed at its own column. *)
Theorem X20_alignment_view_shows_every_base (sequences : alignment) (L : nat)
    (cls : classification) :
  rectangular sequences L → NoDup (keys sequences) → sequences ≠ [] →
  ∃ html,
    alignment_view sequences cls (keys sequences) = Ok html
    ∧ length html = ((L + 99) / 100)%nat
    ∧ (∀ k block, html !! k = Some block →
         marker_first block = (100 * k + 1)%nat
         ∧ marker_last block = ((100 * k + 100) `min` L)%nat
         ∧ (seq_lines block).*1 = keys sequences)
    ∧ ∀ i name s, sequences !! i = Some (name, s) →
        shown_line i html
        = imap (λ pos base,
                  (span_class_of (list_to_set (differences cls))
                     (list_to_set (ambiguous_positions cls)) pos base, base)) s.
Proof.
  intros Hrect Hnd Hne. unfold alignment_view.
  rewrite (alignment_length_rectangular sequences L Hrect Hne), bind_Ok.
  set (D := list_to_set (differences cls) : gset nat).
  set (A := list_to_set (ambiguous_positions cls) : gset nat).
  set (block_of := λ a : nat,
         mk_chunk_block (a + 1) ((a + chunk_size) `min` L)
           ((λ entry : string * list ascii,
               (entry.1, chunk_spans D A a (take chunk_size (drop a entry.2))))
              <$> sequences)).
  assert (Hlines : ∀ a (entries : alignment) lines,
            entries ⊆ sequences →
            for_each (keys entries)
              (λ lines name,
                 seq ← getitem sequences name;
                 Ok (lines ++ [(name, chunk_spans D A a
                                        (slice seq a ((a + chunk_size) `min` L)%nat))]))
              lines
            = Ok (lines ++ ((λ entry : string * list ascii,
                               (entry.1, chunk_spans D A a
                                           (take chunk_size (drop a entry.2))))
                              <$> entries))).
  { intros a. induction entries as [|[name s] entries IH]; intros lines Hsub; simpl.
    - by rewrite app_nil_r.
    - assert (Hin : (name, s) ∈ sequences) by (apply Hsub, list_elem_of_here).
      apply list_elem_of_lookup in Hin as [i Hi].
      rewrite (getitem_lookup sequences i name s Hnd Hi), bind_Ok.
      assert (Hs : slice s a ((a + chunk_size) `min` L)%nat
                   = take chunk_size (drop a s)).
      { rewrite <- (rectangular_lookup sequences L Hrect i name s Hi).
        apply slice_chunk. }
      rewrite Hs. unfold keys in IH. rewrite IH by set_solver. by rewrite <- app_assoc. }
  assert (Hrun : ∀ starts out,
            for_each starts (chunk_step sequences (keys sequences) D A L) out
            = Ok (out ++ (block_of <$> starts))).
  { induction starts as [|a starts IH]; intros out; simpl.
    - by rewrite app_nil_r.
    - unfold chunk_step at 1. rewrite (Hlines a sequences []) by done. rewrite bind_Ok.
      rewrite IH, <- app_assoc. done. }
  eexists. split; [apply Hrun|]. simpl app. unfold range_step.
  rewrite <- list_fmap_compose. split_and!.
  - rewrite length_fmap, length_seq. unfold chunk_size. f_equal. lia.
  - intros k block Hk. rewrite list_lookup_fmap in Hk.
    destruct (seq 0 ((L + chunk_size - 1) / chunk_size) !! k) as [k'|] eqn:Hk'; [|done].
    apply lookup_seq in Hk' as [-> _]. simpl in Hk. injection Hk as <-.
    unfold block_of, chunk_size. simpl. split_and!; [lia|f_equal; lia|].
    rewrite <- list_fmap_compose. done.
  - intros i name s Hi. unfold shown_line.
    pose proof (rectangular_lookup sequences L Hrect i name s Hi) as Hlen.
    transitivity (imap (λ pos base, (span_class_of D A pos base, base))
                    (take ((L + chunk_size - 1) / chunk_size * chunk_size) s)).
    + rewrite <- imap_chunks. rewrite list_fmap_bind.
      apply list_bind_ext; [|done]. intros k. unfold compose, block_of. simpl.
      rewrite list_lookup_fmap, Hi. done.
    + rewrite take_ge; [done|]. rewrite Hlen. apply range_step_covers.
Qed.

Lemma X20_alignment_view_shows_every_base_witness :
  ∃ html,
    alignment_view example_alignment (mk_classification [2%nat] [4%nat] [5%nat])
      (keys example_alignment) = Ok html
    ∧ length html = ((6 + 99) / 100)%nat
    ∧ (∀ k block, html !! k = Some block →
         marker_first block = (100 * k + 1)%nat
         ∧ marker_last block = ((100 * k + 100) `min` 6)%nat
         ∧ (seq_lines block).*1 = keys example_alignment)
    ∧ ∀ i name s, example_alignment !! i = Some (name, s) →
        shown_line i html
        = imap (λ pos base,
                  (span_class_of (list_to_set [2%nat]) (list_to_set [5%nat]) pos base,
                   base)) s.
Proof.
  apply (X20_alignment_view_shows_every_base example_alignment 6
           (mk_classification [2%nat] [4%nat] [5%nat])).
  - exact example_alignment_rectangular.
  - exact example_alignment_NoDup.
  - discriminate.
Defined.

(** X21. With the lists of [find_differences], a base is drawn as a gap
    exactly when it is [-], although that test comes last: a column with a
    gap is in neither of the two lists tested before it.  A base is drawn
    as ambiguous or as an SNP exactly when its column is in the list of
    that name, and as a match otherwise. *)
Theorem X21_span_class_of_find_differences (sequences : alignment) (L : nat) :
  rectangular sequences L →
  ∃ cls, find_differences sequences = Ok cls
    ∧ ∀ s pos base, s ∈ values sequences → s !! pos = Some base →
        let shown := span_class_of (list_to_set (differences cls))
                       (list_to_set (ambiguous_positions cls)) pos base in
        (shown = class_gap ↔ base = gap_char)
        ∧ (shown = class_ambig ↔ pos ∈ ambiguous_positions cls)
        ∧ (shown = class_diff ↔ pos ∈ differences cls)
        ∧ (shown = class_match ↔
           base ≠ gap_char ∧ (pos ∉ ambiguous_positions cls) ∧ (pos ∉ differences cls)).
Proof.
  intros Hrect.
  destruct (find_differences_spec sequences L Hrect) as (cls & Hrun & Hg & Ha & Hd & _).
  exists cls. split; [done|]. intros s pos base Hs Hbase shown.
  assert (Hgap : base = gap_char →
            (pos ∉ ambiguous_positions cls) ∧ (pos ∉ differences cls)).
  { intros ->. assert (column_has_gap (values sequences) pos) by (exists s; done).
    rewrite Ha, Hd. tauto. }
  assert (Hda : pos ∈ differences cls → pos ∉ ambiguous_positions cls).
  { rewrite Ha, Hd. tauto. }
  subst shown. unfold span_class_of.
  repeat case_bool_decide;
    repeat match goal with
           | H : _ ∈ list_to_set _ |- _ => apply elem_of_list_to_set in H
           | H : _ ∉ list_to_set _ |- _ => rewrite elem_of_list_to_set in H
           end;
    split_and!; split; try done; try tauto; intros; exfalso; tauto.
Qed.


Lemma X21_span_class_of_find_differences_witness :
  ∃ cls, find_differences example_alignment = Ok cls
    ∧ ∀ s pos base, s ∈ values example_alignment → s !! pos = Some base →
        let shown := span_class_of (list_to_set (differences cls))
                       (list_to_set (ambiguous_positions cls)) pos base in
        (shown = class_gap ↔ base = gap_char)
        ∧ (shown = class_ambig ↔ pos ∈ ambiguous_positions cls)
        ∧ (shown = class_diff ↔ pos ∈ differences cls)
        ∧ (shown = class_match ↔
           base ≠ gap_char ∧ (pos ∉ ambiguous_positions cls) ∧ (pos ∉ differences cls)).
Proof.
  apply (X21_span_class_of_find_differences example_alignment 6).
  exact example_alignment_rectangular.
Defined.
